(** * Tiny Llama: a shallow embedding of the transformer core, its weight
    codec and its generation loop, with the properties of the spec. *)

From Stdlib Require Import String Ascii NArith ZArith Bool Lia List.
From Stdlib Require Import Reals Lra.
From Stdlib Require Import Strings.Byte.
Import ListNotations.

Open Scope Z_scope.

(* ================================================================= *)
(** ** Exceptions and the error monad *)

(** The exception kinds that reach the callers of the core
    (include/tiny_llama/exceptions.hpp and the std exceptions the
    Matrix code raises). *)
Inductive exn : Type :=
| FileIOException (msg : string)
| ModelException (msg : string)
| ConfigurationException (msg : string)
| TokenizerException (msg : string)
| InvalidArgument (msg : string)   (* std::invalid_argument *)
| OutOfRange (msg : string)        (* std::out_of_range *)
| ShortRead.
(* [ShortRead] is not a C++ exception: [ifstream::read] past the end of
   the file only sets the fail bit, and the weight loader carries on with
   indeterminate values that the model does not follow; it stops there. *)

Inductive res (A : Type) : Type :=
| Ok (a : A)
| Err (e : exn).
Arguments Ok {A} a.
Arguments Err {A} e.

Definition bind {A B} (m : res A) (k : A -> res B) : res B :=
  match m with Ok a => k a | Err e => Err e end.

Notation "'let*' x ':=' m 'in' k" := (bind m (fun x => k))
  (at level 200, x name, m at level 100, k at level 200).
Notation "'let*' ' p ':=' m 'in' k" := (bind m (fun x => match x with p => k end))
  (at level 200, p pattern, m at level 100, k at level 200).

Definition throw {A} (e : exn) : res A := Err e.

(** [for (i = 0; i < n; ++i) body] over a value threaded through. *)
Fixpoint for_loop {A} (n : nat) (i : nat) (body : nat -> A -> res A) (a : A)
  : res A :=
  match n with
  | O => Ok a
  | S n' => let* a' := body i a in for_loop n' (S i) body a'
  end.

(** Decimal rendering of an integer ([std::to_string]). *)
Fixpoint digits_of (fuel : nat) (n : Z) (acc : string) : string :=
  match fuel with
  | O => acc
  | S f =>
      let d := ascii_of_nat (48 + Z.to_nat (n mod 10)) in
      if n <? 10 then String d acc else digits_of f (n / 10) (String d acc)
  end.

Definition to_string (z : Z) : string :=
  if z <? 0 then String "-" (digits_of 64 (- z) "") else digits_of 64 z "".

(* ================================================================= *)
(** ** Bytes: native (little-endian) layout of integers *)

Definition byte_of_Z (z : Z) : byte :=
  match Byte.of_N (Z.to_N (z mod 256)) with Some b => b | None => x00 end.

Definition Z_of_byte (b : byte) : Z := Z.of_N (Byte.to_N b).

(** The [n] low bytes of [z], least significant first. *)
Fixpoint le_bytes (n : nat) (z : Z) : list byte :=
  match n with
  | O => []
  | S n' => byte_of_Z z :: le_bytes n' (z / 256)
  end.

Fixpoint le_value (bs : list byte) : Z :=
  match bs with
  | [] => 0
  | b :: bs' => Z_of_byte b + 256 * le_value bs'
  end.

(** [size_t] is 8 bytes, [int], [uint32_t] and [float] are 4. *)
Definition SIZE_T_BYTES : nat := 8.
Definition INT_BYTES : nat := 4.

Definition size_t_modulus : Z := 2 ^ 64.

(** [int] to [size_t] conversion, as in [rows != config_.model_dim]. *)
Definition size_of_int (z : Z) : Z := z mod size_t_modulus.

(** Reading a 4-byte [int] back from its bytes (two's complement). *)
Definition int_of_u32 (u : Z) : Z := if u <? 2 ^ 31 then u else u - 2 ^ 32.

(** [static_cast<int>] of a [size_t]: its low 32 bits, as a signed value. *)
Definition int_of_size (n : nat) : Z := int_of_u32 (Z.of_nat n mod 2 ^ 32).

(* ================================================================= *)
(** ** Floats *)

(** A [float] literal, given by its IEEE-754 binary32 bit pattern. *)
Class FloatLit (F : Type) := flit : Z -> F.

(** The arithmetic the core performs on [float]. *)
Class FloatArith (F : Type) := {
  fadd : F -> F -> F;
  fsub : F -> F -> F;
  fmul : F -> F -> F;
  fdiv : F -> F -> F;
  fexp : F -> F;     (* std::exp *)
  fsqrt : F -> F;    (* std::sqrt *)
  ftanh : F -> F;    (* std::tanh *)
  flt : F -> F -> bool;   (* operator< *)
  feqb : F -> F -> bool;  (* operator== *)
  f_of_Z : Z -> F         (* static_cast<float> of an integer *)
}.

(** The 4 bytes a [float] occupies in memory, and back. *)
Class FloatBytes (F : Type) := {
  fbytes : F -> list byte;
  fparse : list byte -> F
}.

(** Float literals of the source. *)
Definition F_ZERO : Z := 0.            (* 0.0f *)
Definition F_ONE : Z := 1065353216.    (* 1.0f = 0x3F800000 *)
Definition F_HALF : Z := 1056964608.   (* 0.5f = 0x3F000000 *)
Definition F_TWO : Z := 1073741824.    (* 2.0f = 0x40000000 *)
Definition F_SIX : Z := 1086324736.    (* 6.0f = 0x40C00000 *)
Definition F_TENTH : Z := 1036831949.  (* 0.1f = 0x3DCCCCCD *)
Definition F_NEG_1E9 : Z := 3463342888. (* -1e9f = 0xCE6E6B28 *)
Definition F_EPS : Z := 925353388.     (* 1e-5f = 0x3727C5AC *)
Definition F_SQRT_2_OVER_PI : Z := 1061962282. (* 0.7978845608028654f = 0x3F4C422A *)
Definition F_GELU_COEFF : Z := 1027024659.     (* 0.044715f = 0x3D372713 *)
Definition F_NEG_INF : Z := 4286578688. (* -infinity = 0xFF800000 *)
Definition F_NEG_ONE : Z := 3212836864. (* -1.0f = 0xBF800000 *)

Section FloatDerived.
Context {F : Type} `{FloatLit F} `{FloatArith F}.

Definition fzero : F := flit F_ZERO.

(** [std::max(a, b)]: [(a < b) ? b : a]. *)
Definition fmax (a b : F) : F := if flt a b then b else a.
End FloatDerived.

(** *** Floats as the 32-bit patterns they are stored as *)

(** The codec only moves floats between memory and files; for it a float
    is its bit pattern. *)
Record f32 : Type := F32 { f32_bits : Z }.

#[export] Instance f32_lit : FloatLit f32 := F32.

#[export] Instance f32_bytes : FloatBytes f32 := {
  fbytes x := le_bytes INT_BYTES (f32_bits x);
  fparse bs := F32 (le_value bs)
}.

(** *** Floats as IEEE values without rounding *)

(** A model of [float] without rounding: a finite value is a real
    number and the special values of IEEE-754 are kept ([+inf], [-inf],
    NaN, with their propagation); the rounding of finite results is not
    modelled, and signed zeros are merged. It carries the claims whose
    results are exact or only depend on the special values; the
    attention and softmax claims are settled on the rounded model [b32]
    below, whose operations round the results of this one. [std::exp]
    additionally underflows to [0] when its exact result is at most
    [2^-150] (the binary32 round-to-zero boundary) and overflows to
    [+inf] from [2^128 - 2^103] on (the round-to-infinity boundary): the
    [-1e9f] attention-mask sentinel relies on the underflow. *)
Inductive xR : Type :=
| Fin (r : R)
| PInf
| NInf
| NaN.

Local Open Scope R_scope.

Definition rtanh (x : R) : R := (exp x - exp (- x)) / (exp x + exp (- x)).

Definition inf_of_sign (pos : bool) : xR := if pos then PInf else NInf.

Definition xneg (a : xR) : xR :=
  match a with Fin x => Fin (- x) | PInf => NInf | NInf => PInf | NaN => NaN end.

Definition xadd (a b : xR) : xR :=
  match a, b with
  | NaN, _ | _, NaN => NaN
  | Fin x, Fin y => Fin (x + y)
  | PInf, NInf | NInf, PInf => NaN
  | PInf, _ | _, PInf => PInf
  | NInf, _ | _, NInf => NInf
  end.

Definition xsub (a b : xR) : xR := xadd a (xneg b).

Definition xmul_inf (x : R) (pos : bool) : xR :=
  if Req_EM_T x 0 then NaN
  else if Rlt_dec 0 x then inf_of_sign pos else inf_of_sign (negb pos).

Definition xmul (a b : xR) : xR :=
  match a, b with
  | NaN, _ | _, NaN => NaN
  | Fin x, Fin y => Fin (x * y)
  | Fin x, PInf | PInf, Fin x => xmul_inf x true
  | Fin x, NInf | NInf, Fin x => xmul_inf x false
  | PInf, PInf | NInf, NInf => PInf
  | PInf, NInf | NInf, PInf => NInf
  end.

Definition xdiv (a b : xR) : xR :=
  match a, b with
  | NaN, _ | _, NaN => NaN
  | Fin x, Fin y =>
      if Req_EM_T y 0 then
        (if Req_EM_T x 0 then NaN else inf_of_sign (if Rlt_dec 0 x then true else false))
      else Fin (x / y)
  | Fin _, PInf | Fin _, NInf => Fin 0
  | PInf, Fin y => inf_of_sign (if Rle_dec 0 y then true else false)
  | NInf, Fin y => inf_of_sign (if Rle_dec 0 y then false else true)
  | _, _ => NaN
  end.

Definition exp_underflow : R := powerRZ 2 (-150).
Definition exp_overflow : R := powerRZ 2 128 - powerRZ 2 103.

Definition xexp (a : xR) : xR :=
  match a with
  | Fin x =>
      if Rle_dec (exp x) exp_underflow then Fin 0
      else if Rle_dec exp_overflow (exp x) then PInf
      else Fin (exp x)
  | PInf => PInf
  | NInf => Fin 0
  | NaN => NaN
  end.

Definition xsqrt (a : xR) : xR :=
  match a with
  | Fin x => if Rlt_dec x 0 then NaN else Fin (sqrt x)
  | PInf => PInf
  | _ => NaN
  end.

Definition xtanh (a : xR) : xR :=
  match a with
  | Fin x => Fin (rtanh x)
  | PInf => Fin 1
  | NInf => Fin (-1)
  | NaN => NaN
  end.

Definition xlt (a b : xR) : bool :=
  match a, b with
  | Fin x, Fin y => if Rlt_dec x y then true else false
  | NInf, Fin _ | NInf, PInf | Fin _, PInf => true
  | _, _ => false
  end.

Definition xeqb (a b : xR) : bool :=
  match a, b with
  | Fin x, Fin y => if Req_EM_T x y then true else false
  | PInf, PInf | NInf, NInf => true
  | _, _ => false
  end.

(** The value of a binary32 bit pattern. *)
Definition b32_value (w : Z) : xR :=
  let e := Z.land (Z.shiftr w 23) 255 in
  let m := Z.land w (2 ^ 23 - 1) in
  let neg := Z.testbit w 31 in
  if (e =? 255)%Z then (if (m =? 0)%Z then inf_of_sign (negb neg) else NaN)
  else
    let mag := if (e =? 0)%Z then IZR m * powerRZ 2 (-149)
               else IZR (m + 2 ^ 23) * powerRZ 2 (e - 150) in
    Fin (if neg then - mag else mag).

#[export] Instance xR_lit : FloatLit xR := b32_value.

#[export] Instance xR_arith : FloatArith xR := {
  fadd := xadd; fsub := xsub; fmul := xmul; fdiv := xdiv;
  fexp := xexp; fsqrt := xsqrt; ftanh := xtanh;
  flt := xlt; feqb := xeqb;
  f_of_Z z := Fin (IZR z)
}.

(** *** Floats as IEEE binary32 values, with rounding *)

(** The exponent of the last mantissa bit of a binary32 number of
    magnitude [r]: the least [q >= -149] with [r < 2^(q+24)], searched
    upward from the subnormal exponent. *)
Fixpoint quantum_from (fuel : nat) (q : Z) (r : R) : Z :=
  match fuel with
  | O => q
  | S f => if Rlt_dec r (powerRZ 2 (q + 24)) then q else quantum_from f (q + 1) r
  end.

Definition quantum (r : R) : Z := quantum_from 253 (-149) r.

(** Rounding a real to an integer, ties to even. *)
Definition round_mant (x : R) : Z :=
  let m := Int_part x in
  let f := x - IZR m in
  if Rlt_dec f (1 / 2) then m
  else if Rlt_dec (1 / 2) f then (m + 1)%Z
  else if Z.even m then m else (m + 1)%Z.

(** A non-negative real rounded to the nearest multiple of its quantum. *)
Definition round_pos (r : R) : R :=
  let q := quantum r in IZR (round_mant (r * powerRZ 2 (- q))) * powerRZ 2 q.

(** From this magnitude on, round-to-nearest gives an infinity. *)
Definition b32_overflow : R := powerRZ 2 128 - powerRZ 2 103.

(** IEEE-754 binary32 rounding of an exact result, to nearest with ties
    to even (signed zeros merged, as in [xR]). *)
Definition rnd (r : R) : xR :=
  if Rle_dec b32_overflow (Rabs r) then (if Rlt_dec 0 r then PInf else NInf)
  else Fin (if Rle_dec 0 r then round_pos r else - round_pos (- r)).

Definition round_x (a : xR) : xR := match a with Fin r => rnd r | _ => a end.

(** The finite binary32 values: [N * 2^e] with a 24-bit [N]. *)
Definition b32_repr (c : R) : Prop :=
  exists N e, (0 <= N < 2 ^ 24)%Z /\ (-149 <= e)%Z /\ c = IZR N * powerRZ 2 e.

(** A [float] of the IEEE model: its value; every operation of the
    hardware rounds the exact result of [xR]. *)
Record b32 : Type := B32 { b32_x : xR }.

#[export] Instance b32_lit : FloatLit b32 := fun w => B32 (b32_value w).

(** [std::exp] and [std::tanh] come from the C library, whose results
    IEEE-754 does not fix; they are a parameter of the model. *)
Class Libm : Type := {
  libm_exp : xR -> xR;
  libm_tanh : xR -> xR
}.

#[export] Instance b32_arith `{Libm} : FloatArith b32 := {
  fadd a b := B32 (round_x (xadd (b32_x a) (b32_x b)));
  fsub a b := B32 (round_x (xsub (b32_x a) (b32_x b)));
  fmul a b := B32 (round_x (xmul (b32_x a) (b32_x b)));
  fdiv a b := B32 (round_x (xdiv (b32_x a) (b32_x b)));
  fexp a := B32 (libm_exp (b32_x a));
  fsqrt a := B32 (round_x (xsqrt (b32_x a)));
  ftanh a := B32 (libm_tanh (b32_x a));
  flt a b := xlt (b32_x a) (b32_x b);
  feqb a b := xeqb (b32_x a) (b32_x b);
  f_of_Z z := B32 (rnd (IZR z))
}.

(** What the proofs take from [std::exp]: [exp(0) = 1], results in
    [[0, 1]] for non-positive arguments, [0] from [-150] down (the exact
    value is far below the least subnormal there) and [exp(-inf) = 0]. *)
Definition libm_exp_ok (e : xR -> xR) : Prop :=
  e (Fin 0) = Fin 1 /\
  (forall x, x <= 0 -> exists y, e (Fin x) = Fin y /\ 0 <= y <= 1) /\
  (forall x, x <= -150 -> e (Fin x) = Fin 0) /\
  e NInf = Fin 0.

(** A C library whose [exp] and [tanh] are correctly rounded. *)
Definition cr_libm : Libm := {|
  libm_exp a := match a with
                | Fin x => rnd (exp x)
                | PInf => PInf
                | NInf => Fin 0
                | NaN => NaN
                end;
  libm_tanh a := round_x (xtanh a)
|}.

Local Close Scope R_scope.

(* ================================================================= *)
(** ** Matrix<T> (include/tiny_llama/matrix.hpp, src/matrix.cpp) *)

Record Matrix (T : Type) : Type := mkMatrix {
  rows_ : nat;
  cols_ : nat;
  data_ : list T   (* row-major, [rows_ * cols_] elements *)
}.
Arguments mkMatrix {T} rows_ cols_ data_.
Arguments rows_ {T} m.
Arguments cols_ {T} m.
Arguments data_ {T} m.

(** [std::vector::resize]: keeps the prefix, pads with [T()]. *)
Definition vec_resize {T} (z : T) (n : nat) (v : list T) : list T :=
  firstn n v ++ repeat z (n - length v).

(** [v[k] = x] inside the vector's bounds. *)
Fixpoint list_set {T} (k : nat) (x : T) (v : list T) : list T :=
  match v, k with
  | [], _ => []
  | _ :: v', O => x :: v'
  | y :: v', S k' => y :: list_set k' x v'
  end.

Section MatrixOps.
Context {F : Type} `{FloatLit F}.

(** [Matrix(rows, cols)]: zero-filled storage. *)
Definition Matrix_new (r c : nat) : Matrix F := mkMatrix r c (repeat fzero (r * c)).

(** [Matrix()]: the empty matrix. *)
Definition Matrix_empty : Matrix F := mkMatrix 0 0 [].

(** [data_[row * cols_ + col]], the element behind [operator()] once its
    bounds check has passed. *)
Definition mget (m : Matrix F) (i j : nat) : F := nth (i * cols_ m + j) (data_ m) fzero.

(** [operator()] with its bounds check. *)
Definition mat_at (m : Matrix F) (i j : nat) : res F :=
  if (i <? rows_ m)%nat && (j <? cols_ m)%nat then Ok (mget m i j)
  else Err (OutOfRange "Matrix index out of bounds").

Definition mset (m : Matrix F) (i j : nat) (x : F) : Matrix F :=
  mkMatrix (rows_ m) (cols_ m) (list_set (i * cols_ m + j) x (data_ m)).

(** [m(i, j) = x] with its bounds check. *)
Definition mat_set (m : Matrix F) (i j : nat) (x : F) : res (Matrix F) :=
  if (i <? rows_ m)%nat && (j <? cols_ m)%nat then Ok (mset m i j x)
  else Err (OutOfRange "Matrix index out of bounds").

(** [resize(rows, cols)]; the element count is computed in [size_t]. *)
Definition mresize (r c : nat) (m : Matrix F) : Matrix F :=
  mkMatrix r c
    (vec_resize fzero (N.to_nat ((N.of_nat r * N.of_nat c) mod 2 ^ 64)%N) (data_ m)).

Definition mfill (x : F) (m : Matrix F) : Matrix F :=
  mkMatrix (rows_ m) (cols_ m) (map (fun _ => x) (data_ m)).

(** [transpose()]. *)
Definition transpose (m : Matrix F) : Matrix F :=
  mkMatrix (cols_ m) (rows_ m)
    (flat_map (fun j => map (fun i => mget m i j) (seq 0 (rows_ m))) (seq 0 (cols_ m))).
End MatrixOps.

Section MatrixArith.
Context {F : Type} `{FloatLit F} `{FloatArith F}.

(** [operator*]: the triple loop, [sum += this(i, k) * other(k, j)];
    the inner accesses are within bounds by the loop ranges. *)
Definition matmul (a b : Matrix F) : res (Matrix F) :=
  if negb (cols_ a =? rows_ b)%nat then
    Err (InvalidArgument "Matrix dimensions incompatible for multiplication")
  else
    Ok (mkMatrix (rows_ a) (cols_ b)
          (flat_map (fun i =>
             map (fun j =>
               fold_left (fun s k => fadd s (fmul (mget a i k) (mget b k j)))
                 (seq 0 (cols_ a)) fzero)
               (seq 0 (cols_ b)))
            (seq 0 (rows_ a)))).
End MatrixArith.

(** *** Matrix file format: [rows | cols | rows*cols elements] *)

(** The byte stream of an [ifstream]: what is left to read. *)
Definition istream := list byte.

(** [file.read(buf, n)] that succeeded: the [n] bytes and the rest. *)
Definition read_bytes (n : nat) (s : istream) : option (list byte * istream) :=
  if (n <=? length s)%nat then Some (firstn n s, skipn n s) else None.

Fixpoint parse_floats {F} `{FloatBytes F} (n : nat) (bs : list byte) : list F :=
  match n with
  | O => []
  | S n' => fparse (firstn INT_BYTES bs) :: parse_floats n' (skipn INT_BYTES bs)
  end.

Section MatrixFile.
Context {F : Type} `{FloatLit F} `{FloatBytes F}.

Definition float_bytes (v : list F) : list byte := flat_map fbytes v.

(** [save_to_file]: the bytes the file holds afterwards. *)
Definition save_to_file (m : Matrix F) : list byte :=
  le_bytes SIZE_T_BYTES (Z.of_nat (rows_ m)) ++
  le_bytes SIZE_T_BYTES (Z.of_nat (cols_ m)) ++
  float_bytes (data_ m).

(** [load_from_file] into [m], from the contents of the file ([None]:
    the file cannot be opened). *)
Definition load_from_file (filename : string) (file : option (list byte)) (m : Matrix F)
  : res (Matrix F) :=
  match file with
  | None => Err (FileIOException ("Cannot open file for reading: " ++ filename)%string)
  | Some s =>
      match read_bytes (2 * SIZE_T_BYTES) s with
      | None => Err (FileIOException ("Failed to read matrix dimensions from file: " ++ filename)%string)
      | Some (dims, s1) =>
          let rows := Z.to_nat (le_value (firstn SIZE_T_BYTES dims)) in
          let cols := Z.to_nat (le_value (skipn SIZE_T_BYTES dims)) in
          let m1 := mresize rows cols m in
          let n := length (data_ m1) in
          match read_bytes (n * INT_BYTES) s1 with
          | None => Err (FileIOException ("Failed to read matrix data from file: " ++ filename)%string)
          | Some (payload, _) => Ok (mkMatrix rows cols (parse_floats n payload))
          end
      end
  end.
End MatrixFile.

(* ================================================================= *)
(** ** Tokenizer collaborator (src/tokenizer.cpp) *)

(** An [std::unordered_map<std::string, int>] as an association list:
    [insert_or_assign] replaces the binding in place. *)
Fixpoint map_find (k : string) (m : list (string * Z)) : option Z :=
  match m with
  | [] => None
  | (k', v) :: m' => if String.eqb k k' then Some v else map_find k m'
  end.

Fixpoint map_put (k : string) (v : Z) (m : list (string * Z)) : list (string * Z) :=
  match m with
  | [] => [(k, v)]
  | (k', v') :: m' => if String.eqb k k' then (k, v) :: m' else (k', v') :: map_put k v m'
  end.

Record Vocabulary : Type := mkVocabulary {
  token_to_id_ : list (string * Z);
  id_to_token_ : list string;
  unk_token_id_ : Z;
  pad_token_id_ : Z;
  bos_token_id_ : Z;
  eos_token_id_ : Z
}.

Definition UNK_TOKEN : string := "<unk>".
Definition PAD_TOKEN : string := "<pad>".
Definition BOS_TOKEN : string := "<bos>".
Definition EOS_TOKEN : string := "<eos>".

(** [Vocabulary::add_token]: the id of the token, added at the end when
    new; the new id is [static_cast<int>(id_to_token_.size())]. *)
Definition add_token (token : string) (v : Vocabulary) : Z * Vocabulary :=
  match map_find token (token_to_id_ v) with
  | Some id => (id, v)
  | None =>
      let id := int_of_size (List.length (id_to_token_ v)) in
      (id, mkVocabulary (map_put token id (token_to_id_ v)) (id_to_token_ v ++ [token])
             (unk_token_id_ v) (pad_token_id_ v) (bos_token_id_ v) (eos_token_id_ v))
  end.

Definition set_special_ids (v : Vocabulary) (unk pad bos eos : Z) : Vocabulary :=
  mkVocabulary (token_to_id_ v) (id_to_token_ v) unk pad bos eos.

(** [Vocabulary::Vocabulary]: the four special tokens, in this order. *)
Definition Vocabulary_new : Vocabulary :=
  let v0 := mkVocabulary [] [] (-1) (-1) (-1) (-1) in
  let '(unk, v1) := add_token UNK_TOKEN v0 in
  let v1 := set_special_ids v1 unk (-1) (-1) (-1) in
  let '(pad, v2) := add_token PAD_TOKEN v1 in
  let v2 := set_special_ids v2 unk pad (-1) (-1) in
  let '(bos, v3) := add_token BOS_TOKEN v2 in
  let v3 := set_special_ids v3 unk pad bos (-1) in
  let '(eos, v4) := add_token EOS_TOKEN v3 in
  set_special_ids v4 unk pad bos eos.

Definition vocab_size_of (v : Vocabulary) : nat := List.length (id_to_token_ v).

Definition get_token_id (v : Vocabulary) (token : string) : Z :=
  match map_find token (token_to_id_ v) with Some id => id | None => unk_token_id_ v end.

(** [Vocabulary::get_token], against [static_cast<int>(id_to_token_.size())];
    [id_to_token_[unk_token_id_]] is unchecked. *)
Definition get_token (v : Vocabulary) (id : Z) : string :=
  if (id <? 0) || (id >=? int_of_size (List.length (id_to_token_ v))) then
    nth (Z.to_nat (unk_token_id_ v)) (id_to_token_ v) ""%string
  else nth (Z.to_nat id) (id_to_token_ v) ""%string.

Record BPETokenizer : Type := mkBPETokenizer {
  vocab_ : Vocabulary;
  bpe_merges_ : list (string * string);
  bpe_ranks_ : list (string * Z)
}.

Definition BPETokenizer_new : BPETokenizer := mkBPETokenizer Vocabulary_new [] [].

Definition tok_vocab_size (t : BPETokenizer) : nat := vocab_size_of (vocab_ t).

Definition tok_eos_id (t : BPETokenizer) : Z := eos_token_id_ (vocab_ t).

(** [preprocess_text]: ASCII lower-casing, tabs and line breaks to spaces. *)
Definition preprocess_char (c : ascii) : ascii :=
  let n := nat_of_ascii c in
  let c := if (65 <=? n)%nat && (n <=? 90)%nat then ascii_of_nat (n + 32) else c in
  let n := nat_of_ascii c in
  if (n =? 9)%nat || (n =? 10)%nat || (n =? 13)%nat then " "%char else c.

Fixpoint preprocess_text (s : string) : string :=
  match s with
  | EmptyString => EmptyString
  | String c s' => String (preprocess_char c) (preprocess_text s')
  end.

(** [std::isspace] in the "C" locale. *)
Definition is_space (c : ascii) : bool :=
  let n := nat_of_ascii c in (n =? 32)%nat || ((9 <=? n)%nat && (n <=? 13)%nat).

(** [split_to_words]: maximal non-space runs, and each space as a word. *)
Fixpoint split_words_acc (s : string) (cur : string) : list string :=
  match s with
  | EmptyString => if String.eqb cur "" then [] else [cur]
  | String c s' =>
      if is_space c then
        (if String.eqb cur "" then [] else [cur]) ++ " "%string :: split_words_acc s' ""
      else split_words_acc s' (cur ++ String c EmptyString)%string
  end.

Definition split_to_words (s : string) : list string := split_words_acc s "".

Fixpoint adjacent_pairs (l : list string) : list (string * string) :=
  match l with
  | a :: (b :: _) as l' => (a, b) :: adjacent_pairs l'
  | _ => []
  end.

Definition INT_MAX : Z := 2147483647.

(** The lowest-ranked pair (first on ties), as [(best_rank, best_idx)]. *)
Definition best_pair (ranks : list (string * Z)) (pairs : list (string * string)) : option nat :=
  let fix go (ps : list (string * string)) (i : nat) (best : Z) (idx : option nat) :=
    match ps with
    | [] => idx
    | (a, b) :: ps' =>
        match map_find (a ++ " " ++ b)%string ranks with
        | Some r => if r <? best then go ps' (S i) r (Some i) else go ps' (S i) best idx
        | None => go ps' (S i) best idx
        end
    end in
  go pairs 0%nat INT_MAX None.

Fixpoint merge_pair (a b : string) (chars : list string) : list string :=
  match chars with
  | x :: ((y :: rest) as tl) =>
      if String.eqb x a && String.eqb y b then (a ++ b)%string :: merge_pair a b rest
      else x :: merge_pair a b tl
  | _ => chars
  end.

Fixpoint bpe_loop (fuel : nat) (ranks : list (string * Z)) (chars : list string) : list string :=
  match fuel with
  | O => chars
  | S f =>
      let pairs := adjacent_pairs chars in
      match best_pair ranks pairs with
      | None => chars
      | Some i =>
          let '(a, b) := nth i pairs (""%string, ""%string) in
          bpe_loop f ranks (merge_pair a b chars)
      end
  end.

Fixpoint chars_of (s : string) : list string :=
  match s with
  | EmptyString => []
  | String c s' => String c EmptyString :: chars_of s'
  end.

(** [bpe_encode]; every merge shortens [chars], so [length word] rounds
    of the [while] loop suffice. *)
Definition bpe_encode (t : BPETokenizer) (word : string) : list string :=
  let chars := chars_of word in
  match chars with
  | [] => []
  | [_] => chars
  | _ => bpe_loop (String.length word) (bpe_ranks_ t) chars
  end.

Definition encode (t : BPETokenizer) (text : string) : list Z :=
  if String.eqb text "" then []
  else
    flat_map (fun w => if String.eqb w "" then []
                       else map (get_token_id (vocab_ t)) (bpe_encode t w))
      (split_to_words (preprocess_text text)).

Definition decode (t : BPETokenizer) (tokens : list Z) : string :=
  fold_left (fun acc id => (acc ++ get_token (vocab_ t) id)%string) tokens ""%string.

(* ================================================================= *)
(** ** The model's state (include/tiny_llama/model.hpp) *)

(** [ModelConfig]; [int] fields as [Z]. [dropout_rate] is only ever
    copied, so it is kept as its bit pattern. *)
Record ModelConfig : Type := mkConfig {
  model_dim : Z;
  num_layers : Z;
  num_heads : Z;
  ffn_hidden_dim : Z;
  max_sequence_length : Z;
  vocab_size : Z;
  dropout_rate : Z
}.

Definition ModelConfig_default : ModelConfig := mkConfig 512 6 8 2048 1024 32000 F_TENTH.

Record MultiHeadAttention (F : Type) : Type := mkMHA {
  num_heads_ : Z;
  mha_model_dim_ : Z;
  head_dim_ : Z;
  query_weights_ : Matrix F;
  key_weights_ : Matrix F;
  value_weights_ : Matrix F;
  output_weights_ : Matrix F
}.

Record FeedForwardNetwork (F : Type) : Type := mkFFN {
  ffn_model_dim_ : Z;
  hidden_dim_ : Z;
  linear1_weights_ : Matrix F;
  linear1_bias_ : list F;
  linear2_weights_ : Matrix F;
  linear2_bias_ : list F
}.

Record TransformerBlock (F : Type) : Type := mkBlock {
  block_model_dim_ : Z;
  attention_ : MultiHeadAttention F;
  ffn_ : FeedForwardNetwork F;
  layer_norm1_weight_ : list F;
  layer_norm1_bias_ : list F;
  layer_norm2_weight_ : list F;
  layer_norm2_bias_ : list F
}.

(** [tokenizer_] is a [unique_ptr]; [None] is the null pointer. *)
Record TinyLlamaModel (F : Type) : Type := mkModel {
  tokenizer_ : option BPETokenizer;
  embedding_weights_ : Matrix F;
  position_embeddings_ : Matrix F;
  transformer_blocks_ : list (TransformerBlock F);
  output_projection_ : Matrix F;
  config_ : ModelConfig;
  temperature_ : F
}.

Arguments mkMHA {F}. Arguments mkFFN {F}. Arguments mkBlock {F}. Arguments mkModel {F}.
Arguments num_heads_ {F}. Arguments mha_model_dim_ {F}. Arguments head_dim_ {F}.
Arguments query_weights_ {F}. Arguments key_weights_ {F}.
Arguments value_weights_ {F}. Arguments output_weights_ {F}.
Arguments ffn_model_dim_ {F}. Arguments hidden_dim_ {F}.
Arguments linear1_weights_ {F}. Arguments linear1_bias_ {F}.
Arguments linear2_weights_ {F}. Arguments linear2_bias_ {F}.
Arguments block_model_dim_ {F}. Arguments attention_ {F}. Arguments ffn_ {F}.
Arguments layer_norm1_weight_ {F}. Arguments layer_norm1_bias_ {F}.
Arguments layer_norm2_weight_ {F}. Arguments layer_norm2_bias_ {F}.
Arguments tokenizer_ {F}. Arguments embedding_weights_ {F}.
Arguments position_embeddings_ {F}. Arguments transformer_blocks_ {F}.
Arguments output_projection_ {F}. Arguments config_ {F}. Arguments temperature_ {F}.

(** [set_temperature] (model.hpp): no validation at this level. *)
Definition set_temperature {F} (t : F) (m : TinyLlamaModel F) : TinyLlamaModel F :=
  mkModel (tokenizer_ m) (embedding_weights_ m) (position_embeddings_ m)
    (transformer_blocks_ m) (output_projection_ m) (config_ m) t.

(** A [size_t] dimension taken from an [int]; the dimensions of the
    source are non-negative. *)
Definition dim (z : Z) : nat := Z.to_nat z.

(** The process-global [rand()]: the [k]-th value it returns. *)
Definition RAND_MAX : Z := 2147483647.

(** *** Constructors *)

Section Construction.
Context {F : Type} `{FloatLit F} `{FloatArith F}.
Variable rand : nat -> Z.

(** [MultiHeadAttention(model_dim, num_heads)], drawing [rand()] from
    position [pos] on, four draws per element (query, key, value,
    output interleaved); returns the next position. *)
Definition MultiHeadAttention_new (md nh : Z) (pos : nat)
  : res (MultiHeadAttention F * nat) :=
  if negb (Z.rem md nh =? 0) then
    Err (ConfigurationException "Model dimension must be divisible by number of heads")
  else
    let n := (dim md * dim md)%nat in
    let scale := fsqrt (fdiv (flit F_SIX) (f_of_Z (md + md))) in
    let draw k := fmul (fsub (fmul (fdiv (f_of_Z (rand k)) (f_of_Z RAND_MAX)) (flit F_TWO))
                           (flit F_ONE)) scale in
    let init off := mkMatrix (dim md) (dim md)
                      (map (fun i => draw (pos + 4 * i + off)%nat) (seq 0 n)) in
    Ok (mkMHA nh md (Z.quot md nh) (init 0%nat) (init 1%nat) (init 2%nat) (init 3%nat),
        (pos + 4 * n)%nat).

Definition FeedForwardNetwork_new (md hd : Z) : FeedForwardNetwork F :=
  mkFFN md hd (Matrix_new (dim md) (dim hd)) (repeat fzero (dim hd))
    (Matrix_new (dim hd) (dim md)) (repeat fzero (dim md)).

Definition TransformerBlock_new (md nh hd : Z) (pos : nat)
  : res (TransformerBlock F * nat) :=
  let* ap := MultiHeadAttention_new md nh pos in
  let '(att, pos') := ap in
  Ok (mkBlock md att (FeedForwardNetwork_new md hd)
        (repeat (flit F_ONE) (dim md)) (repeat fzero (dim md))
        (repeat (flit F_ONE) (dim md)) (repeat fzero (dim md)), pos').

Fixpoint make_blocks (n : nat) (c : ModelConfig) (pos : nat)
  : res (list (TransformerBlock F) * nat) :=
  match n with
  | O => Ok ([], pos)
  | S n' =>
      let* bp := TransformerBlock_new (model_dim c) (num_heads c) (ffn_hidden_dim c) pos in
      let '(b, pos') := bp in
      let* rest := make_blocks n' c pos' in
      let '(bs, pos'') := rest in
      Ok (b :: bs, pos'')
  end.

(** [TinyLlamaModel(config)]; the default constructor is the same with
    [ModelConfig_default]. *)
Definition TinyLlamaModel_new (c : ModelConfig) (pos : nat) : res (TinyLlamaModel F * nat) :=
  let* bp := make_blocks (dim (num_layers c)) c pos in
  let '(blocks, pos') := bp in
  Ok (mkModel (Some BPETokenizer_new)
        (mfill fzero (Matrix_new (dim (vocab_size c)) (dim (model_dim c))))
        (mfill fzero (Matrix_new (dim (max_sequence_length c)) (dim (model_dim c))))
        blocks
        (mfill fzero (Matrix_new (dim (model_dim c)) (dim (vocab_size c))))
        c (flit F_ONE), pos').
End Construction.

(** [TinyLlamaModel::is_initialized]. *)
Definition is_initialized {F} (m : TinyLlamaModel F) : bool :=
  match tokenizer_ m with
  | None => false
  | Some t => negb (tok_vocab_size t =? 0)%nat
  end.

(** [TinyLlamaModel::create_attention_mask]. *)
Definition create_attention_mask {F} `{FloatLit F} (n : nat) : Matrix F :=
  mkMatrix n n
    (flat_map (fun i => map (fun j => if (j <=? i)%nat then flit F_ONE else flit F_ZERO)
                          (seq 0 n)) (seq 0 n)).

(** A loop whose body may throw, collecting one value per iteration. *)
Fixpoint res_map {A B} (f : A -> res B) (l : list A) : res (list B) :=
  match l with
  | [] => Ok []
  | x :: l' => let* y := f x in let* ys := res_map f l' in Ok (y :: ys)
  end.

(* ================================================================= *)
(** ** The forward pass *)

Section Forward.
Context {F : Type} `{FloatLit F} `{FloatArith F}.

(** *** [MultiHeadAttention::scaled_dot_product_attention] *)

(** [scores.data()[i] *= scale_factor] with
    [scale_factor = 1.0f / std::sqrt(static_cast<float>(d_k))]. *)
Definition scale_scores (scores : Matrix F) (d_k : nat) : Matrix F :=
  let scale_factor := fdiv (flit F_ONE) (fsqrt (f_of_Z (Z.of_nat d_k))) in
  mkMatrix (rows_ scores) (cols_ scores) (map (fun x => fmul x scale_factor) (data_ scores)).

(** The score the softmax reads at [(i, j)]: [-1e9f] where the mask
    holds [0.0f]. *)
Definition masked_score (mask : option (Matrix F)) (i j : nat) (s : F) : F :=
  match mask with
  | Some mk => if feqb (mget mk i j) fzero then flit F_NEG_1E9 else s
  | None => s
  end.

(** One row of the attention softmax: [max_val] from [-infinity] with
    [std::max], [exp(x - max_val)], sum from [0.0f], divide. *)
Definition softmax_row (row : list F) : list F :=
  let max_val := fold_left fmax row (flit F_NEG_INF) in
  let exp_values := map (fun s => fexp (fsub s max_val)) row in
  let sum_exp := fold_left fadd exp_values fzero in
  map (fun e => fdiv e sum_exp) exp_values.

(** The whole function. The checked reads [scores(i, j)] of the masking
    and softmax loops fail exactly when some [(i, j)] with
    [i, j < seq_len] is outside [scores]; they are done here row by row,
    which raises the same exception. *)
Definition scaled_dot_product_attention (Q K V : Matrix F) (mask : option (Matrix F))
  : res (Matrix F) :=
  let seq_len := rows_ Q in
  let d_k := cols_ Q in
  let* sc := matmul Q (transpose K) in
  let scores := scale_scores sc d_k in
  let* _ := match mask with
            | Some mk =>
                if negb (rows_ mk =? seq_len)%nat || negb (cols_ mk =? seq_len)%nat
                then Err (ModelException "Attention mask dimensions mismatch")
                else Ok tt
            | None => Ok tt
            end in
  let* weight_rows :=
    res_map (fun i =>
      let* row := res_map (fun j =>
                    let* s := mat_at scores i j in Ok (masked_score mask i j s))
                    (seq 0 seq_len) in
      Ok (softmax_row row)) (seq 0 seq_len) in
  matmul (mkMatrix seq_len seq_len (concat weight_rows)) V.

(** *** [MultiHeadAttention::forward] *)

(** The columns [h * head_dim_ + j] of [m], by checked reads. *)
Definition head_slice (m : Matrix F) (hd h : nat) : res (Matrix F) :=
  let* d := res_map (fun k => mat_at m (k / hd) (h * hd + k mod hd))
              (seq 0 (rows_ m * hd)) in
  Ok (mkMatrix (rows_ m) hd d).

(** [output(i, h * head_dim_ + j) = head_output(i, j)]. *)
Definition copy_head (seq_len hd h : nat) (head_output out : Matrix F) : res (Matrix F) :=
  for_loop seq_len 0 (fun i o =>
    for_loop hd 0 (fun j o' =>
      let* x := mat_at head_output i j in mat_set o' i (h * hd + j) x) o) out.

Definition mha_forward (a : MultiHeadAttention F) (input : Matrix F) (mask : option (Matrix F))
  : res (Matrix F) :=
  let seq_len := rows_ input in
  let hd := dim (head_dim_ a) in
  let* query := matmul input (query_weights_ a) in
  let* key := matmul input (key_weights_ a) in
  let* value := matmul input (value_weights_ a) in
  let output := mfill fzero (Matrix_new seq_len (dim (mha_model_dim_ a))) in
  let* output := for_loop (dim (num_heads_ a)) 0 (fun h out =>
    let* q_head := head_slice query hd h in
    let* k_head := head_slice key hd h in
    let* v_head := head_slice value hd h in
    let* head_output := scaled_dot_product_attention q_head k_head v_head mask in
    copy_head seq_len hd h head_output out) output in
  matmul output (output_weights_ a).

(** *** [FeedForwardNetwork] *)

Definition gelu (x : F) : F :=
  let x3 := fmul (fmul x x) x in
  let inner := fmul (flit F_SQRT_2_OVER_PI) (fadd x (fmul (flit F_GELU_COEFF) x3)) in
  let tanh_inner := ftanh inner in
  fmul (fmul (flit F_HALF) x) (fadd (flit F_ONE) tanh_inner).

Definition gelu_activation (input : list F) : list F := map gelu input.

(** [m(i, j) += bias[j]] over the whole matrix; [bias[j]] is an
    unchecked read, within range for the shapes the model admits. *)
Definition add_bias (m : Matrix F) (bias : list F) : Matrix F :=
  mkMatrix (rows_ m) (cols_ m)
    (flat_map (fun i => map (fun j => fadd (mget m i j) (nth j bias fzero))
                          (seq 0 (cols_ m))) (seq 0 (rows_ m))).

Definition ffn_forward (f : FeedForwardNetwork F) (input : Matrix F) : res (Matrix F) :=
  if negb (Z.of_nat (cols_ input) =? size_of_int (ffn_model_dim_ f))
  then Err (ModelException ("Input dimension mismatch for FFN: expected " ++
               to_string (ffn_model_dim_ f) ++ ", got " ++
               to_string (Z.of_nat (cols_ input)))%string)
  else
    let* hidden := matmul input (linear1_weights_ f) in
    let hidden := add_bias hidden (linear1_bias_ f) in
    let hd := dim (hidden_dim_ f) in
    (* the GELU loop reads and writes [hidden(i, j)] for [j < hidden_dim_] *)
    let* hidden :=
      if (0 <? rows_ hidden)%nat && (cols_ hidden <? hd)%nat
      then Err (OutOfRange "Matrix index out of bounds")
      else Ok (mkMatrix (rows_ hidden) (cols_ hidden)
                 (flat_map (fun i =>
                    let act := gelu_activation (map (fun j => mget hidden i j) (seq 0 hd)) in
                    map (fun j => if (j <? hd)%nat then nth j act fzero else mget hidden i j)
                      (seq 0 (cols_ hidden)))
                  (seq 0 (rows_ hidden)))) in
    let* output := matmul hidden (linear2_weights_ f) in
    Ok (add_bias output (linear2_bias_ f)).

(** *** [TransformerBlock] *)

Definition layer_norm (model_dim_ : Z) (input : Matrix F) (weight bias : list F)
  : res (Matrix F) :=
  if negb (Z.of_nat (cols_ input) =? size_of_int model_dim_) then
    Err (ModelException "Input dimension mismatch for layer normalization")
  else if negb (Z.of_nat (length weight) =? size_of_int model_dim_)
          || negb (Z.of_nat (length bias) =? size_of_int model_dim_) then
    Err (ModelException "Weight or bias dimension mismatch for layer normalization")
  else
    let c := cols_ input in
    let norm_row i :=
      let xs := map (fun j => mget input i j) (seq 0 c) in
      let mean := fdiv (fold_left fadd xs fzero) (f_of_Z (Z.of_nat c)) in
      let variance := fdiv (fold_left (fun v x => let diff := fsub x mean in
                                                  fadd v (fmul diff diff)) xs fzero)
                           (f_of_Z (Z.of_nat c)) in
      map (fun j => fadd (fmul (fdiv (fsub (mget input i j) mean)
                                     (fsqrt (fadd variance (flit F_EPS))))
                               (nth j weight fzero))
                         (nth j bias fzero)) (seq 0 c) in
    Ok (mkMatrix (rows_ input) c (flat_map norm_row (seq 0 (rows_ input)))).

(** [a(i, j) += b(i, j)] over [a], reading [b] with its bounds check. *)
Definition add_into (a b : Matrix F) : res (Matrix F) :=
  let* d := res_map (fun i =>
              res_map (fun j => let* y := mat_at b i j in Ok (fadd (mget a i j) y))
                (seq 0 (cols_ a))) (seq 0 (rows_ a)) in
  Ok (mkMatrix (rows_ a) (cols_ a) (concat d)).

Definition block_forward (b : TransformerBlock F) (input : Matrix F) (mask : option (Matrix F))
  : res (Matrix F) :=
  if negb (Z.of_nat (cols_ input) =? size_of_int (block_model_dim_ b)) then
    Err (ModelException ("Input dimension mismatch for transformer block: expected " ++
           to_string (block_model_dim_ b) ++ ", got " ++
           to_string (Z.of_nat (cols_ input)))%string)
  else
    let* normalized_input := layer_norm (block_model_dim_ b) input
                               (layer_norm1_weight_ b) (layer_norm1_bias_ b) in
    let* attention_output := mha_forward (attention_ b) normalized_input mask in
    let* residual1 := add_into input attention_output in
    let* normalized_residual := layer_norm (block_model_dim_ b) residual1
                                  (layer_norm2_weight_ b) (layer_norm2_bias_ b) in
    let* ffn_output := ffn_forward (ffn_ b) normalized_residual in
    add_into residual1 ffn_output.

Fixpoint blocks_forward (bs : list (TransformerBlock F)) (h : Matrix F) (mask : Matrix F)
  : res (Matrix F) :=
  match bs with
  | [] => Ok h
  | b :: bs' => let* h' := block_forward b h (Some mask) in blocks_forward bs' h' mask
  end.

(** *** [TinyLlamaModel::forward] *)

(** [embeddings(i, j) += embedding_weights_(token_id, j)], then
    [+= position_embeddings_(i, j)], for one position. *)
Definition embed_row (m : TinyLlamaModel F) (i : nat) (token_id : Z) : res (list F) :=
  let c := config_ m in
  if (token_id <? 0) || (token_id >=? vocab_size c) then
    Err (ModelException "Token ID out of range")
  else
    let* tok := res_map (fun j => mat_at (embedding_weights_ m) (Z.to_nat token_id) j)
                  (seq 0 (dim (model_dim c))) in
    let* pos := res_map (fun j => mat_at (position_embeddings_ m) i j)
                  (seq 0 (dim (model_dim c))) in
    Ok (map (fun p => fadd (fadd fzero (fst p)) (snd p)) (combine tok pos)).

Definition forward (m : TinyLlamaModel F) (input_tokens : list Z) : res (list F) :=
  if negb (is_initialized m) then Err (ModelException "Model is not fully initialized")
  else match input_tokens with
  | [] => Err (ModelException "Empty input tokens")
  | _ =>
    let c := config_ m in
    let seq_len := length input_tokens in
    if (size_of_int (max_sequence_length c) <? Z.of_nat seq_len) then
      Err (ModelException "Input sequence exceeds maximum length")
    else
      let* rows := res_map (fun p => embed_row m (fst p) (snd p))
                     (combine (seq 0 seq_len) input_tokens) in
      let embeddings := mkMatrix seq_len (dim (model_dim c)) (concat rows) in
      let attention_mask := create_attention_mask seq_len in
      let* hidden_states := blocks_forward (transformer_blocks_ m) embeddings attention_mask in
      let* logits := matmul hidden_states (output_projection_ m) in
      res_map (fun i => mat_at logits (seq_len - 1) i) (seq 0 (dim (vocab_size c)))
  end.

(** *** Sampling *)

(** [TinyLlamaModel::softmax]; [std::max_element] keeps the first
    maximum ([*largest < *it] to move on). *)
Definition softmax (m : TinyLlamaModel F) (logits : list F) (temperature : F) : list F :=
  match logits with
  | [] => []
  | l0 :: rest =>
      let temp := if flt fzero temperature then temperature else temperature_ m in
      let max_val := fold_left fmax rest l0 in
      let exp_values := map (fun l => fexp (fdiv (fsub l max_val) temp)) logits in
      let sum_exp := fold_left fadd exp_values fzero in
      map (fun e => fdiv e sum_exp) exp_values
  end.

(** The position [std::max_element] returns, from the running best. *)
Fixpoint max_element_from (k best : nat) (best_val : F) (l : list F) : nat :=
  match l with
  | [] => best
  | x :: l' => if flt best_val x then max_element_from (S k) k x l'
               else max_element_from (S k) best best_val l'
  end.

Definition sample_token (probabilities : list F) : res Z :=
  match probabilities with
  | [] => Err (ModelException "Empty probability distribution")
  | p0 :: rest => Ok (Z.of_nat (max_element_from 1 0 p0 rest))
  end.

(** *** [TinyLlamaModel::generate_text] *)

Definition tokenize (m : TinyLlamaModel F) (text : string) : res (list Z) :=
  match tokenizer_ m with
  | None => Err (TokenizerException "Tokenizer not initialized")
  | Some t => Ok (encode t text)
  end.

Definition detokenize (m : TinyLlamaModel F) (tokens : list Z) : res string :=
  match tokenizer_ m with
  | None => Err (TokenizerException "Tokenizer not initialized")
  | Some t => Ok (decode t tokens)
  end.

(** The token loop, [i] counting down the iterations left. *)
Fixpoint generate_loop (m : TinyLlamaModel F) (temperature : F) (i : nat) (tokens : list Z)
  : res (list Z) :=
  match i with
  | O => Ok tokens
  | S i' =>
      if (size_of_int (max_sequence_length (config_ m)) <=? Z.of_nat (length tokens)) then
        Ok tokens
      else
        let* logits := forward m tokens in
        let temp := if flt fzero temperature then temperature else temperature_ m in
        let probs := softmax m logits temp in
        let* next_token := sample_token probs in
        let tokens := tokens ++ [next_token] in
        if next_token =? 2 then Ok tokens   (* Mock EOS token for testing *)
        else generate_loop m temperature i' tokens
  end.

Definition generate_text (m : TinyLlamaModel F) (prompt : string) (max_tokens : Z)
    (temperature : F) : res string :=
  if negb (is_initialized m) then Err (ModelException "Model is not fully initialized")
  else if max_tokens <=? 0 then Err (ModelException "max_tokens must be positive")
  else
    let tokens := match tokenize m prompt with
                  | Ok t => t
                  | Err _ => [1; 2; 3]   (* Mock tokens for testing *)
                  end in
    let max_seq := size_of_int (max_sequence_length (config_ m)) in
    let tokens := if max_seq <=? Z.of_nat (length tokens)
                  then vec_resize 0 (Z.to_nat (size_of_int (max_sequence_length (config_ m) - 1))) tokens
                  else tokens in
    let prompt_length := length tokens in
    let* tokens := generate_loop m temperature (Z.to_nat max_tokens) tokens in
    let generated :=
      if (prompt_length <? length tokens)%nat then detokenize m (skipn prompt_length tokens)
      else Ok ""%string in
    match generated with
    | Ok generated_part => Ok (prompt ++ generated_part)%string
    | Err _ => Ok (prompt ++ " in a land far away...")%string
    end.
End Forward.

(* ================================================================= *)
(** ** The weight file (TinyLlamaModel::load_model_weights, save_model_weights) *)

Definition EXPECTED_MAGIC : Z := 1414286413.  (* 0x544C4C4D, "TLLM" *)
Definition SUPPORTED_VERSION : Z := 1.

(** [file.read] of a [uint32_t], an [int], a [size_t]. *)
Definition read_u32 (s : istream) : res (Z * istream) :=
  match read_bytes INT_BYTES s with
  | Some (bs, s') => Ok (le_value bs, s')
  | None => Err ShortRead
  end.

Definition read_int (s : istream) : res (Z * istream) :=
  let* '(u, s') := read_u32 s in Ok (int_of_u32 u, s').

Definition read_size (s : istream) : res (Z * istream) :=
  match read_bytes SIZE_T_BYTES s with
  | Some (bs, s') => Ok (le_value bs, s')
  | None => Err ShortRead
  end.

(** [f(v)] on the [k]-th element of a list, [transformer_blocks_[k]]. *)
Fixpoint list_update {T} (k : nat) (f : T -> T) (l : list T) : list T :=
  match l, k with
  | [], _ => []
  | x :: l', O => f x :: l'
  | x :: l', S k' => x :: list_update k' f l'
  end.

Section WeightFile.
Context {F : Type} `{FloatLit F} `{FloatBytes F}.

(** [file.read(data, n * sizeof(float))] into [n] floats. *)
Definition read_floats (n : Z) (s : istream) : res (list F * istream) :=
  let k := Z.to_nat (n mod size_t_modulus) in
  match read_bytes (k * INT_BYTES) s with
  | Some (bs, s') => Ok (parse_floats k bs, s')
  | None => Err ShortRead
  end.

(** [Matrix<float> w(rows, cols)] read in full from the file. *)
Definition read_matrix (r c : Z) (s : istream) : res (Matrix F * istream) :=
  let* '(d, s') := read_floats (r * c) s in Ok (mkMatrix (Z.to_nat r) (Z.to_nat c) d, s').

Definition set_attention (q k v o : Matrix F) (b : TransformerBlock F) : TransformerBlock F :=
  let a := attention_ b in
  mkBlock (block_model_dim_ b) (mkMHA (num_heads_ a) (mha_model_dim_ a) (head_dim_ a) q k v o)
    (ffn_ b) (layer_norm1_weight_ b) (layer_norm1_bias_ b)
    (layer_norm2_weight_ b) (layer_norm2_bias_ b).

Definition set_ffn (w1 : Matrix F) (b1 : list F) (w2 : Matrix F) (b2 : list F)
    (b : TransformerBlock F) : TransformerBlock F :=
  let f := ffn_ b in
  mkBlock (block_model_dim_ b) (attention_ b) (mkFFN (ffn_model_dim_ f) (hidden_dim_ f) w1 b1 w2 b2)
    (layer_norm1_weight_ b) (layer_norm1_bias_ b)
    (layer_norm2_weight_ b) (layer_norm2_bias_ b).

Definition set_layer_norm (w1 b1 w2 b2 : list F) (b : TransformerBlock F) : TransformerBlock F :=
  mkBlock (block_model_dim_ b) (attention_ b) (ffn_ b) w1 b1 w2 b2.

Definition with_blocks (m : TinyLlamaModel F) (bs : list (TransformerBlock F)) : TinyLlamaModel F :=
  mkModel (tokenizer_ m) (embedding_weights_ m) (position_embeddings_ m) bs
    (output_projection_ m) (config_ m) (temperature_ m).

Definition update_layer (m : TinyLlamaModel F) (layer : Z)
    (f : TransformerBlock F -> TransformerBlock F) : TinyLlamaModel F :=
  with_blocks m (list_update (Z.to_nat layer) f (transformer_blocks_ m)).

Definition check_layer_index (c : ModelConfig) (layer_index : Z) : res unit :=
  if (layer_index <? 0) || (layer_index >=? num_layers c) then
    Err (ModelException ("Invalid layer index: " ++ to_string layer_index)%string)
  else Ok tt.

(** [size_t] dimensions read from the file against [int]s of the config. *)
Definition mismatch2 (r c er ec : Z) : bool :=
  negb (r =? size_of_int er) || negb (c =? size_of_int ec).

Definition dims_msg (what : string) (layer_index er ec r c : Z) : exn :=
  FileIOException (what ++ " weights dimension mismatch for layer " ++ to_string layer_index ++
    ". Expected: [" ++ to_string er ++ ", " ++ to_string ec ++ "], got: [" ++
    to_string r ++ ", " ++ to_string c ++ "]")%string.

Definition size_msg (what : string) (layer_index e n : Z) : exn :=
  FileIOException (what ++ " dimension mismatch for layer " ++ to_string layer_index ++
    ". Expected: " ++ to_string e ++ ", got: " ++ to_string n)%string.

(** One [rows | cols | data] tensor of a layer, checked against
    [er x ec]. *)
Definition read_layer_matrix (what : string) (layer_index er ec : Z) (s : istream)
  : res (Matrix F * istream) :=
  let* '(r, s) := read_size s in
  let* '(c, s) := read_size s in
  if mismatch2 r c er ec then Err (dims_msg what layer_index er ec r c)
  else read_matrix r c s.

(** One [size | data] vector of a layer, checked against [e]. *)
Definition read_layer_vector (what : string) (layer_index e : Z) (s : istream)
  : res (list F * istream) :=
  let* '(n, s) := read_size s in
  if negb (n =? size_of_int e) then Err (size_msg what layer_index e n)
  else read_floats n s.

Definition load_attention_weights (m : TinyLlamaModel F) (s : istream) (layer_index : Z)
  : res (TinyLlamaModel F * istream) :=
  let c := config_ m in
  let* _ := check_layer_index c layer_index in
  let md := model_dim c in
  let* '(q, s) := read_layer_matrix "Query" layer_index md md s in
  let* '(k, s) := read_layer_matrix "Key" layer_index md md s in
  let* '(v, s) := read_layer_matrix "Value" layer_index md md s in
  let* '(o, s) := read_layer_matrix "Output" layer_index md md s in
  Ok (update_layer m layer_index (set_attention q k v o), s).

Definition load_ffn_weights (m : TinyLlamaModel F) (s : istream) (layer_index : Z)
  : res (TinyLlamaModel F * istream) :=
  let c := config_ m in
  let* _ := check_layer_index c layer_index in
  let md := model_dim c in
  let hd := ffn_hidden_dim c in
  let* '(w1, s) := read_layer_matrix "Linear1" layer_index md hd s in
  let* '(b1, s) := read_layer_vector "Linear1 bias" layer_index hd s in
  let* '(w2, s) := read_layer_matrix "Linear2" layer_index hd md s in
  let* '(b2, s) := read_layer_vector "Linear2 bias" layer_index md s in
  Ok (update_layer m layer_index (set_ffn w1 b1 w2 b2), s).

Definition load_layer_norm_weights (m : TinyLlamaModel F) (s : istream) (layer_index : Z)
  : res (TinyLlamaModel F * istream) :=
  let c := config_ m in
  let* _ := check_layer_index c layer_index in
  let md := model_dim c in
  let* '(w1, s) := read_layer_vector "Layer norm 1 weights" layer_index md s in
  let* '(b1, s) := read_layer_vector "Layer norm 1 bias" layer_index md s in
  let* '(w2, s) := read_layer_vector "Layer norm 2 weights" layer_index md s in
  let* '(b2, s) := read_layer_vector "Layer norm 2 bias" layer_index md s in
  Ok (update_layer m layer_index (set_layer_norm w1 b1 w2 b2), s).

Definition config_msg (what : string) (expected got : Z) : exn :=
  FileIOException (what ++ " mismatch. Expected: " ++ to_string expected ++
                   ", got: " ++ to_string got)%string.

Definition matrix_msg (what : string) (er ec r c : Z) : exn :=
  FileIOException (what ++ " dimension mismatch. Expected: [" ++ to_string er ++ ", " ++
    to_string ec ++ "], got: [" ++ to_string r ++ ", " ++ to_string c ++ "]")%string.

(** The body of the [try] block. *)
Definition load_body (m : TinyLlamaModel F) (s : istream) : res (TinyLlamaModel F) :=
  let* '(magic_number, s) := read_u32 s in
  if negb (magic_number =? EXPECTED_MAGIC) then
    Err (FileIOException ("Invalid magic number in weights file. Expected: 0x544C4C4D, got: 0x" ++
                          to_string magic_number)%string)
  else
  let* '(version, s) := read_u32 s in
  if negb (version =? SUPPORTED_VERSION) then
    Err (FileIOException ("Unsupported weights file version. Expected: " ++
           to_string SUPPORTED_VERSION ++ ", got: " ++ to_string version)%string)
  else
  let* '(f_model_dim, s) := read_int s in
  let* '(f_num_layers, s) := read_int s in
  let* '(f_num_heads, s) := read_int s in
  let* '(f_ffn_hidden_dim, s) := read_int s in
  let* '(f_max_sequence_length, s) := read_int s in
  let* '(f_vocab_size, s) := read_int s in
  let* '(f_dropout_rate, s) := read_u32 s in
  let file_config := mkConfig f_model_dim f_num_layers f_num_heads f_ffn_hidden_dim
                       f_max_sequence_length f_vocab_size f_dropout_rate in
  let c := config_ m in
  if negb (model_dim file_config =? model_dim c) then
    Err (config_msg "Model dimension" (model_dim c) (model_dim file_config))
  else if negb (num_layers file_config =? num_layers c) then
    Err (config_msg "Number of layers" (num_layers c) (num_layers file_config))
  else if negb (num_heads file_config =? num_heads c) then
    Err (config_msg "Number of heads" (num_heads c) (num_heads file_config))
  else if negb (vocab_size file_config =? vocab_size c) then
    Err (config_msg "Vocabulary size" (vocab_size c) (vocab_size file_config))
  else
  let* '(er, s) := read_size s in
  let* '(ec, s) := read_size s in
  if mismatch2 er ec (vocab_size c) (model_dim c) then
    Err (matrix_msg "Embedding weights" (vocab_size c) (model_dim c) er ec)
  else
  let emb := mresize (Z.to_nat er) (Z.to_nat ec) (embedding_weights_ m) in
  let* '(d, s) := read_floats (Z.of_nat (length (data_ emb))) s in
  let m := mkModel (tokenizer_ m) (mkMatrix (rows_ emb) (cols_ emb) d) (position_embeddings_ m)
             (transformer_blocks_ m) (output_projection_ m) (config_ m) (temperature_ m) in
  let* '(pr, s) := read_size s in
  let* '(pc, s) := read_size s in
  if mismatch2 pr pc (max_sequence_length c) (model_dim c) then
    Err (matrix_msg "Position embeddings" (max_sequence_length c) (model_dim c) pr pc)
  else
  let pos := mresize (Z.to_nat pr) (Z.to_nat pc) (position_embeddings_ m) in
  let* '(d, s) := read_floats (Z.of_nat (length (data_ pos))) s in
  let m := mkModel (tokenizer_ m) (embedding_weights_ m) (mkMatrix (rows_ pos) (cols_ pos) d)
             (transformer_blocks_ m) (output_projection_ m) (config_ m) (temperature_ m) in
  let* '(m, s) := for_loop (Z.to_nat (num_layers c)) 0 (fun layer '(m, s) =>
                    let l := Z.of_nat layer in
                    let* '(m, s) := load_attention_weights m s l in
                    let* '(m, s) := load_ffn_weights m s l in
                    load_layer_norm_weights m s l) (m, s) in
  let* '(orows, s) := read_size s in
  let* '(ocols, s) := read_size s in
  if mismatch2 orows ocols (model_dim c) (vocab_size c) then
    Err (matrix_msg "Output projection" (model_dim c) (vocab_size c) orows ocols)
  else
  let out := mresize (Z.to_nat orows) (Z.to_nat ocols) (output_projection_ m) in
  let* '(d, s) := read_floats (Z.of_nat (length (data_ out))) s in
  let m := mkModel (tokenizer_ m) (embedding_weights_ m) (position_embeddings_ m)
             (transformer_blocks_ m) (mkMatrix (rows_ out) (cols_ out) d)
             (config_ m) (temperature_ m) in
  match s with
  | [] => Ok m
  | _ :: _ => Err (FileIOException "Unexpected data at end of weights file")
  end.

(** The whole function, from the contents of the file ([None]: it cannot
    be opened), with its [catch] clauses. On failure the members already
    assigned stay assigned in the C++ object; only the exception is kept
    here. *)
Definition load_model_weights (weights_file : string) (file : option (list byte))
    (m : TinyLlamaModel F) : res (TinyLlamaModel F) :=
  match file with
  | None => Err (FileIOException ("Cannot open model weights file: " ++ weights_file)%string)
  | Some s =>
      match load_body m s with
      | Ok m' => Ok m'
      | Err (FileIOException msg) => Err (FileIOException msg)
      | Err ShortRead => Err ShortRead
      | Err (ModelException msg) | Err (ConfigurationException msg)
      | Err (TokenizerException msg) | Err (InvalidArgument msg) | Err (OutOfRange msg) =>
          Err (FileIOException ("Error loading model weights: " ++ msg)%string)
      end
  end.

(** [file.write] of a [size_t], an [int], a [uint32_t]. *)
Definition write_size (z : Z) : list byte := le_bytes SIZE_T_BYTES z.
Definition write_int (z : Z) : list byte := le_bytes INT_BYTES z.

(** [rows | cols | data] from a matrix of the model. *)
Definition write_matrix (w : Matrix F) : list byte :=
  write_size (Z.of_nat (rows_ w)) ++ write_size (Z.of_nat (cols_ w)) ++ float_bytes (data_ w).

(** [rows | cols | std::vector<float>(rows * cols, x)]. *)
Definition write_dummy_matrix (r c : Z) (x : F) : list byte :=
  write_size r ++ write_size c ++
  float_bytes (repeat x (Z.to_nat ((r * c) mod size_t_modulus))).

Definition write_dummy_vector (n : Z) (x : F) : list byte :=
  write_size n ++ float_bytes (repeat x (Z.to_nat n)).

(** The tensors written for one layer ("simplified - using dummy data"). *)
Definition write_dummy_layer (c : ModelConfig) : list byte :=
  let md := size_of_int (model_dim c) in
  let hd := size_of_int (ffn_hidden_dim c) in
  flat_map (fun _ => write_dummy_matrix md md (flit F_TENTH)) (seq 0 4) ++
  write_dummy_matrix md hd (flit F_TENTH) ++
  write_dummy_vector hd (flit F_ZERO) ++
  write_dummy_matrix hd md (flit F_TENTH) ++
  write_dummy_vector md (flit F_ZERO) ++
  write_dummy_vector md (flit F_ONE) ++
  write_dummy_vector md (flit F_ZERO) ++
  write_dummy_vector md (flit F_ONE) ++
  write_dummy_vector md (flit F_ZERO).

(** [save_model_weights]: the bytes the file holds afterwards. *)
Definition save_model_weights (m : TinyLlamaModel F) : list byte :=
  let c := config_ m in
  write_int EXPECTED_MAGIC ++ write_int SUPPORTED_VERSION ++
  write_int (model_dim c) ++ write_int (num_layers c) ++ write_int (num_heads c) ++
  write_int (ffn_hidden_dim c) ++ write_int (max_sequence_length c) ++
  write_int (vocab_size c) ++ write_int (dropout_rate c) ++
  write_matrix (embedding_weights_ m) ++
  write_matrix (position_embeddings_ m) ++
  flat_map (fun _ => write_dummy_layer c) (seq 0 (Z.to_nat (num_layers c))) ++
  write_matrix (output_projection_ m).
End WeightFile.

(* ================================================================= *)
(** ** The facade (src/tiny_llama.cpp) *)

(** [TinyLlama]: the constructor always allocates [model_]. The
    exceptions raised by [TINY_LLAMA_THROW] also carry the parameter name,
    file and line, which are not kept. *)
Record TinyLlama (F : Type) : Type := mkTinyLlama {
  model_ : TinyLlamaModel F;
  is_initialized_ : bool
}.
Arguments mkTinyLlama {F}. Arguments model_ {F}. Arguments is_initialized_ {F}.

Definition MAX_STRING_LENGTH : Z := 1000000.

Fixpoint has_nul (s : string) : bool :=
  match s with
  | EmptyString => false
  | String c s' => Ascii.eqb c Ascii.zero || has_nul s'
  end.

Definition validate_string_input (input param_name : string) (allow_empty : bool) : res unit :=
  if negb allow_empty && String.eqb input "" then
    Err (ConfigurationException (param_name ++ " cannot be empty")%string)
  else if has_nul input then
    Err (ConfigurationException (param_name ++ " contains null characters")%string)
  else if MAX_STRING_LENGTH <? Z.of_nat (String.length input) then
    Err (ConfigurationException (param_name ++ " is too long (max 1000000 characters)")%string)
  else Ok tt.

Definition validate_positive_integer (value : Z) (param_name : string) (min_value : Z) : res unit :=
  if value <? min_value then
    Err (ConfigurationException (param_name ++ " must be at least " ++ to_string min_value ++
                                 " (got " ++ to_string value ++ ")")%string)
  else if 1000000 <? value then
    Err (ConfigurationException (param_name ++ " is too large (max 1000000, got " ++
                                 to_string value ++ ")")%string)
  else Ok tt.

Definition MAX_GENERATION_TOKENS : Z := 10000.

Section Facade.
Context {F : Type} `{FloatLit F} `{FloatArith F}.

(** [TinyLlama::generate]; [generate_text] takes its default
    temperature [1.0f]. *)
Definition generate (t : TinyLlama F) (prompt : string) (max_tokens : Z) : res string :=
  if negb (is_initialized_ t) then
    Err (ModelException "Model not initialized. Call initialize() first.")
  else
  let* _ := validate_string_input prompt "prompt" false in
  let* _ := validate_positive_integer max_tokens "max_tokens" 1 in
  if MAX_GENERATION_TOKENS <? max_tokens then
    Err (ConfigurationException ("max_tokens is too large (max " ++ to_string MAX_GENERATION_TOKENS ++
                                 ", got " ++ to_string max_tokens ++ ")")%string)
  else
  let model_max_tokens := max_sequence_length (config_ (model_ t)) in
  if model_max_tokens <? max_tokens then
    Err (ConfigurationException
           ("max_tokens exceeds model's configured maximum sequence length (model max: " ++
            to_string model_max_tokens ++ ", requested: " ++ to_string max_tokens ++ ")")%string)
  else
  match generate_text (model_ t) prompt max_tokens (flit F_ONE) with
  | Ok s => Ok s
  | Err (InvalidArgument msg) | Err (OutOfRange msg) =>
      Err (ModelException ("Text generation failed: " ++ msg)%string)
  | Err e => Err e
  end.
End Facade.

(* ================================================================= *)
(** ** Inputs of the properties *)

(** A small configuration, the one of tests/test_model.cpp. *)
Definition test_config : ModelConfig := mkConfig 8 2 2 16 10 100 F_TENTH.

(** A model for the witnesses: empty vocabulary in the configuration,
    no layers. *)
Definition empty_model : TinyLlamaModel xR :=
  mkModel (Some BPETokenizer_new) Matrix_empty Matrix_empty [] Matrix_empty
    (mkConfig 1 0 1 1 1 0 F_TENTH) (Fin 1).

Definition f32_in_range (x : f32) : Prop := (0 <= f32_bits x < 2 ^ 32)%Z.

Definition sample_matrix : Matrix f32 := mkMatrix 2 1 [F32 0; F32 F_ONE].

(** [std::max] on finite values: [(a < b) ? b : a]. *)
Definition rmax (a b : R) : R := if Rlt_dec a b then b else a.

(** [std::exp] of a non-positive finite value, with the underflow. *)
Definition exp_flush (x : R) : R := if Rle_dec (exp x) exp_underflow then 0%R else exp x.

(** Modelled from the spec: the softmax of spec.md, where each logit is
    divided by the temperature before the max-subtraction, the
    exponentials and the normalisation. *)
Definition softmax_spec {F} `{FloatLit F} `{FloatArith F} (logits : list F) (temp : F) : list F :=
  match map (fun l => fdiv l temp) logits with
  | [] => []
  | s0 :: rest =>
      let max_val := fold_left fmax rest s0 in
      let exp_values := map (fun s => fexp (fsub s max_val)) (s0 :: rest) in
      let sum_exp := fold_left fadd exp_values fzero in
      map (fun e => fdiv e sum_exp) exp_values
  end.

(** A one-dimensional model with no layers over the fresh tokenizer's
    four tokens: every embedding is [1], every position embedding [0], so
    the logits are the output projection [w]. *)
Definition probe_model (w : list xR) : TinyLlamaModel xR :=
  mkModel (Some BPETokenizer_new) (mkMatrix 4 1 [Fin 1; Fin 1; Fin 1; Fin 1])
    (mkMatrix 10 1 (repeat (Fin 0) 10)) [] (mkMatrix 1 4 w)
    (mkConfig 1 0 1 1 10 4 F_TENTH) (Fin 1).

(** Its logits peak at token 3, the tokenizer's [<eos>]. *)
Definition eos_model : TinyLlamaModel xR := probe_model [Fin 0; Fin 0; Fin 0; Fin 1].

(** Its logits peak at token 2, the tokenizer's [<bos>]. *)
Definition bos_model : TinyLlamaModel xR := probe_model [Fin 0; Fin 0; Fin 1; Fin 0].

(** A small configuration with one layer, and a model of it over [f32]
    (zero weights, the layer's norms at one). *)
Definition small_config : ModelConfig := mkConfig 2 1 1 2 2 3 F_TENTH.

Definition small_block : TransformerBlock f32 :=
  mkBlock 2 (mkMHA 1 2 2 (Matrix_new 2 2) (Matrix_new 2 2) (Matrix_new 2 2) (Matrix_new 2 2))
    (mkFFN 2 2 (Matrix_new 2 2) (repeat fzero 2) (Matrix_new 2 2) (repeat fzero 2))
    (repeat (flit F_ONE) 2) (repeat fzero 2) (repeat (flit F_ONE) 2) (repeat fzero 2).

Definition small_model : TinyLlamaModel f32 :=
  mkModel (Some BPETokenizer_new) (Matrix_new 3 2) (Matrix_new 2 2) [small_block]
    (Matrix_new 2 3) small_config (flit F_ONE).

(** A weights file with its [ffn_hidden_dim], [max_sequence_length] and
    [dropout_rate] header fields (bytes 20-27 and 32-35) overwritten. *)
Definition patch_header (ffn max_seq dropout : Z) (file : list byte) : list byte :=
  firstn 20 file ++ le_bytes 4 ffn ++ le_bytes 4 max_seq ++ firstn 4 (skipn 28 file) ++
  le_bytes 4 dropout ++ skipn 36 file.

(** Whether a call returns normally. *)
Definition is_Ok {A} (r : res A) : bool := match r with Ok _ => true | Err _ => false end.

(** The scaled score [scores(i, j)] of [scaled_dot_product_attention]:
    row [i] of [Q] times row [j] of [K] (the column [j] of [K^T]), times
    [1 / sqrt(d_k)]. *)
Definition attention_score {F} `{FloatLit F} `{FloatArith F} (Q K : Matrix F) (i j : nat) : F :=
  fmul (fold_left (fun s k => fadd s (fmul (mget Q i k) (mget K j k))) (seq 0 (cols_ Q)) fzero)
    (fdiv (flit F_ONE) (fsqrt (f_of_Z (Z.of_nat (cols_ Q))))).

(** Row [i] of the attention weights: the softmax of the masked scores
    of row [i]. *)
Definition attention_weights {F} `{FloatLit F} `{FloatArith F} (Q K : Matrix F)
    (mask : option (Matrix F)) (i : nat) : list F :=
  softmax_row (map (fun j => masked_score mask i j (attention_score Q K i j)) (seq 0 (rows_ Q))).

(** Row [i] of a returned matrix. *)
Definition output_row {F} `{FloatLit F} (r : res (Matrix F)) (i : nat) : option (list F) :=
  match r with
  | Ok o => Some (map (fun c => mget o i c) (seq 0 (cols_ o)))
  | Err _ => None
  end.

Definition is_fin (x : xR) : bool := match x with Fin _ => true | _ => false end.

Definition fin_val (x : xR) : R := match x with Fin r => r | _ => 0%R end.

(** [FLT_MAX], the largest finite binary32 value. *)
Definition F_FLT_MAX : Z := 2139095039. (* 0x7F7FFFFF *)

(** The empty model on the binary32 model, with the stored temperature [1]. *)
Definition empty_model32 : TinyLlamaModel b32 :=
  mkModel (Some BPETokenizer_new) Matrix_empty Matrix_empty [] Matrix_empty
    (mkConfig 1 0 1 1 1 0 F_TENTH) (B32 (Fin 1)).

(** Two positions; the query of position 0 is [-1e9f], the keys are [1],
    and the values differ only at position 1. *)
Definition sentinel_Q32 : Matrix b32 := mkMatrix 2 1 [flit F_NEG_1E9; B32 (Fin 0)].
Definition sentinel_K32 : Matrix b32 := mkMatrix 2 1 [B32 (Fin 1); B32 (Fin 1)].
Definition sentinel_V1_32 : Matrix b32 := mkMatrix 2 1 [B32 (Fin 0); B32 (Fin 0)].
Definition sentinel_V2_32 : Matrix b32 := mkMatrix 2 1 [B32 (Fin 0); B32 (Fin 2)].

(** The [int] fields of a configuration that describe sizes, in
    [0, 2^31). *)
Definition config_in_range (c : ModelConfig) : Prop :=
  Forall (fun z => 0 <= z < 2 ^ 31)
    [model_dim c; num_layers c; num_heads c; ffn_hidden_dim c; max_sequence_length c;
     vocab_size c].

(** A matrix of [r x c] 32-bit elements. *)
Definition matrix_ok (w : Matrix f32) (r c : Z) : Prop :=
  rows_ w = Z.to_nat r /\ cols_ w = Z.to_nat c /\
  length (data_ w) = (rows_ w * cols_ w)%nat /\ Forall f32_in_range (data_ w).

(** An [r x c] matrix filled with [x]. *)
Definition dummy_matrix (r c : Z) (x : f32) : Matrix f32 :=
  mkMatrix (Z.to_nat r) (Z.to_nat c) (repeat x (Z.to_nat r * Z.to_nat c)).

(** A layer as it reads back from the dummy data of
    [save_model_weights]: [0.1f] in the attention and FFN matrices, [0]
    in the biases, [1] in the layer-norm weights. *)
Definition dummy_block (c : ModelConfig) (b : TransformerBlock f32) : TransformerBlock f32 :=
  let md := model_dim c in
  let hd := ffn_hidden_dim c in
  set_layer_norm (repeat (flit F_ONE) (Z.to_nat md)) (repeat (flit F_ZERO) (Z.to_nat md))
    (repeat (flit F_ONE) (Z.to_nat md)) (repeat (flit F_ZERO) (Z.to_nat md))
    (set_ffn (dummy_matrix md hd (flit F_TENTH)) (repeat (flit F_ZERO) (Z.to_nat hd))
       (dummy_matrix hd md (flit F_TENTH)) (repeat (flit F_ZERO) (Z.to_nat md))
       (set_attention (dummy_matrix md md (flit F_TENTH)) (dummy_matrix md md (flit F_TENTH))
          (dummy_matrix md md (flit F_TENTH)) (dummy_matrix md md (flit F_TENTH)) b)).

(** [f] on the first [n] elements of a list. *)
Fixpoint apply_first {T} (n : nat) (f : T -> T) (l : list T) : list T :=
  match n, l with
  | O, _ => l
  | _, [] => []
  | S n', x :: l' => f x :: apply_first n' f l'
  end.

(** Tactics for the shapes and bit ranges of concrete weights. *)
Ltac f32_lit_range := unfold f32_in_range, F_TENTH, F_ZERO, F_ONE; cbn; lia.

Ltac mat_ok_tac :=
  unfold matrix_ok; cbn; split; [reflexivity|split; [reflexivity|split; [reflexivity|]]];
  repeat (apply Forall_cons; [vm_compute; split; [intros ?; discriminate | reflexivity]|]);
  apply Forall_nil.
(* ================================================================= *)
(** ** More of the tokenizer (src/tokenizer.cpp) *)

(** [BPETokenizer::encode_to_strings]: no empty-text shortcut and no
    skipping of empty words, unlike [encode]. *)
Definition encode_to_strings (t : BPETokenizer) (text : string) : list string :=
  flat_map (bpe_encode t) (split_to_words (preprocess_text text)).

(** [Vocabulary::has_token]. *)
Definition has_token (v : Vocabulary) (token : string) : bool :=
  match map_find token (token_to_id_ v) with Some _ => true | None => false end.

(** A character-wise map over a string. *)
Fixpoint string_map (f : ascii -> ascii) (s : string) : string :=
  match s with
  | EmptyString => EmptyString
  | String c s' => String (f c) (string_map f s')
  end.

(** Every [std::isspace] character as the blank [split_to_words] emits. *)
Definition blank_spaces (s : string) : string :=
  string_map (fun c => if is_space c then " "%char else c) s.

(** A vocabulary whose map and id list agree: every token the map knows
    sits at its id in [id_to_token_]. *)
Definition vocab_wf (v : Vocabulary) : Prop :=
  forall k id, map_find k (token_to_id_ v) = Some id ->
  0 <= id < Z.of_nat (List.length (id_to_token_ v)) /\
  nth (Z.to_nat id) (id_to_token_ v) ""%string = k.

(** The merge key of a pair, as [bpe_ranks_] is keyed. *)
Definition pair_key (p : string * string) : string := (fst p ++ " " ++ snd p)%string.

(** A character [preprocess_text] removes: an upper-case ASCII letter, a
    tab, a line feed or a carriage return. *)
Definition preprocess_removed (c : ascii) : bool :=
  let n := nat_of_ascii c in
  ((65 <=? n)%nat && (n <=? 90)%nat) || (n =? 9)%nat || (n =? 10)%nat || (n =? 13)%nat.

(** Whether every character of a string satisfies [p]. *)
Fixpoint string_forallb (p : ascii -> bool) (s : string) : bool :=
  match s with
  | EmptyString => true
  | String c s' => p c && string_forallb p s'
  end.

(* ================================================================= *)
(** ** More of Matrix<T> and Tensor<T> (src/matrix.cpp) *)

Section MatrixMore.
Context {F : Type} `{FloatLit F} `{FloatArith F}.

(** [operator+]: [result(rows_, cols_)], then
    [result.data_[i] = data_[i] + other.data_[i]] for [i < data_.size()]
    (the accesses are not checked; on matrices whose storage holds
    [rows_ * cols_] elements they are in range). *)
Definition madd (a b : Matrix F) : res (Matrix F) :=
  if negb ((rows_ a =? rows_ b)%nat && (cols_ a =? cols_ b)%nat) then
    Err (InvalidArgument "Matrix dimensions must match for addition")
  else
    Ok (mkMatrix (rows_ a) (cols_ a)
          (fold_left (fun d i => list_set i (fadd (nth i (data_ a) fzero) (nth i (data_ b) fzero)) d)
             (seq 0 (length (data_ a))) (data_ (Matrix_new (rows_ a) (cols_ a))))).
End MatrixMore.

(** [Tensor<T>]: [shape_] holds [size_t] values, kept as [Z]. *)
Record Tensor (T : Type) : Type := mkTensor {
  tdata_ : list T;
  shape_ : list Z
}.
Arguments mkTensor {T} tdata_ shape_.
Arguments tdata_ {T} t.
Arguments shape_ {T} t.

(** [total *= dim] in [size_t]. *)
Definition size_t_mul (a b : Z) : Z := (a * b) mod size_t_modulus.

Definition total_of (shape : list Z) : Z := fold_left size_t_mul shape 1.

Section TensorOps.
Context {F : Type} `{FloatLit F}.

(** [Tensor(shape)]. *)
Definition Tensor_new (shape : list Z) : Tensor F :=
  mkTensor (repeat fzero (Z.to_nat (total_of shape))) shape.

Definition total_size (t : Tensor F) : Z := total_of (shape_ t).

(** [Tensor::resize]. *)
Definition tensor_resize (shape : list Z) (t : Tensor F) : Tensor F :=
  mkTensor (vec_resize fzero (Z.to_nat (total_of shape)) (tdata_ t)) shape.

(** The loop of [compute_index], from [i = k - 1] down to [0], where [k]
    is [static_cast<int>(shape_.size())] (no iteration when it is not
    positive). *)
Fixpoint compute_index_loop (shape indices : list Z) (k : nat) (index stride : Z) : res Z :=
  match k with
  | O => Ok index
  | S i =>
      let ix := nth i indices 0 in
      let d := nth i shape 0 in
      if d <=? ix then Err (OutOfRange "Tensor index out of bounds")
      else compute_index_loop shape indices i ((index + size_t_mul ix stride) mod size_t_modulus)
             (size_t_mul stride d)
  end.

Definition compute_index (t : Tensor F) (indices : list Z) : res Z :=
  if negb (length indices =? length (shape_ t))%nat then
    Err (InvalidArgument "Number of indices does not match tensor dimensions")
  else compute_index_loop (shape_ t) indices (Z.to_nat (int_of_size (length (shape_ t)))) 0 1.

(** [Tensor::at]: [data_[index]]. *)
Definition tensor_at (t : Tensor F) (indices : list Z) : res F :=
  let* index := compute_index t indices in Ok (nth (Z.to_nat index) (tdata_ t) fzero).

(** [Matrix(rows, cols, data)]. *)
Definition Matrix_of_data (r c : Z) (data : list F) : res (Matrix F) :=
  if negb (Z.of_nat (length data) =? size_t_mul r c) then
    Err (InvalidArgument "Data size does not match matrix dimensions")
  else Ok (mkMatrix (Z.to_nat r) (Z.to_nat c) data).

(** [Tensor::to_matrix]. *)
Definition to_matrix (t : Tensor F) : res (Matrix F) :=
  match shape_ t with
  | [r; c] => Matrix_of_data r c (tdata_ t)
  | _ => Err (InvalidArgument "Can only convert 2D tensors to matrices")
  end.
End TensorOps.

(** The exact product of a shape. *)
Definition shape_product (shape : list Z) : Z := fold_right Z.mul 1 shape.

(* ================================================================= *)
(** ** More of the model and the facade (src/unnamed/part_009, src/tiny_llama.cpp) *)

(** [TinyLlamaModel::tokenize_to_strings]. *)
Definition tokenize_to_strings {F} (m : TinyLlamaModel F) (text : string) : res (list string) :=
  match tokenizer_ m with
  | None => Err (TokenizerException "Tokenizer not initialized")
  | Some t => Ok (encode_to_strings t text)
  end.

(** The negative-id scan of [validate_token_ids], from index [i] on. *)
Fixpoint check_token_ids_nonneg (param_name : string) (i : nat) (ids : list Z) : res unit :=
  match ids with
  | [] => Ok tt
  | id :: ids' =>
      if id <? 0 then
        Err (ConfigurationException (param_name ++ " contains negative token ID at index " ++
                                     to_string (Z.of_nat i) ++ " (value: " ++ to_string id ++ ")")%string)
      else check_token_ids_nonneg param_name (S i) ids'
  end.

Definition MAX_TOKEN_COUNT : Z := 100000.

(** [validate_token_ids]. *)
Definition validate_token_ids (token_ids : list Z) (param_name : string) : res unit :=
  match token_ids with
  | [] => Ok tt
  | _ =>
      if MAX_TOKEN_COUNT <? Z.of_nat (length token_ids) then
        Err (ConfigurationException (param_name ++ " contains too many tokens (max " ++
                                     to_string MAX_TOKEN_COUNT ++ ", got " ++
                                     to_string (Z.of_nat (length token_ids)) ++ ")")%string)
      else check_token_ids_nonneg param_name 0 token_ids
  end.

Definition not_initialized_msg : string := "Model not initialized. Call initialize() first.".

(** [TinyLlama::tokenize_to_strings]; the model call throws only
    [TinyLlamaException]s, which are rethrown as they are. *)
Definition TinyLlama_tokenize_to_strings {F} (t : TinyLlama F) (text : string) : res (list string) :=
  if negb (is_initialized_ t) then Err (TokenizerException not_initialized_msg)
  else
  let* _ := validate_string_input text "text" true in
  tokenize_to_strings (model_ t) text.

(** [TinyLlama::tokenize_to_ids]. *)
Definition TinyLlama_tokenize_to_ids {F} (t : TinyLlama F) (text : string) : res (list Z) :=
  if negb (is_initialized_ t) then Err (TokenizerException not_initialized_msg)
  else
  let* _ := validate_string_input text "text" true in
  tokenize (model_ t) text.

(** [TinyLlama::detokenize]. *)
Definition TinyLlama_detokenize {F} (t : TinyLlama F) (token_ids : list Z) : res string :=
  if negb (is_initialized_ t) then Err (TokenizerException not_initialized_msg)
  else
  let* _ := validate_token_ids token_ids "token_ids" in
  detokenize (model_ t) token_ids.

(** [TinyLlama::set_max_sequence_length]: validation, then always the
    runtime-change refusal. *)
Definition TinyLlama_set_max_sequence_length {F} (t : TinyLlama F) (max_length : Z) : res unit :=
  let* _ := validate_positive_integer max_length "max_length" 1 in
  if 100000 <? max_length then
    Err (ConfigurationException ("max_length is too large (max 100000, got " ++
                                 to_string max_length ++ ")")%string)
  else
    Err (ConfigurationException ("Max sequence length must be set during model initialization. " ++
                                 "Current implementation does not support runtime changes.")%string).

Definition F_CENTI : Z := 1008981770.     (* 0.01f = 0x3C23D70A *)
Definition F_THOUSAND : Z := 1148846080.  (* 1000.0f = 0x447A0000 *)

(** [validate_positive_float] on [xR], with [std::isfinite] as [is_fin];
    [std::to_string] of a float is not rendered, the messages keep their
    fixed text. *)
Definition validate_positive_float (value : xR) (param_name : string) (min_value : xR) : res unit :=
  if xlt value min_value then
    Err (ConfigurationException (param_name ++ " must be at least ")%string)
  else if negb (is_fin value) then
    Err (ConfigurationException (param_name ++ " must be a finite number")%string)
  else if xlt (flit F_THOUSAND) value then
    Err (ConfigurationException (param_name ++ " is too large (max 1000)")%string)
  else Ok tt.

(** [TinyLlama::set_temperature]; [model_] is never null, the
    constructor allocates it. *)
Definition TinyLlama_set_temperature (t : TinyLlama xR) (temperature : xR) : res (TinyLlama xR) :=
  let* _ := validate_positive_float temperature "temperature" (flit F_CENTI) in
  Ok (mkTinyLlama (set_temperature temperature (model_ t)) (is_initialized_ t)).

(** Inputs of the further properties: a matrix over [xR], a 2 x 3 tensor
    and an initialized facade around [small_model]. *)
Definition xr_matrix : Matrix xR := mkMatrix 2 1 [Fin 0; Fin 1].

Definition sample_tensor : Tensor f32 := Tensor_new [2; 3].

Definition small_facade : TinyLlama f32 := mkTinyLlama small_model true.

(* ================================================================= *)
(** * Properties *)

(** ** Lemmas on the float models *)

Local Open Scope R_scope.

Lemma xR_zero : (fzero : xR) = Fin 0.
Proof. unfold fzero, flit, xR_lit, b32_value. cbn -[IZR powerRZ]. f_equal. ring. Qed.

Lemma xR_one : (flit F_ONE : xR) = Fin 1.
Proof. unfold flit, xR_lit, b32_value. cbn -[IZR powerRZ]. f_equal. simpl. field. Qed.

Lemma xR_sentinel : (flit F_NEG_1E9 : xR) = Fin (-1000000000).
Proof. unfold flit, xR_lit, b32_value. cbn -[IZR powerRZ]. f_equal. simpl. field. Qed.

Lemma xR_neg_inf : (flit F_NEG_INF : xR) = NInf.
Proof. reflexivity. Qed.

Lemma xR_neg_one : (flit F_NEG_ONE : xR) = Fin (-1).
Proof. unfold flit, xR_lit, b32_value. cbn -[IZR powerRZ]. f_equal. simpl. field. Qed.

Local Close Scope R_scope.


(** [BPETokenizer()] has the four special tokens and no other. *)
Lemma vocab_size_fresh_tokenizer : tok_vocab_size BPETokenizer_new = 4%nat.
Proof. reflexivity. Qed.

(** [forward] does not depend on the stored temperature. *)
Lemma forward_set_temperature {F} `{FloatLit F} `{FloatArith F}
    (t : F) (m : TinyLlamaModel F) (toks : list Z) :
  forward (set_temperature t m) toks = forward m toks.
Proof. destruct m. reflexivity. Qed.

Lemma is_initialized_set_temperature {F} (t : F) (m : TinyLlamaModel F) :
  is_initialized (set_temperature t m) = is_initialized m.
Proof. destruct m. reflexivity. Qed.

Lemma softmax_set_temperature {F} `{FloatLit F} `{FloatArith F}
    (t u : F) (m : TinyLlamaModel F) (logits : list F) :
  flt fzero u = true -> softmax (set_temperature t m) logits u = softmax m logits u.
Proof. intros Hu. destruct m, logits; simpl; [reflexivity|]. rewrite Hu. reflexivity. Qed.

Lemma generate_loop_set_temperature {F} `{FloatLit F} `{FloatArith F}
    (t u : F) (m : TinyLlamaModel F) (i : nat) (toks : list Z) :
  flt fzero u = true ->
  generate_loop (set_temperature t m) u i toks = generate_loop m u i toks.
Proof.
  intros Hu. revert toks. induction i as [|i IH]; intros toks; [reflexivity|].
  cbn [generate_loop]. rewrite forward_set_temperature. rewrite Hu.
  change (config_ (set_temperature t m)) with (config_ m).
  destruct (_ <=? _); [reflexivity|].
  destruct (forward m toks) as [logits|e]; [|reflexivity]. cbn [bind].
  rewrite softmax_set_temperature by exact Hu.
  destruct (sample_token _) as [nt|e]; [|reflexivity]. cbn [bind].
  destruct (nt =? 2); [reflexivity|]. apply IH.
Qed.

Lemma xR_zero_lt_one : flt (fzero : xR) (flit F_ONE) = true.
Proof.
  rewrite xR_zero, xR_one. cbn. destruct (Rlt_dec 0 1); [reflexivity|lra].
Qed.

(** ** C3 *)

(** C3 (code): a freshly constructed model already reports
    [is_initialized() == true], whatever its configuration: the
    constructor allocates a [BPETokenizer], whose vocabulary holds the four
    special tokens, and [is_initialized] checks nothing else. The
    configuration of the test suite constructs without error. *)
Theorem is_initialized_fresh_model {F} `{FloatLit F} `{FloatArith F}
    (rand : nat -> Z) (c : ModelConfig) (pos : nat) :
  match TinyLlamaModel_new rand c pos with
  | Ok (m, _) => is_initialized m = true
  | Err _ => True
  end /\
  exists m p, TinyLlamaModel_new rand test_config pos = Ok (m, p) /\ is_initialized m = true.
Proof.
  split.
  - unfold TinyLlamaModel_new.
    destruct (make_blocks rand _ c pos) as [[bs p]|e]; reflexivity.
  - eexists; eexists; split; reflexivity.
Qed.

(** ** C7 *)

(** C7: [generate_text] is a function of the model's state and of its
    arguments: two models with the same tokenizer, weights, configuration
    and stored temperature give the same result (text or exception) on
    the same prompt, [max_tokens] and temperature. *)
Theorem generate_text_deterministic {F} `{FloatLit F} `{FloatArith F}
    (m1 m2 : TinyLlamaModel F) (prompt : string) (max_tokens : Z) (temperature : F) :
  tokenizer_ m1 = tokenizer_ m2 ->
  embedding_weights_ m1 = embedding_weights_ m2 ->
  position_embeddings_ m1 = position_embeddings_ m2 ->
  transformer_blocks_ m1 = transformer_blocks_ m2 ->
  output_projection_ m1 = output_projection_ m2 ->
  config_ m1 = config_ m2 ->
  temperature_ m1 = temperature_ m2 ->
  generate_text m1 prompt max_tokens temperature = generate_text m2 prompt max_tokens temperature.
Proof.
  destruct m1, m2; cbn; intros; subst; reflexivity.
Qed.


Lemma generate_text_deterministic_witness :
  generate_text empty_model "hi" 1 (Fin 1) = generate_text empty_model "hi" 1 (Fin 1).
Proof.
  apply (generate_text_deterministic empty_model empty_model); reflexivity.
Defined.

(** ** C10 *)

(** C10: through the facade the stored temperature has no effect:
    [TinyLlama::generate] calls [generate_text] with its default [1.0f],
    which is positive, so [generate] gives the same result on two states
    that differ only in the model's stored temperature. *)
Theorem generate_ignores_stored_temperature (m : TinyLlamaModel xR) (b : bool)
    (prompt : string) (max_tokens : Z) (t1 t2 : xR) :
  generate (mkTinyLlama (set_temperature t1 m) b) prompt max_tokens =
  generate (mkTinyLlama (set_temperature t2 m) b) prompt max_tokens.
Proof.
  assert (Hgt : forall t,
    generate_text (set_temperature t m) prompt max_tokens (flit F_ONE) =
    generate_text m prompt max_tokens (flit F_ONE)).
  { intros t. unfold generate_text.
    rewrite is_initialized_set_temperature.
    destruct (is_initialized m); [|reflexivity]. cbn [negb].
    destruct (max_tokens <=? 0)%Z; [reflexivity|].
    replace (tokenize (set_temperature t m) prompt) with (tokenize m prompt)
      by (destruct m; reflexivity).
    replace (detokenize (set_temperature t m)) with (detokenize m)
      by (destruct m; reflexivity).
    change (config_ (set_temperature t m)) with (config_ m).
    rewrite generate_loop_set_temperature by exact xR_zero_lt_one.
    reflexivity. }
  unfold generate. cbn [is_initialized_ model_].
  change (config_ (set_temperature t1 m)) with (config_ m).
  change (config_ (set_temperature t2 m)) with (config_ m).
  rewrite !Hgt. reflexivity.
Qed.

(** ** C9 *)

Local Open Scope R_scope.

Lemma xlt_Fin (a b : R) : xlt (Fin a) (Fin b) = if Rlt_dec a b then true else false.
Proof. reflexivity. Qed.

(** The scan of [std::max_element] over [pre ++ l], [pre] already done. *)
Lemma max_element_from_spec (l pre : list R) (best : nat) :
  (best < length pre)%nat ->
  (forall j, (j < length pre)%nat -> nth j pre 0 <= nth best pre 0) ->
  (forall j, (j < best)%nat -> nth j pre 0 < nth best pre 0) ->
  let k := max_element_from (length pre) best (Fin (nth best pre 0)) (map Fin l) in
  (k < length (pre ++ l))%nat /\
  (forall j, (j < length (pre ++ l))%nat -> nth j (pre ++ l) 0 <= nth k (pre ++ l) 0) /\
  (forall j, (j < k)%nat -> nth j (pre ++ l) 0 < nth k (pre ++ l) 0).
Proof.
  revert pre best. induction l as [|x l IH]; intros pre best Hb Hle Hlt; cbn zeta.
  - rewrite app_nil_r. simpl. auto.
  - cbn [map max_element_from]. rewrite xlt_Fin.
    replace (pre ++ x :: l) with ((pre ++ [x]) ++ l) by (rewrite <- app_assoc; reflexivity).
    assert (Hlen : length (pre ++ [x]) = S (length pre)) by (rewrite length_app; simpl; lia).
    assert (Hx : nth (length pre) (pre ++ [x]) 0 = x).
    { rewrite app_nth2 by lia. rewrite Nat.sub_diag. reflexivity. }
    assert (Hold : forall j, (j < length pre)%nat -> nth j (pre ++ [x]) 0 = nth j pre 0).
    { intros j Hj. apply app_nth1. exact Hj. }
    destruct (Rlt_dec (nth best pre 0) x) as [Hgt|Hngt].
    + specialize (IH (pre ++ [x]) (length pre)). rewrite Hx, Hlen in IH.
      cbn zeta in IH. apply IH; rewrite ?Hlen, ?Hx.
      * lia.
      * intros j Hj. destruct (Nat.eq_dec j (length pre)) as [->|Hne].
        { rewrite Hx. lra. }
        rewrite Hold by lia. specialize (Hle j ltac:(lia)). lra.
      * intros j Hj. rewrite Hold by lia. specialize (Hle j Hj). lra.
    + specialize (IH (pre ++ [x]) best). rewrite (Hold best Hb), Hlen in IH.
      cbn zeta in IH. apply IH.
      * lia.
      * intros j Hj.
        destruct (Nat.eq_dec j (length pre)) as [->|Hne].
        { rewrite Hx. lra. }
        rewrite Hold by lia. apply Hle. lia.
      * intros j Hj. rewrite !Hold by lia. apply Hlt. exact Hj.
Qed.

Local Close Scope R_scope.

(** C9: on a non-empty vector of finite values [sample_token] returns
    the position of the first maximal entry, so a position of the vector
    that precedes every later tie; on the empty vector it raises the
    Model exception "Empty probability distribution". *)
Theorem sample_token_first_argmax (probs : list R) :
  probs <> [] ->
  (exists k : nat,
     sample_token (map Fin probs) = Ok (Z.of_nat k) /\
     (k < length probs)%nat /\
     (forall j, (j < length probs)%nat -> (nth j probs 0 <= nth k probs 0)%R) /\
     (forall j, (j < k)%nat -> (nth j probs 0 < nth k probs 0)%R)) /\
  sample_token (@nil xR) = Err (ModelException "Empty probability distribution").
Proof.
  intros Hne. split; [|reflexivity].
  destruct probs as [|p0 rest]; [congruence|].
  exists (max_element_from 1 0 (Fin p0) (map Fin rest)). split; [reflexivity|].
  pose proof (max_element_from_spec rest [p0] 0) as Hs. cbn zeta in Hs.
  simpl in Hs. apply Hs; simpl.
  - lia.
  - intros j Hj. destruct j; [lra|lia].
  - intros j Hj. lia.
Qed.

Lemma sample_token_first_argmax_witness :
  [1; 3; 2; 3]%R <> [] /\
  (exists k : nat,
     sample_token (map Fin [1; 3; 2; 3]%R) = Ok (Z.of_nat k) /\
     (k < length [1; 3; 2; 3]%R)%nat /\
     (forall j, (j < length [1; 3; 2; 3]%R)%nat ->
        (nth j [1; 3; 2; 3]%R 0 <= nth k [1; 3; 2; 3]%R 0)%R) /\
     (forall j, (j < k)%nat -> (nth j [1; 3; 2; 3]%R 0 < nth k [1; 3; 2; 3]%R 0)%R)) /\
  sample_token (@nil xR) = Err (ModelException "Empty probability distribution").
Proof.
  assert (H : [1; 3; 2; 3]%R <> []) by discriminate.
  split; [exact H | apply (sample_token_first_argmax [1; 3; 2; 3]%R H)].
Defined.

(** ** C8 *)

Lemma Z_of_byte_of_Z (z : Z) : Z_of_byte (byte_of_Z z) = z mod 256.
Proof.
  unfold byte_of_Z, Z_of_byte.
  assert (Hr : (0 <= z mod 256 < 256)%Z) by (apply Z.mod_pos_bound; lia).
  destruct (Byte.of_N (Z.to_N (z mod 256))) as [b|] eqn:E.
  - apply Byte.to_of_N in E. rewrite E. apply Z2N.id. lia.
  - apply Byte.of_N_None_iff in E. lia.
Qed.

Lemma length_le_bytes (n : nat) (z : Z) : length (le_bytes n z) = n.
Proof. revert z. induction n; intros z; simpl; [reflexivity|]. rewrite IHn. reflexivity. Qed.

Lemma le_value_le_bytes (n : nat) (z : Z) :
  (0 <= z < 2 ^ (8 * Z.of_nat n))%Z -> le_value (le_bytes n z) = z.
Proof.
  revert z. induction n as [|n IH]; intros z Hz.
  - simpl in *. lia.
  - cbn [le_bytes le_value]. rewrite Z_of_byte_of_Z. rewrite IH.
    + pose proof (Z.div_mod z 256). lia.
    + split; [apply Z.div_pos; lia|].
      apply Z.div_lt_upper_bound; [lia|].
      replace (8 * Z.of_nat (S n))%Z with (8 + 8 * Z.of_nat n)%Z in Hz by lia.
      rewrite Z.pow_add_r in Hz by lia. lia.
Qed.

Lemma read_bytes_app (n : nat) (a b : list byte) :
  length a = n -> read_bytes n (a ++ b) = Some (a, b).
Proof.
  intros <-. unfold read_bytes. rewrite length_app.
  replace (length a <=? length a + length b)%nat with true by (symmetry; apply Nat.leb_le; lia).
  rewrite firstn_app, skipn_app, firstn_all, skipn_all, Nat.sub_diag.
  simpl. rewrite app_nil_r. reflexivity.
Qed.

Lemma firstn_app_length {T} (a b : list T) : firstn (length a) (a ++ b) = a.
Proof. rewrite firstn_app, Nat.sub_diag, firstn_all. simpl. apply app_nil_r. Qed.

Lemma skipn_app_length {T} (a b : list T) : skipn (length a) (a ++ b) = b.
Proof. rewrite skipn_app, Nat.sub_diag, skipn_all. reflexivity. Qed.

Lemma firstn_le_bytes (n : nat) (z : Z) (rest : list byte) :
  firstn n (le_bytes n z ++ rest) = le_bytes n z.
Proof. rewrite <- (length_le_bytes n z) at 1. apply firstn_app_length. Qed.

Lemma skipn_le_bytes (n : nat) (z : Z) (rest : list byte) :
  skipn n (le_bytes n z ++ rest) = rest.
Proof. rewrite <- (length_le_bytes n z) at 1. apply skipn_app_length. Qed.


Lemma length_float_bytes (l : list f32) : length (float_bytes l) = (4 * length l)%nat.
Proof.
  induction l as [|x l IH]; [reflexivity|].
  unfold float_bytes in *. cbn [flat_map]. rewrite length_app, IH.
  cbn [fbytes f32_bytes]. rewrite length_le_bytes. simpl. lia.
Qed.

Lemma parse_float_bytes (l : list f32) (rest : list byte) :
  Forall f32_in_range l -> parse_floats (length l) (float_bytes l ++ rest) = l.
Proof.
  induction 1 as [|x l Hx Hl IH]; [reflexivity|].
  unfold float_bytes. cbn [flat_map length parse_floats].
  rewrite <- app_assoc.
  assert (Hlen : length (@fbytes f32 _ x) = INT_BYTES) by apply length_le_bytes.
  rewrite <- Hlen at 1 2. rewrite firstn_app_length, skipn_app_length.
  fold (float_bytes l). rewrite IH.
  destruct x as [bits]. cbn [fparse f32_bytes fbytes]. f_equal. f_equal.
  apply le_value_le_bytes. unfold f32_in_range in Hx. simpl in *. lia.
Qed.

Lemma length_vec_resize {T} (z : T) (n : nat) (v : list T) : length (vec_resize z n v) = n.
Proof.
  unfold vec_resize. rewrite length_app, repeat_length, length_firstn. lia.
Qed.

(** C8: [save_to_file] then [load_from_file] into any matrix gives the
    saved matrix back, bit for bit: same rows, same columns, same
    elements. The matrix has its [rows * cols] elements, a [size_t]
    element count and 32-bit elements. *)
Theorem matrix_save_load_roundtrip (m m0 : Matrix f32) (filename : string) :
  length (data_ m) = (rows_ m * cols_ m)%nat ->
  (Z.of_nat (rows_ m) < 2 ^ 64)%Z ->
  (Z.of_nat (cols_ m) < 2 ^ 64)%Z ->
  (Z.of_nat (rows_ m * cols_ m) < 2 ^ 64)%Z ->
  Forall f32_in_range (data_ m) ->
  load_from_file filename (Some (save_to_file m)) m0 = Ok m.
Proof.
  intros Hlen Hr Hc Hrc Hbits. destruct m as [r c d]. cbn [rows_ cols_ data_] in *.
  unfold load_from_file, save_to_file. cbn [rows_ cols_ data_].
  rewrite app_assoc.
  rewrite read_bytes_app
    by (rewrite length_app, !length_le_bytes; reflexivity).
  rewrite firstn_le_bytes, skipn_le_bytes.
  rewrite !le_value_le_bytes by (unfold SIZE_T_BYTES; simpl; lia).
  rewrite !Nat2Z.id.
  unfold mresize. cbn [data_]. rewrite length_vec_resize.
  assert (Hn : N.to_nat ((N.of_nat r * N.of_nat c) mod 2 ^ 64) = (r * c)%nat).
  { rewrite N.mod_small.
    - rewrite <- Nat2N.inj_mul. apply Nat2N.id.
    - rewrite <- Nat2N.inj_mul. apply N2Z.inj_lt. rewrite nat_N_Z. exact Hrc. }
  rewrite Hn.
  rewrite <- (app_nil_r (float_bytes d)).
  rewrite read_bytes_app by (rewrite length_float_bytes, Hlen; unfold INT_BYTES; lia).
  rewrite <- Hlen, <- (app_nil_r (float_bytes d)), parse_float_bytes by exact Hbits.
  reflexivity.
Qed.


Lemma matrix_save_load_roundtrip_witness :
  load_from_file "m.bin" (Some (save_to_file sample_matrix)) Matrix_empty = Ok sample_matrix.
Proof.
  apply matrix_save_load_roundtrip.
  - reflexivity.
  - vm_compute. reflexivity.
  - vm_compute. reflexivity.
  - vm_compute. reflexivity.
  - repeat constructor; unfold f32_in_range, F_ONE; simpl; lia.
Defined.

(** ** C6 *)

Local Open Scope R_scope.

Lemma xsub_Fin (a b : R) : xsub (Fin a) (Fin b) = Fin (a - b).
Proof. reflexivity. Qed.

Lemma xadd_Fin (a b : R) : xadd (Fin a) (Fin b) = Fin (a + b).
Proof. reflexivity. Qed.

Lemma xmul_Fin (a b : R) : xmul (Fin a) (Fin b) = Fin (a * b).
Proof. reflexivity. Qed.

Lemma xdiv_Fin (a b : R) : b <> 0 -> xdiv (Fin a) (Fin b) = Fin (a / b).
Proof. intros Hb. cbn. destruct (Req_EM_T b 0); [contradiction|reflexivity]. Qed.

Lemma exp_underflow_lt_1 : exp_underflow < 1.
Proof. unfold exp_underflow. simpl. lra. Qed.

Lemma exp_overflow_gt_1 : 1 < exp_overflow.
Proof. unfold exp_overflow. simpl. lra. Qed.

Lemma xexp_nonpos (x : R) : x <= 0 -> xexp (Fin x) = Fin (exp_flush x).
Proof.
  intros Hx. unfold xexp, exp_flush.
  destruct (Rle_dec (exp x) exp_underflow); [reflexivity|].
  destruct (Rle_dec exp_overflow (exp x)) as [Ho|]; [|reflexivity].
  exfalso. pose proof exp_overflow_gt_1.
  assert (exp x <= exp 0).
  { destruct (Req_dec x 0) as [->|Hne]; [lra|]. left. apply exp_increasing. lra. }
  rewrite exp_0 in *. lra.
Qed.

Lemma exp_flush_nonneg (x : R) : 0 <= exp_flush x.
Proof.
  unfold exp_flush. destruct (Rle_dec _ _); [lra|]. left. apply exp_pos.
Qed.

Lemma exp_flush_0 : exp_flush 0 = 1.
Proof.
  unfold exp_flush. rewrite exp_0. pose proof exp_underflow_lt_1.
  destruct (Rle_dec 1 exp_underflow); [lra|reflexivity].
Qed.

Lemma fold_fmax_Fin (l : list R) (a : R) :
  fold_left fmax (map Fin l) (Fin a) = Fin (fold_left rmax l a).
Proof.
  revert a. induction l as [|x l IH]; intros a; [reflexivity|].
  cbn [map fold_left]. rewrite <- IH. f_equal.
  unfold fmax, rmax. cbn [flt xR_arith]. rewrite xlt_Fin.
  destruct (Rlt_dec a x); reflexivity.
Qed.

Lemma fold_rmax_ge (l : list R) (a : R) :
  a <= fold_left rmax l a /\ Forall (fun x => x <= fold_left rmax l a) l.
Proof.
  revert a. induction l as [|x l IH]; intros a; [cbn; split; [lra|constructor]|].
  cbn [fold_left]. destruct (IH (rmax a x)) as [H1 H2].
  assert (a <= rmax a x /\ x <= rmax a x) as [Ha Hx].
  { unfold rmax. destruct (Rlt_dec a x); lra. }
  split; [lra|]. constructor; [lra|exact H2].
Qed.

Lemma fold_rmax_in (l : list R) (a : R) : fold_left rmax l a = a \/ In (fold_left rmax l a) l.
Proof.
  revert a. induction l as [|x l IH]; intros a; [left; reflexivity|].
  cbn [fold_left]. destruct (IH (rmax a x)) as [He|Hin].
  - rewrite He. unfold rmax. destruct (Rlt_dec a x); [right; left; reflexivity|left; reflexivity].
  - right. right. exact Hin.
Qed.

Lemma fold_rmax_div (l : list R) (a tau : R) :
  0 < tau -> fold_left rmax (map (fun x => x / tau) l) (a / tau) = fold_left rmax l a / tau.
Proof.
  intros Ht. revert a. induction l as [|x l IH]; intros a; [reflexivity|].
  cbn [map fold_left].
  replace (rmax (a / tau) (x / tau)) with (rmax a x / tau); [apply IH|].
  unfold rmax. destruct (Rlt_dec a x) as [H1|H1], (Rlt_dec (a / tau) (x / tau)) as [H2|H2];
    try reflexivity; exfalso.
  - apply H2. apply Rmult_lt_compat_r; [apply Rinv_0_lt_compat; exact Ht|exact H1].
  - apply H1. apply (Rmult_lt_reg_r (/ tau)); [apply Rinv_0_lt_compat; exact Ht|exact H2].
Qed.

Lemma fold_xadd_Fin (l : list R) (a : R) :
  fold_left xadd (map Fin l) (Fin a) = Fin (fold_left Rplus l a).
Proof.
  revert a. induction l as [|x l IH]; intros a; [reflexivity|]. apply IH.
Qed.

Lemma fold_Rplus_shift (l : list R) (a : R) : fold_left Rplus l a = a + fold_left Rplus l 0.
Proof.
  revert a. induction l as [|x l IH]; intros a; cbn [fold_left]; [ring|].
  rewrite (IH (a + x)), (IH (0 + x)). ring.
Qed.

Lemma fold_Rplus_nonneg (l : list R) :
  Forall (fun x => 0 <= x) l -> 0 <= fold_left Rplus l 0.
Proof.
  induction 1 as [|x l Hx Hl IH]; cbn [fold_left]; [lra|].
  rewrite fold_Rplus_shift. lra.
Qed.

Lemma fold_Rplus_ge_in (l : list R) (y : R) :
  Forall (fun x => 0 <= x) l -> In y l -> y <= fold_left Rplus l 0.
Proof.
  induction 1 as [|x l Hx Hl IH]; intros Hin; [destruct Hin|].
  cbn [fold_left]. rewrite fold_Rplus_shift.
  pose proof (fold_Rplus_nonneg l Hl).
  destruct Hin as [<-|Hin]; [lra|]. specialize (IH Hin). lra.
Qed.

Lemma fold_Rplus_div (l : list R) (s : R) :
  fold_left Rplus (map (fun e => e / s) l) 0 = fold_left Rplus l 0 / s.
Proof.
  induction l as [|x l IH]; cbn [map fold_left]; [unfold Rdiv; rewrite Rmult_0_l; reflexivity|].
  rewrite fold_Rplus_shift, IH, (fold_Rplus_shift l (0 + x)). unfold Rdiv. ring.
Qed.

Local Close Scope R_scope.

(** [softmax] on finite logits with a positive effective temperature:
    the exponentials [es] of [(l - max) / tau] with their underflow, each
    divided by their sum [S], which is at least 1. *)
Lemma softmax_Fin_formula (m : TinyLlamaModel xR) (l0 : R) (rest : list R) (t : xR) (tau : R) :
  (if flt fzero t then t else temperature_ m) = Fin tau ->
  (0 < tau)%R ->
  let M := fold_left rmax rest l0 in
  let es := map (fun l => exp_flush ((l - M) / tau)) (l0 :: rest) in
  let S := fold_left Rplus es 0%R in
  softmax m (map Fin (l0 :: rest)) t = map Fin (map (fun e => e / S)%R es) /\
  (1 <= S)%R /\ Forall (fun x => 0 <= x)%R es /\
  Forall (fun l => l <= M)%R (l0 :: rest) /\
  (forall l, In l (l0 :: rest) ->
     xexp (Fin ((l - M) / tau)) = Fin (exp_flush ((l - M) / tau))).
Proof.
  intros Htemp Htau M es S.
  assert (HtauNZ : tau <> 0%R) by lra.
  pose proof (fold_rmax_ge rest l0) as [HM0 HMr]. fold M in HM0, HMr.
  assert (Hes_nonneg : Forall (fun x => 0 <= x)%R es).
  { unfold es. apply Forall_map. apply Forall_forall. intros x _. apply exp_flush_nonneg. }
  assert (HS : (1 <= S)%R).
  { unfold S. apply fold_Rplus_ge_in; [exact Hes_nonneg|].
    unfold es. rewrite <- exp_flush_0.
    replace 0%R with ((M - M) / tau)%R by (field; exact HtauNZ).
    apply (in_map (fun l => exp_flush ((l - M) / tau))).
    destruct (fold_rmax_in rest l0) as [He|Hin].
    - left. fold M in He. symmetry. exact He.
    - right. fold M in Hin. exact Hin. }
  assert (Hpt : forall l, In l (l0 :: rest) ->
                 xexp (Fin ((l - M) / tau)) = Fin (exp_flush ((l - M) / tau))).
  { intros l Hl. apply xexp_nonpos.
    assert (l <= M)%R.
    { destruct Hl as [<-|Hl]; [exact HM0|]. rewrite Forall_forall in HMr. apply HMr, Hl. }
    unfold Rdiv. assert (Hi : (0 < / tau)%R) by (apply Rinv_0_lt_compat; exact Htau).
    rewrite <- (Rmult_0_l (/ tau)). apply Rmult_le_compat_r; lra. }
  split; [|split; [exact HS|split; [exact Hes_nonneg|split; [constructor; assumption|exact Hpt]]]].
  unfold softmax. change (map Fin (l0 :: rest)) with (Fin l0 :: map Fin rest).
  cbv beta iota zeta. rewrite Htemp.
  rewrite fold_fmax_Fin. fold M.
  assert (Hexp : map (fun l => fexp (fdiv (fsub l (Fin M)) (Fin tau))) (Fin l0 :: map Fin rest)
                 = map Fin es).
  { unfold es. change (Fin l0 :: map Fin rest) with (map Fin (l0 :: rest)).
    rewrite !map_map. apply map_ext_in. intros l Hl.
    cbn [fexp fdiv fsub xR_arith]. rewrite xsub_Fin, xdiv_Fin by exact HtauNZ.
    apply Hpt, Hl. }
  rewrite Hexp. cbn [fadd xR_arith]. rewrite xR_zero, fold_xadd_Fin. fold S.
  rewrite !map_map. apply map_ext. intros e. cbn [fdiv xR_arith].
  apply xdiv_Fin. lra.
Qed.

(** ** C4 *)

(** The probe model's logits are its output projection, for the token
    lists of the runs below. *)
Lemma forward_probe_model (w : list R) (toks : list Z) :
  length w = 4%nat -> toks = [0] \/ toks = [0; 3] ->
  forward (probe_model (map Fin w)) toks = Ok (map Fin w).
Proof.
  intros Hw Htoks.
  destruct w as [|a [|b [|c [|d [|]]]]]; try discriminate.
  destruct Htoks as [->| ->];
    unfold forward; cbn -[fzero flit]; rewrite !xR_zero; simpl;
    unfold mget; simpl; repeat f_equal; ring.
Qed.

Lemma exp_flush_lt_1 (x : R) : (x < 0)%R -> (exp_flush x < 1)%R.
Proof.
  intros Hx. unfold exp_flush. destruct (Rle_dec (exp x) exp_underflow); [lra|].
  rewrite <- exp_0. apply exp_increasing. exact Hx.
Qed.

Lemma temp_one (m : TinyLlamaModel xR) :
  (if flt fzero (Fin 1) then Fin 1 else temperature_ m) = Fin 1.
Proof. rewrite xR_zero. cbn. destruct (Rlt_dec 0 1); [reflexivity|lra]. Qed.

(** With one logit 1 among zeros, at temperature 1, the sampled token is
    the position of the 1. *)
Lemma sample_peak_3 (m : TinyLlamaModel xR) :
  sample_token (softmax m (map Fin [0; 0; 0; 1]%R) (Fin 1)) = Ok 3.
Proof.
  destruct (softmax_Fin_formula m 0 [0; 0; 1]%R (Fin 1) 1 (temp_one m) ltac:(lra))
    as (Hs & HS & _).
  rewrite Hs. clear Hs.
  set (M := fold_left rmax [0; 0; 1]%R 0%R) in *.
  assert (HM : M = 1%R).
  { unfold M. cbn. unfold rmax. repeat (destruct (Rlt_dec _ _); try lra). }
  set (S := fold_left Rplus _ 0%R) in *. clearbody S.
  rewrite HM. cbn [map].
  replace ((0 - 1) / 1)%R with (-1)%R by field.
  replace ((1 - 1) / 1)%R with 0%R by field.
  rewrite exp_flush_0.
  pose proof (exp_flush_lt_1 (-1) ltac:(lra)) as Hlt.
  assert (Hp : (exp_flush (-1) / S < 1 / S)%R).
  { unfold Rdiv. apply Rmult_lt_compat_r; [apply Rinv_0_lt_compat; lra|exact Hlt]. }
  unfold sample_token. cbn [max_element_from flt xR_arith]. rewrite !xlt_Fin.
  repeat (destruct (Rlt_dec _ _); try lra). reflexivity.
Qed.

Lemma sample_peak_2 (m : TinyLlamaModel xR) :
  sample_token (softmax m (map Fin [0; 0; 1; 0]%R) (Fin 1)) = Ok 2.
Proof.
  destruct (softmax_Fin_formula m 0 [0; 1; 0]%R (Fin 1) 1 (temp_one m) ltac:(lra))
    as (Hs & HS & _).
  rewrite Hs. clear Hs.
  set (M := fold_left rmax [0; 1; 0]%R 0%R) in *.
  assert (HM : M = 1%R).
  { unfold M. cbn. unfold rmax. repeat (destruct (Rlt_dec _ _); try lra). }
  set (S := fold_left Rplus _ 0%R) in *. clearbody S.
  rewrite HM. cbn [map].
  replace ((0 - 1) / 1)%R with (-1)%R by field.
  replace ((1 - 1) / 1)%R with 0%R by field.
  rewrite exp_flush_0.
  pose proof (exp_flush_lt_1 (-1) ltac:(lra)) as Hlt.
  assert (Hp : (exp_flush (-1) / S < 1 / S)%R).
  { unfold Rdiv. apply Rmult_lt_compat_r; [apply Rinv_0_lt_compat; lra|exact Hlt]. }
  unfold sample_token. cbn [max_element_from flt xR_arith]. rewrite !xlt_Fin.
  repeat (destruct (Rlt_dec _ _); try lra). reflexivity.
Qed.

Lemma generate_loop_eos_model :
  generate_loop eos_model (flit F_ONE) 2 [0] = Ok [0; 3; 3].
Proof.
  change eos_model with (probe_model (map Fin [0; 0; 0; 1]%R)).
  cbn [generate_loop].
  destruct (_ <=? _) eqn:E; [vm_compute in E; discriminate E|].
  rewrite forward_probe_model by (reflexivity || auto). cbn [bind].
  rewrite ?xR_zero_lt_one, ?xR_one. cbv beta iota zeta.
  rewrite sample_peak_3. cbn [bind]. cbn [Z.eqb app Pos.eqb].
  destruct (_ <=? _) eqn:E2; [vm_compute in E2; discriminate E2|].
  rewrite forward_probe_model by (reflexivity || auto). cbn [bind].
  rewrite ?xR_zero_lt_one, ?xR_one. cbv beta iota zeta.
  rewrite sample_peak_3. reflexivity.
Qed.

Lemma generate_loop_bos_model :
  generate_loop bos_model (flit F_ONE) 2 [0] = Ok [0; 2].
Proof.
  change bos_model with (probe_model (map Fin [0; 0; 1; 0]%R)).
  cbn [generate_loop].
  destruct (_ <=? _) eqn:E; [vm_compute in E; discriminate E|].
  rewrite forward_probe_model by (reflexivity || auto). cbn [bind].
  rewrite ?xR_zero_lt_one, ?xR_one. cbv beta iota zeta.
  rewrite sample_peak_2. reflexivity.
Qed.

(** C4 (code): the loop of [generate_text] stops on token id 2, the
    tokenizer's [<bos>], not on its end-of-sequence id 3 ([<eos>]).
    [BPETokenizer()] gives [<eos>] the id 3 and [<bos>] the id 2; on
    prompt "a" (token [<unk>] = 0) with two tokens to generate at
    temperature 1, a model whose logits peak at [<eos>] samples it and
    goes on ("a<eos><eos>"), and one whose logits peak at [<bos>] stops
    after it ("a<bos>"). *)
Theorem generate_text_stops_on_bos :
  tok_eos_id BPETokenizer_new = 3 /\
  get_token (vocab_ BPETokenizer_new) 3 = EOS_TOKEN /\
  get_token (vocab_ BPETokenizer_new) 2 = BOS_TOKEN /\
  generate_text eos_model "a" 2 (flit F_ONE) = Ok "a<eos><eos>"%string /\
  generate_text bos_model "a" 2 (flit F_ONE) = Ok "a<bos>"%string.
Proof.
  split; [reflexivity|]. split; [reflexivity|]. split; [reflexivity|]. split.
  - unfold generate_text.
    change (is_initialized eos_model) with true.
    change (tokenize eos_model "a") with (@Ok (list Z) [0]).
    cbv beta iota zeta.
    destruct (_ <=? Z.of_nat _) eqn:E; [vm_compute in E; discriminate E|].
    change (Z.to_nat 2) with 2%nat.
    rewrite generate_loop_eos_model. reflexivity.
  - unfold generate_text.
    change (is_initialized bos_model) with true.
    change (tokenize bos_model "a") with (@Ok (list Z) [0]).
    cbv beta iota zeta.
    destruct (_ <=? Z.of_nat _) eqn:E; [vm_compute in E; discriminate E|].
    change (Z.to_nat 2) with 2%nat.
    rewrite generate_loop_bos_model. reflexivity.
Qed.

(** ** C1 *)

(** C1 (code): the loader compares only [model_dim], [num_layers],
    [num_heads] and [vocab_size] of the header with the model's
    configuration: a file of at least the header's 36 bytes loads into a
    model exactly as it does with any other [ffn_hidden_dim],
    [max_sequence_length] and [dropout_rate] in its header. *)
Theorem load_model_weights_ignores_header_fields {F} `{FloatLit F} `{FloatBytes F}
    (weights_file : string) (file : list byte) (ffn max_seq dropout : Z)
    (m : TinyLlamaModel F) :
  (36 <= length file)%nat ->
  load_model_weights weights_file (Some (patch_header ffn max_seq dropout file)) m =
  load_model_weights weights_file (Some file) m.
Proof.
  intros Hlen.
  do 36 (destruct file as [|? file]; [cbn in Hlen; lia|]).
  unfold load_model_weights, load_body, patch_header.
  cbn.
  reflexivity.
Qed.

Lemma load_model_weights_ignores_header_fields_witness :
  (36 <= length (save_model_weights small_model))%nat /\
  is_Ok (load_model_weights "model.bin"
           (Some (patch_header 8 64 F_HALF (save_model_weights small_model)))
           small_model) = true.
Proof.
  split; [apply Nat.leb_le; vm_compute; reflexivity|].
  rewrite (load_model_weights_ignores_header_fields "model.bin"
             (save_model_weights small_model) 8 64 F_HALF small_model)
    by (apply Nat.leb_le; vm_compute; reflexivity).
  vm_compute. reflexivity.
Defined.

(** ** C5 *)

(** *** Reads of the matrices the attention builds *)

Lemma nth_flat_map_uniform {A B} (f : A -> list B) (l : list A) (w i j : nat) (d : B) (a0 : A) :
  (forall x, length (f x) = w) -> (i < length l)%nat -> (j < w)%nat ->
  nth (i * w + j) (flat_map f l) d = nth j (f (nth i l a0)) d.
Proof.
  intros Hw. revert i. induction l as [|x l IH]; intros i Hi Hj; [cbn in Hi; lia|].
  cbn [flat_map]. destruct i as [|i].
  - rewrite app_nth1 by (rewrite Hw; lia). reflexivity.
  - rewrite app_nth2 by (rewrite Hw; nia). rewrite Hw.
    replace (S i * w + j - w)%nat with (i * w + j)%nat by nia.
    apply IH; [cbn in Hi; lia|exact Hj].
Qed.

Lemma length_flat_map_uniform {A B} (f : A -> list B) (l : list A) (w : nat) :
  (forall x, length (f x) = w) -> length (flat_map f l) = (length l * w)%nat.
Proof.
  intros Hw. induction l as [|x l IH]; [reflexivity|].
  cbn [flat_map]. rewrite length_app, Hw, IH. cbn. lia.
Qed.

Lemma nth_map_lt {A B} (f : A -> B) (l : list A) (k : nat) (d : B) (a0 : A) :
  (k < length l)%nat -> nth k (map f l) d = f (nth k l a0).
Proof.
  intros Hk. rewrite (nth_indep (map f l) d (f a0)) by (rewrite length_map; exact Hk).
  apply map_nth.
Qed.

Lemma fold_left_ext_in {A B} (f g : A -> B -> A) (l : list B) (a : A) :
  (forall x acc, In x l -> f acc x = g acc x) -> fold_left f l a = fold_left g l a.
Proof.
  revert a. induction l as [|x l IH]; intros a Hfg; [reflexivity|].
  cbn [fold_left]. rewrite Hfg by (left; reflexivity). apply IH.
  intros y acc Hy. apply Hfg. right. exact Hy.
Qed.

Lemma res_map_ok {A B} (f : A -> res B) (g : A -> B) (l : list A) :
  (forall x, In x l -> f x = Ok (g x)) -> res_map f l = Ok (map g l).
Proof.
  induction l as [|x l IH]; intros Hf; [reflexivity|].
  cbn [res_map map]. rewrite Hf by (left; reflexivity). cbn [bind].
  rewrite IH by (intros y Hy; apply Hf; right; exact Hy). reflexivity.
Qed.

Section AttentionRows.
Context {F : Type} `{FloatLit F} `{FloatArith F}.

Lemma mget_transpose (m : Matrix F) (k j : nat) :
  (k < cols_ m)%nat -> (j < rows_ m)%nat -> mget (transpose m) k j = mget m j k.
Proof.
  intros Hk Hj. unfold transpose, mget at 1. cbn [rows_ cols_ data_].
  rewrite (nth_flat_map_uniform _ _ (rows_ m) k j fzero 0%nat);
    [| intros x; rewrite length_map, length_seq; reflexivity
     | rewrite length_seq; exact Hk | exact Hj].
  rewrite (nth_map_lt _ _ _ _ 0%nat) by (rewrite length_seq; exact Hj).
  rewrite !seq_nth by assumption. reflexivity.
Qed.

Lemma matmul_spec (a b : Matrix F) :
  cols_ a = rows_ b ->
  exists c, matmul a b = Ok c /\ rows_ c = rows_ a /\ cols_ c = cols_ b /\
    length (data_ c) = (rows_ a * cols_ b)%nat /\
    forall i j, (i < rows_ a)%nat -> (j < cols_ b)%nat ->
      mget c i j = fold_left (fun s k => fadd s (fmul (mget a i k) (mget b k j)))
                     (seq 0 (cols_ a)) fzero.
Proof.
  intros Hab. unfold matmul. rewrite Hab, Nat.eqb_refl. cbn [negb].
  eexists. split; [reflexivity|]. cbn [rows_ cols_ data_].
  split; [reflexivity|]. split; [reflexivity|]. split.
  - rewrite (length_flat_map_uniform _ _ (cols_ b)), length_seq; [reflexivity|].
    intros x. rewrite length_map, length_seq. reflexivity.
  - intros i j Hi Hj. unfold mget at 1. cbn [cols_ data_].
    rewrite (nth_flat_map_uniform _ _ (cols_ b) i j fzero 0%nat);
      [| intros x; rewrite length_map, length_seq; reflexivity
       | rewrite length_seq; exact Hi | exact Hj].
    rewrite (nth_map_lt _ _ _ _ 0%nat) by (rewrite length_seq; exact Hj).
    rewrite !seq_nth by assumption. reflexivity.
Qed.

Lemma length_softmax_row (row : list F) : length (softmax_row row) = length row.
Proof. unfold softmax_row. rewrite !length_map. reflexivity. Qed.

(** [scaled_dot_product_attention] on well-shaped inputs: element
    [(i, c)] of the result is the weighted sum of column [c] of [V]
    with the weights of row [i]. *)
Lemma sdpa_spec (Q K V : Matrix F) (mask : option (Matrix F)) :
  rows_ K = rows_ Q -> cols_ K = cols_ Q -> rows_ V = rows_ Q ->
  match mask with Some mk => rows_ mk = rows_ Q /\ cols_ mk = rows_ Q | None => True end ->
  exists o, scaled_dot_product_attention Q K V mask = Ok o /\ cols_ o = cols_ V /\
    forall i c, (i < rows_ Q)%nat -> (c < cols_ V)%nat ->
      mget o i c = fold_left (fun s k => fadd s (fmul (nth k (attention_weights Q K mask i) fzero)
                                                   (mget V k c)))
                     (seq 0 (rows_ Q)) fzero.
Proof.
  intros HKr HKc HVr Hmask.
  set (n := rows_ Q) in *.
  unfold scaled_dot_product_attention.
  destruct (matmul_spec Q (transpose K)) as (sc & Hsc & Hscr & Hscc & Hscl & Hscm);
    [cbn; symmetry; exact HKc|].
  rewrite Hsc. cbn [bind].
  assert (Hmk : (match mask with
                 | Some mk =>
                     if negb (rows_ mk =? n)%nat || negb (cols_ mk =? n)%nat
                     then Err (ModelException "Attention mask dimensions mismatch")
                     else Ok tt
                 | None => Ok tt
                 end) = Ok tt).
  { destruct mask as [mk|]; [|reflexivity]. destruct Hmask as [-> ->].
    rewrite Nat.eqb_refl. reflexivity. }
  fold n. rewrite Hmk. cbn [bind]. clear Hmk.
  set (scores := scale_scores sc (cols_ Q)).
  assert (Hscore : forall i j, (i < n)%nat -> (j < n)%nat ->
                     mat_at scores i j = Ok (attention_score Q K i j)).
  { intros i j Hi Hj. unfold mat_at, scores, scale_scores. cbn [rows_ cols_].
    rewrite Hscr, Hscc. cbn [transpose rows_ cols_].
    rewrite HKr. fold n.
    apply Nat.ltb_lt in Hi as Hi'. apply Nat.ltb_lt in Hj as Hj'. rewrite Hi', Hj'.
    cbn [andb]. f_equal. unfold mget at 1. cbn [cols_ data_].
    rewrite (nth_map_lt _ _ _ _ fzero) by (rewrite Hscl; cbn [transpose cols_]; rewrite HKr; nia).
    replace (nth (i * n + j) (data_ sc) fzero) with (mget sc i j)
      by (unfold mget; rewrite Hscc; cbn [transpose cols_ rows_]; rewrite HKr; reflexivity).
    rewrite Hscm by (cbn; lia).
    unfold attention_score. f_equal. apply fold_left_ext_in.
    intros k acc Hk. apply in_seq in Hk. rewrite mget_transpose by lia. reflexivity. }
  rewrite (res_map_ok _ (fun i => softmax_row (map (fun j => masked_score mask i j
                                      (attention_score Q K i j)) (seq 0 n))));
    [|intros i Hi; apply in_seq in Hi;
      rewrite (res_map_ok _ (fun j => masked_score mask i j (attention_score Q K i j)));
      [reflexivity|intros j Hj; apply in_seq in Hj; rewrite Hscore by lia; reflexivity]].
  destruct (matmul_spec (mkMatrix n n (concat (map (fun i => softmax_row
              (map (fun j => masked_score mask i j (attention_score Q K i j)) (seq 0 n)))
              (seq 0 n)))) V) as (o & Ho & Hor & Hoc & _ & Hom); [cbn; symmetry; exact HVr|].
  exists o. cbn [bind]. rewrite Ho. split; [reflexivity|]. split; [exact Hoc|].
  intros i c Hi Hc. rewrite Hom by (cbn; lia). cbn [cols_ rows_].
  apply fold_left_ext_in. intros k acc Hk. apply in_seq in Hk.
  f_equal. f_equal. unfold mget at 1. cbn [cols_ data_].
  rewrite <- flat_map_concat_map.
  rewrite (nth_flat_map_uniform _ _ n i k fzero 0%nat);
    [| intros x; rewrite length_softmax_row, length_map, length_seq; reflexivity
     | rewrite length_seq; exact Hi | lia].
  rewrite seq_nth by exact Hi. reflexivity.
Qed.
End AttentionRows.

(** ** Rounding to binary32 *)

Local Open Scope R_scope.

Lemma pow2_le_exp (n : nat) : 2 ^ n <= exp (INR n).
Proof.
  induction n as [|n IH]; [cbn; rewrite exp_0; lra|].
  rewrite S_INR, exp_plus. cbn [pow].
  pose proof (exp_ineq1 1 ltac:(lra)) as He.
  pose proof (pow_lt 2 n ltac:(lra)) as Hp.
  nra.
Qed.


Lemma p2_pos (z : Z) : 0 < powerRZ 2 z.
Proof. apply powerRZ_lt. lra. Qed.

Lemma p2_add (a b : Z) : powerRZ 2 (a + b) = powerRZ 2 a * powerRZ 2 b.
Proof. apply powerRZ_add. lra. Qed.

Lemma p2_IZR (k : Z) : (0 <= k)%Z -> powerRZ 2 k = IZR (2 ^ k).
Proof.
  intros Hk. destruct k as [|p|p]; [reflexivity| |lia].
  cbn [Z.pow]. rewrite Zpower_pos_powerRZ. reflexivity.
Qed.

Lemma p2_ge1 (k : Z) : (0 <= k)%Z -> 1 <= powerRZ 2 k.
Proof.
  intros Hk. rewrite p2_IZR by exact Hk. apply IZR_le.
  pose proof (Z.pow_pos_nonneg 2 k ltac:(lia) Hk). lia.
Qed.

Lemma p2_mono (a b : Z) : (a <= b)%Z -> powerRZ 2 a <= powerRZ 2 b.
Proof.
  intros Hab. replace b with (a + (b - a))%Z by lia. rewrite p2_add.
  pose proof (p2_pos a). pose proof (p2_ge1 (b - a) ltac:(lia)). nra.
Qed.

Lemma p2_lt (a b : Z) : (a < b)%Z -> powerRZ 2 a < powerRZ 2 b.
Proof.
  intros Hab. replace b with (a + 1 + (b - a - 1))%Z by lia. rewrite !p2_add.
  change (powerRZ 2 1) with (2 * 1). 
  pose proof (p2_pos a). pose proof (p2_ge1 (b - a - 1) ltac:(lia)). nra.
Qed.

Lemma p2_opp (a : Z) : powerRZ 2 (- a) * powerRZ 2 a = 1.
Proof. rewrite <- p2_add. replace (- a + a)%Z with 0%Z by lia. reflexivity. Qed.

(** The search for the quantum. *)
Lemma quantum_from_spec (r : R) (fuel : nat) (q : Z) :
  0 <= r < powerRZ 2 128 -> (-149 <= q)%Z -> (q + Z.of_nat fuel = 104)%Z ->
  (q = (-149)%Z \/ powerRZ 2 (q + 23) <= r) ->
  let q' := quantum_from fuel q r in
  (-149 <= q' <= 104)%Z /\ r < powerRZ 2 (q' + 24) /\
  (q' = (-149)%Z \/ powerRZ 2 (q' + 23) <= r).
Proof.
  revert q. induction fuel as [|f IH]; intros q Hr Hq Hf Hmin q'; cbn [quantum_from] in q'.
  - subst q'. replace (q + 24)%Z with 128%Z by lia. split; [lia|]. split; [lra|exact Hmin].
  - subst q'. destruct (Rlt_dec r (powerRZ 2 (q + 24))) as [Hlt|Hge].
    + split; [lia|]. split; [exact Hlt|exact Hmin].
    + apply IH; [exact Hr|lia|lia|]. right.
      replace (q + 1 + 23)%Z with (q + 24)%Z by lia. lra.
Qed.

Lemma quantum_spec (r : R) :
  0 <= r < powerRZ 2 128 ->
  (-149 <= quantum r <= 104)%Z /\ r < powerRZ 2 (quantum r + 24) /\
  (quantum r = (-149)%Z \/ powerRZ 2 (quantum r + 23) <= r).
Proof. intros Hr. apply quantum_from_spec; [exact Hr|lia|reflexivity|left; reflexivity]. Qed.

Lemma quantum_unique (r : R) (q : Z) :
  (-149 <= q <= 104)%Z -> 0 <= r < powerRZ 2 (q + 24) ->
  (q = (-149)%Z \/ powerRZ 2 (q + 23) <= r) -> quantum r = q.
Proof.
  intros Hq Hr Hmin.
  assert (Hr' : 0 <= r < powerRZ 2 128).
  { split; [lra|]. eapply Rlt_le_trans; [apply Hr|]. apply p2_mono. lia. }
  destruct (quantum_spec r Hr') as (Hq' & Hlt & Hmin').
  destruct (Z.lt_trichotomy (quantum r) q) as [H|[H|H]]; [|exact H|].
  - exfalso. destruct Hmin as [->|Hmin]; [lia|].
    pose proof (p2_mono (quantum r + 24) (q + 23) ltac:(lia)). lra.
  - exfalso. destruct Hmin' as [Hm|Hmin']; [lia|].
    pose proof (p2_mono (q + 24) (quantum r + 23) ltac:(lia)). lra.
Qed.

(** The integer rounding. *)
Lemma round_mant_cases (x : R) :
  round_mant x = Int_part x \/ round_mant x = (Int_part x + 1)%Z.
Proof.
  unfold round_mant. cbv zeta.
  destruct (Rlt_dec _ _); [left; reflexivity|].
  destruct (Rlt_dec _ _); [right; reflexivity|].
  destruct (Z.even _); [left|right]; reflexivity.
Qed.

Lemma Int_part_bounds (x : R) : IZR (Int_part x) <= x < IZR (Int_part x) + 1.
Proof. destruct (base_Int_part x). lra. Qed.

Lemma round_mant_ge_int (x : R) (K : Z) : IZR K <= x -> (K <= round_mant x)%Z.
Proof.
  intros HK. pose proof (Int_part_bounds x) as [H1 H2].
  assert (K < Int_part x + 1)%Z by (apply lt_IZR; rewrite plus_IZR; lra).
  destruct (round_mant_cases x) as [->| ->]; lia.
Qed.

Lemma round_mant_le_int (x : R) (K : Z) : x <= IZR K -> (round_mant x <= K)%Z.
Proof.
  intros HK. pose proof (Int_part_bounds x) as [H1 H2].
  assert (Int_part x <= K)%Z by (apply le_IZR; lra).
  destruct (Z.eq_dec (Int_part x) K) as [E|E].
  - (* x is the integer K *)
    assert (Hx : x = IZR K) by (subst K; lra).
    unfold round_mant. cbv zeta. rewrite E, Hx.
    destruct (Rlt_dec (IZR K - IZR K) (1 / 2)) as [_|Hn]; [lia|].
    exfalso. apply Hn. lra.
  - destruct (round_mant_cases x) as [->| ->]; lia.
Qed.

Lemma round_mant_int (K : Z) : round_mant (IZR K) = K.
Proof.
  apply Z.le_antisymm; [apply round_mant_le_int|apply round_mant_ge_int]; lra.
Qed.

(** Round-to-nearest is monotone around the binary32 values. *)
Lemma round_pos_ge (c r : R) :
  b32_repr c -> 0 <= c <= r -> r < powerRZ 2 128 -> c <= round_pos r.
Proof.
  intros (N & e & HN & He & ->) Hcr Hr.
  destruct (quantum_spec r ltac:(lra)) as (Hq & Hlt & Hmin).
  unfold round_pos. cbv zeta. set (q := quantum r) in *.
  pose proof (p2_pos q) as Hq2. pose proof (p2_pos (- q)) as Hq2'.
  pose proof (p2_opp q) as Hqq.
  destruct (Z_le_gt_dec q e) as [Heq|Heq].
  - assert (HK : IZR (N * 2 ^ (e - q)) <= r * powerRZ 2 (- q)).
    { rewrite mult_IZR, <- p2_IZR by lia.
      replace (e - q)%Z with (e + - q)%Z by lia. rewrite p2_add.
      destruct Hcr as [_ Hcr].
      apply Rmult_le_compat_r with (r := powerRZ 2 (- q)) in Hcr; [|lra]. lra. }
    apply round_mant_ge_int in HK. apply IZR_le in HK.
    rewrite mult_IZR, <- p2_IZR in HK by lia.
    apply Rmult_le_compat_r with (r := powerRZ 2 q) in HK; [|lra].
    replace (e - q)%Z with (e + - q)%Z in HK by lia. rewrite p2_add in HK.
    replace (IZR N * (powerRZ 2 e * powerRZ 2 (- q)) * powerRZ 2 q)
      with (IZR N * powerRZ 2 e * (powerRZ 2 (- q) * powerRZ 2 q)) in HK by ring.
    rewrite Hqq, Rmult_1_r in HK. exact HK.
  - destruct Hmin as [Hm|Hmin]; [lia|].
    assert (HK : IZR (2 ^ 23) <= r * powerRZ 2 (- q)).
    { rewrite <- p2_IZR by lia.
      apply Rmult_le_compat_r with (r := powerRZ 2 (- q)) in Hmin; [|lra].
      rewrite <- p2_add in Hmin. replace (q + 23 + - q)%Z with 23%Z in Hmin by lia. exact Hmin. }
    apply round_mant_ge_int in HK. apply IZR_le in HK.
    rewrite <- p2_IZR in HK by lia.
    apply Rmult_le_compat_r with (r := powerRZ 2 q) in HK; [|lra].
    rewrite <- p2_add in HK. replace (23 + q)%Z with (q + 23)%Z in HK by lia.
    assert (HNe : IZR N * powerRZ 2 e <= powerRZ 2 (e + 24)).
    { rewrite p2_add, (p2_IZR 24) by lia. pose proof (p2_pos e).
      assert (IZR N <= IZR (2 ^ 24)) by (apply IZR_le; lia).
      assert (0 <= IZR N) by (apply IZR_le; lia). nra. }
    pose proof (p2_mono (e + 24) (q + 23) ltac:(lia)). lra.
Qed.

Lemma round_pos_le (c r : R) :
  b32_repr c -> 0 <= r <= c -> r < powerRZ 2 128 -> round_pos r <= c.
Proof.
  intros (N & e & HN & He & Hc) Hcr Hr.
  destruct (quantum_spec r ltac:(lra)) as (Hq & Hlt & Hmin).
  unfold round_pos. cbv zeta. set (q := quantum r) in *.
  pose proof (p2_pos q) as Hq2. pose proof (p2_pos (- q)) as Hq2'.
  pose proof (p2_opp q) as Hqq.
  destruct (Z_le_gt_dec q e) as [Heq|Heq].
  - assert (HK : r * powerRZ 2 (- q) <= IZR (N * 2 ^ (e - q))).
    { rewrite mult_IZR, <- p2_IZR by lia.
      replace (e - q)%Z with (e + - q)%Z by lia. rewrite p2_add.
      destruct Hcr as [_ Hcr].
      apply Rmult_le_compat_r with (r := powerRZ 2 (- q)) in Hcr; [|lra]. subst c. lra. }
    apply round_mant_le_int in HK. apply IZR_le in HK.
    rewrite mult_IZR, <- p2_IZR in HK by lia.
    apply Rmult_le_compat_r with (r := powerRZ 2 q) in HK; [|lra].
    replace (e - q)%Z with (e + - q)%Z in HK by lia. rewrite p2_add in HK.
    replace (IZR N * (powerRZ 2 e * powerRZ 2 (- q)) * powerRZ 2 q)
      with (IZR N * powerRZ 2 e * (powerRZ 2 (- q) * powerRZ 2 q)) in HK by ring.
    rewrite Hqq, Rmult_1_r in HK. subst c. exact HK.
  - exfalso. destruct Hmin as [Hm|Hmin]; [lia|].
    assert (HNe : IZR N * powerRZ 2 e < powerRZ 2 (e + 24)).
    { rewrite p2_add, (p2_IZR 24) by lia. pose proof (p2_pos e).
      assert (IZR N < IZR (2 ^ 24)) by (apply IZR_lt; lia).
      assert (0 <= IZR N) by (apply IZR_le; lia). nra. }
    pose proof (p2_mono (e + 24) (q + 23) ltac:(lia)). lra.
Qed.

Lemma round_pos_nonneg (r : R) : 0 <= r -> 0 <= round_pos r.
Proof.
  intros Hr. unfold round_pos. cbv zeta.
  pose proof (p2_pos (quantum r)). pose proof (p2_pos (- quantum r)).
  assert (Hz : IZR 0 <= r * powerRZ 2 (- quantum r)) by (simpl; nra).
  apply round_mant_ge_int, IZR_le in Hz. simpl in Hz. nra.
Qed.

Lemma overflow_lt : powerRZ 2 103 < b32_overflow < powerRZ 2 128.
Proof.
  unfold b32_overflow. pose proof (p2_pos 103).
  pose proof (p2_lt 104 128 ltac:(lia)).
  assert (powerRZ 2 104 = 2 * powerRZ 2 103) by (replace 104%Z with (1 + 103)%Z by reflexivity; rewrite p2_add;
      change (powerRZ 2 1) with (2 * 1); ring). lra.
Qed.

Lemma b32_repr_zero : b32_repr 0.
Proof. exists 0%Z, 0%Z. split; [lia|]. split; [lia|]. simpl. ring. Qed.

Lemma rnd_le (c r : R) :
  b32_repr c -> c < b32_overflow -> 0 <= r <= c ->
  exists y, rnd r = Fin y /\ 0 <= y <= c.
Proof.
  intros Hc Hco Hr. pose proof overflow_lt as Hov. pose proof (p2_pos 103) as Hp103.
  unfold rnd. rewrite Rabs_pos_eq by lra.
  destruct (Rle_dec b32_overflow r) as [H|_]; [lra|].
  destruct (Rle_dec 0 r) as [_|H]; [|lra].
  eexists. split; [reflexivity|]. split.
  - apply round_pos_nonneg. lra.
  - apply round_pos_le; [exact Hc|lra|lra].
Qed.

Lemma rnd_ge (c r : R) :
  b32_repr c -> 0 <= c <= r -> rnd r = PInf \/ exists y, rnd r = Fin y /\ c <= y.
Proof.
  intros Hc Hr. pose proof overflow_lt as Hov. pose proof (p2_pos 103) as Hp103.
  unfold rnd. rewrite Rabs_pos_eq by lra.
  destruct (Rle_dec b32_overflow r) as [H1|H1].
  - left. destruct (Rlt_dec 0 r); [reflexivity|lra].
  - right. destruct (Rle_dec 0 r) as [_|H]; [|lra].
    eexists. split; [reflexivity|]. apply round_pos_ge; [exact Hc|lra|lra].
Qed.

Lemma rnd_le_neg (c r : R) :
  b32_repr c -> 0 <= c -> r <= - c -> rnd r = NInf \/ exists y, rnd r = Fin y /\ y <= - c.
Proof.
  intros Hc Hc0 Hr. pose proof overflow_lt as Hov. pose proof (p2_pos 103) as Hp103.
  unfold rnd. rewrite Rabs_left1 by lra.
  destruct (Rle_dec b32_overflow (- r)) as [H1|H1].
  - left. destruct (Rlt_dec 0 r); [lra|reflexivity].
  - right. eexists. split; [reflexivity|].
    destruct (Rle_dec 0 r) as [H0|H0].
    + assert (r = 0) by lra. assert (c = 0) by lra. subst.
      pose proof (round_pos_le 0 0 b32_repr_zero ltac:(lra) ltac:(lra)). lra.
    + pose proof (round_pos_ge c (- r) Hc ltac:(lra) ltac:(lra)). lra.
Qed.

Lemma rnd_nonneg (r : R) : 0 <= r -> rnd r = PInf \/ exists y, rnd r = Fin y /\ 0 <= y.
Proof. intros Hr. apply rnd_ge; [exact b32_repr_zero|lra]. Qed.

Lemma rnd_nonpos (r : R) : r <= 0 -> rnd r = NInf \/ exists y, rnd r = Fin y /\ y <= 0.
Proof.
  intros Hr. destruct (rnd_le_neg 0 r b32_repr_zero ltac:(lra) ltac:(lra)) as [H|(y & Hy & Hle)];
    [left; exact H|right; exists y; split; [exact Hy|lra]].
Qed.

Lemma rnd_repr (c : R) :
  b32_repr c -> 0 <= c < b32_overflow -> rnd c = Fin c /\ rnd (- c) = Fin (- c).
Proof.
  intros Hc Hco. pose proof overflow_lt as Hov. pose proof (p2_pos 103) as Hp103.
  assert (Hp : round_pos c = c).
  { apply Rle_antisym; [apply round_pos_le|apply round_pos_ge]; try exact Hc; lra. }
  unfold rnd. split.
  - rewrite Rabs_pos_eq by lra. destruct (Rle_dec b32_overflow c); [lra|].
    destruct (Rle_dec 0 c); [|lra]. rewrite Hp. reflexivity.
  - rewrite Rabs_Ropp, Rabs_pos_eq by lra. destruct (Rle_dec b32_overflow c); [lra|].
    rewrite Ropp_involutive, Hp. destruct (Rle_dec 0 (- c)); [|reflexivity].
    assert (c = 0) by lra. subst c. rewrite Ropp_0. f_equal. exact Hp.
Qed.

Lemma rnd_0 : rnd 0 = Fin 0.
Proof.
  pose proof overflow_lt as Hov. pose proof (p2_pos 103) as Hp103. destruct (rnd_repr 0 b32_repr_zero ltac:(lra)) as [H _]. exact H.
Qed.

(** A binary32 value [N * 2^e] below the overflow threshold. *)
Lemma b32_repr_intro (N e : Z) :
  (0 <= N < 2 ^ 24)%Z -> (-149 <= e <= 104)%Z ->
  b32_repr (IZR N * powerRZ 2 e) /\ 0 <= IZR N * powerRZ 2 e < b32_overflow.
Proof.
  intros HN He. split; [exists N, e; split; [lia|split; [lia|reflexivity]]|].
  pose proof (p2_pos e) as Hpe. assert (HN0 : 0 <= IZR N) by (apply IZR_le; lia).
  split; [nra|].
  assert (HN1 : IZR N <= IZR (2 ^ 24 - 1)) by (apply IZR_le; lia).
  rewrite minus_IZR, <- p2_IZR in HN1 by lia.
  pose proof (p2_mono e 104 ltac:(lia)) as He104.
  assert (Hb : IZR N * powerRZ 2 e <= (powerRZ 2 24 - 1) * powerRZ 2 104)
    by (apply Rmult_le_compat; lra).
  unfold b32_overflow. rewrite Rmult_minus_distr_r, <- p2_add in Hb. simpl (24 + 104)%Z in Hb.
  pose proof (p2_lt 103 104 ltac:(lia)). lra.
Qed.

Lemma rnd_exact (N e : Z) :
  (0 <= N < 2 ^ 24)%Z -> (-149 <= e <= 104)%Z ->
  rnd (IZR N * powerRZ 2 e) = Fin (IZR N * powerRZ 2 e) /\
  rnd (- (IZR N * powerRZ 2 e)) = Fin (- (IZR N * powerRZ 2 e)).
Proof. intros HN He. destruct (b32_repr_intro N e HN He). apply rnd_repr; assumption. Qed.

(** Below half the least subnormal, rounding gives [0]. *)
Lemma rnd_small (r : R) : 0 <= r <= powerRZ 2 (-150) -> rnd r = Fin 0.
Proof.
  intros Hr. pose proof overflow_lt as Hov. pose proof (p2_pos 103) as Hp103.
  pose proof (p2_lt (-150) (-125) ltac:(lia)).
  pose proof (p2_lt (-125) 103 ltac:(lia)).
  unfold rnd. rewrite Rabs_pos_eq by lra.
  destruct (Rle_dec b32_overflow r); [lra|]. destruct (Rle_dec 0 r) as [_|]; [|lra].
  f_equal. unfold round_pos.
  replace (quantum r) with (-149)%Z by (symmetry; apply quantum_unique; [lia|replace (-149 + 24)%Z with (-125)%Z by reflexivity; lra|left; reflexivity]).
  change (- -149)%Z with 149%Z.
  assert (Hu : 0 <= r * powerRZ 2 149 <= 1 / 2).
  { pose proof (p2_pos 149). split; [nra|].
    replace (1 / 2) with (powerRZ 2 (-150) * powerRZ 2 149).
    - apply Rmult_le_compat_r; lra.
    - rewrite <- p2_add. change (-150 + 149)%Z with (-1)%Z. change (powerRZ 2 (-1)) with (/ (2 * 1)).
      field. }
  set (u := r * powerRZ 2 149) in *.
  assert (HI : Int_part u = 0%Z) by (symmetry; apply Int_part_spec; simpl; lra).
  unfold round_mant. cbv zeta. rewrite HI. simpl (IZR 0).
  destruct (Rlt_dec (u - 0) (1 / 2)); [simpl; ring|].
  destruct (Rlt_dec (1 / 2) (u - 0)); [lra|]. simpl. ring.
Qed.

(** [2^24 + 1] lies halfway between the binary32 values [2^24] and
    [2^24 + 2]: it rounds to the even mantissa, [2^24]. *)
Lemma rnd_tie_2_24 : rnd (powerRZ 2 24 + 1) = Fin (powerRZ 2 24).
Proof.
  pose proof overflow_lt as Hov. pose proof (p2_pos 103) as Hp103.
  pose proof (p2_lt 24 25 ltac:(lia)). pose proof (p2_lt 25 103 ltac:(lia)).
  assert (H2 : powerRZ 2 25 = 2 * powerRZ 2 24) by (replace 25%Z with (1 + 24)%Z by reflexivity; rewrite p2_add;
      change (powerRZ 2 1) with (2 * 1); ring).
  pose proof (p2_lt 0 24 ltac:(lia)) as H1. change (powerRZ 2 0) with 1 in H1.
  assert (Hq : quantum (powerRZ 2 24 + 1) = 1%Z).
  { apply quantum_unique; [lia| |right; simpl (1 + 23)%Z; lra].
    simpl (1 + 24)%Z. lra. }
  unfold rnd. rewrite Rabs_pos_eq by (pose proof (p2_pos 24); lra).
  destruct (Rle_dec b32_overflow _); [lra|]. destruct (Rle_dec 0 _) as [_|]; [|pose proof (p2_pos 24); lra].
  f_equal. unfold round_pos. rewrite Hq.
  assert (Hu : (powerRZ 2 24 + 1) * powerRZ 2 (- 1) = IZR (2 ^ 23) + 1 / 2).
  { rewrite <- p2_IZR by lia. replace 24%Z with (23 + 1)%Z by reflexivity. rewrite p2_add.
    change (powerRZ 2 1) with (2 * 1). change (powerRZ 2 (-1)) with (/ (2 * 1)). field. }
  change (- (1))%Z with (-1)%Z. rewrite Hu.
  assert (HI : Int_part (IZR (2 ^ 23) + 1 / 2) = (2 ^ 23)%Z)
    by (symmetry; apply Int_part_spec; lra).
  unfold round_mant. cbv zeta. rewrite HI.
  replace (IZR (2 ^ 23) + 1 / 2 - IZR (2 ^ 23)) with (1 / 2) by ring.
  destruct (Rlt_dec (1 / 2) (1 / 2)); [lra|]. destruct (Rlt_dec (1 / 2) (1 / 2)); [lra|].
  rewrite Z.even_pow by lia. cbn [Z.even negb] .
  rewrite <- p2_IZR by lia. rewrite <- p2_add. reflexivity.
Qed.

Lemma exp_below_underflow (x : R) : x <= -150 -> exp x <= exp_underflow.
Proof.
  intros Hx.
  assert (He : exp x <= exp (-150)).
  { destruct (Req_dec x (-150)) as [->|Hne]; [lra|]. left. apply exp_increasing. lra. }
  assert (H150 : 2 ^ 150 <= exp 150).
  { pose proof (pow2_le_exp 150) as H. rewrite INR_IZR_INZ in H. exact H. }
  unfold exp_underflow. change (powerRZ 2 (-150)) with (/ 2 ^ Pos.to_nat 150).
  change (Pos.to_nat 150) with 150%nat.
  replace (exp (-150)) with (/ exp 150) in He by (rewrite <- exp_Ropp; f_equal; ring).
  assert (/ exp 150 <= / 2 ^ 150).
  { apply Rinv_le_contravar; [apply pow_lt; lra|exact H150]. }
  lra.
Qed.

(** The correctly rounded [exp] has the properties the proofs use. *)
Lemma cr_libm_exp_ok : libm_exp_ok (@libm_exp cr_libm).
Proof.
  pose proof overflow_lt as Hov. pose proof (p2_pos 103) as Hp103.
  assert (H1 : rnd 1 = Fin 1).
  { destruct (rnd_exact 1 0 ltac:(lia) ltac:(lia)) as [H _].
    change (IZR 1 * powerRZ 2 0) with (1 * 1) in H. rewrite Rmult_1_r in H. exact H. }
  assert (Hr1 : b32_repr 1 /\ 0 <= 1 < b32_overflow).
  { destruct (b32_repr_intro 1 0 ltac:(lia) ltac:(lia)) as [Ha Hb].
    change (IZR 1 * powerRZ 2 0) with (1 * 1) in Ha, Hb. rewrite Rmult_1_r in Ha, Hb.
    split; assumption. }
  split; [|split; [|split]]; cbn [libm_exp cr_libm].
  - rewrite exp_0. exact H1.
  - intros x Hx. apply rnd_le; [apply Hr1|apply Hr1|].
    split; [left; apply exp_pos|]. rewrite <- exp_0.
    destruct (Req_dec x 0) as [->|Hne]; [lra|]. left. apply exp_increasing. lra.
  - intros x Hx. apply rnd_small. split; [left; apply exp_pos|].
    apply exp_below_underflow. exact Hx.
  - reflexivity.
Qed.

Local Close Scope R_scope.

(** ** The [b32] model *)

Local Open Scope R_scope.

Lemma b32_zero : (fzero : b32) = B32 (Fin 0).
Proof. unfold fzero, flit, b32_lit. f_equal. exact xR_zero. Qed.

Lemma b32_one : (flit F_ONE : b32) = B32 (Fin 1).
Proof. unfold flit, b32_lit. f_equal. exact xR_one. Qed.

Lemma b32_sentinel : (flit F_NEG_1E9 : b32) = B32 (Fin (-1000000000)).
Proof. unfold flit, b32_lit. f_equal. exact xR_sentinel. Qed.

Lemma b32_neg_inf : (flit F_NEG_INF : b32) = B32 NInf.
Proof. reflexivity. Qed.

Lemma b32_neg_one : (flit F_NEG_ONE : b32) = B32 (Fin (-1)).
Proof. unfold flit, b32_lit. f_equal. exact xR_neg_one. Qed.

Lemma rnd_one : rnd 1 = Fin 1.
Proof.
  destruct (rnd_exact 1 0 ltac:(lia) ltac:(lia)) as [H _].
  change (IZR 1 * powerRZ 2 0) with (1 * 1) in H. rewrite Rmult_1_r in H. exact H.
Qed.

Lemma b32_repr_one : b32_repr 1 /\ 0 <= 1 < b32_overflow.
Proof.
  destruct (b32_repr_intro 1 0 ltac:(lia) ltac:(lia)) as [Ha Hb].
  change (IZR 1 * powerRZ 2 0) with (1 * 1) in Ha, Hb. rewrite Rmult_1_r in Ha, Hb.
  split; assumption.
Qed.

Lemma b32_repr_150 : b32_repr 150.
Proof.
  destruct (b32_repr_intro 75 1 ltac:(lia) ltac:(lia)) as [Ha _].
  change (powerRZ 2 1) with (2 * 1) in Ha. replace (IZR 75 * (2 * 1)) with 150 in Ha by ring.
  exact Ha.
Qed.

Section B32Ops.
Context `{Libm}.

Lemma fmax_b32 (a b : R) : fmax (B32 (Fin a)) (B32 (Fin b)) = B32 (Fin (rmax a b)).
Proof. unfold fmax, rmax. cbn [flt b32_arith b32_x]. rewrite xlt_Fin. destruct (Rlt_dec a b); reflexivity. Qed.

Lemma fold_fmax_b32 (l : list R) (a : R) :
  fold_left fmax (map (fun r => B32 (Fin r)) l) (B32 (Fin a)) = B32 (Fin (fold_left rmax l a)).
Proof.
  revert a. induction l as [|x l IH]; intros a; [reflexivity|].
  cbn [map fold_left]. rewrite fmax_b32. apply IH.
Qed.

Lemma fdiv_zero_b32 (s : xR) :
  (s = PInf \/ exists y, s = Fin y /\ 1 <= y) -> fdiv (B32 (Fin 0)) (B32 s) = B32 (Fin 0).
Proof.
  intros [->|(y & -> & Hy)]; cbn [fdiv b32_arith b32_x xdiv round_x]; f_equal; [exact rnd_0|].
  destruct (Req_EM_T y 0) as [E|_]; [lra|]. unfold Rdiv. rewrite Rmult_0_l. exact rnd_0.
Qed.

Lemma fdiv_unit_b32 (e : R) (s : xR) :
  0 <= e <= 1 -> (s = PInf \/ exists y, s = Fin y /\ 1 <= y) ->
  exists p, fdiv (B32 (Fin e)) (B32 s) = B32 (Fin p) /\ 0 <= p <= 1.
Proof.
  intros He [->|(y & -> & Hy)]; cbn [fdiv b32_arith b32_x xdiv round_x].
  - exists 0. split; [rewrite rnd_0; reflexivity|lra].
  - destruct (Req_EM_T y 0) as [E|_]; [lra|].
    destruct (rnd_le 1 (e / y) (proj1 b32_repr_one) (proj2 (proj2 b32_repr_one))) as (p & Hp & Hb).
    + split; [unfold Rdiv; apply Rmult_le_pos; [lra|left; apply Rinv_0_lt_compat; lra]|].
      apply (Rmult_le_reg_r y); [lra|]. unfold Rdiv. rewrite Rmult_assoc, Rinv_l by lra. lra.
    + exists p. cbn [round_x]. rewrite Hp. split; [reflexivity|exact Hb].
Qed.

Lemma fmul_zero_b32 (v : R) : fmul (B32 (Fin 0)) (B32 (Fin v)) = B32 (Fin 0).
Proof. cbn [fmul b32_arith b32_x round_x]. rewrite xmul_Fin, Rmult_0_l. f_equal. exact rnd_0. Qed.

(** The row sums of the softmaxes, from [0.0f]: they stay at least the
    bound [c] they have reached (or overflow). *)
Lemma fold_fadd_ge (c : R) (ev : list b32) (acc : b32) :
  b32_repr c -> 0 <= c ->
  Forall (fun e => exists y, e = B32 (Fin y) /\ 0 <= y <= 1) ev ->
  (b32_x acc = PInf \/ exists s, b32_x acc = Fin s /\ c <= s) ->
  b32_x (fold_left fadd ev acc) = PInf \/
  exists s, b32_x (fold_left fadd ev acc) = Fin s /\ c <= s.
Proof.
  intros Hc Hc0 Hev. revert acc. induction Hev as [|e ev (y & -> & Hy) Hev IH]; intros acc Hacc;
    [exact Hacc|].
  cbn [fold_left]. apply IH.
  destruct acc as [a]. cbn [b32_x] in Hacc.
  cbn [fadd b32_arith b32_x].
  destruct Hacc as [->|(s & -> & Hs)]; [left; reflexivity|].
  cbn [round_x xadd].
  destruct (rnd_ge c (s + y) Hc ltac:(lra)) as [E|(z & E & Hz)]; rewrite E;
    [left; reflexivity|right; exists z; split; [reflexivity|exact Hz]].
Qed.

Lemma fold_fadd_one (ev : list b32) (acc : b32) :
  Forall (fun e => exists y, e = B32 (Fin y) /\ 0 <= y <= 1) ev ->
  In (B32 (Fin 1)) ev ->
  (b32_x acc = PInf \/ exists s, b32_x acc = Fin s /\ 0 <= s) ->
  b32_x (fold_left fadd ev acc) = PInf \/
  exists s, b32_x (fold_left fadd ev acc) = Fin s /\ 1 <= s.
Proof.
  intros Hev. revert acc. induction Hev as [|e ev (y & -> & Hy) Hev IH]; intros acc Hin Hacc;
    [destruct Hin|].
  cbn [fold_left]. destruct acc as [a]. cbn [b32_x] in Hacc.
  assert (Hstep : forall c, b32_repr c -> 0 <= c -> (a = PInf \/ exists s, a = Fin s /\ c <= s + y) ->
            b32_x (fadd (B32 a) (B32 (Fin y))) = PInf \/
            exists s, b32_x (fadd (B32 a) (B32 (Fin y))) = Fin s /\ c <= s).
  { intros c Hc Hc0 [->|(s & -> & Hs)]; cbn [fadd b32_arith b32_x round_x xadd]; [left; reflexivity|].
    destruct (rnd_ge c (s + y) Hc ltac:(lra)) as [E|(z & E & Hz)]; rewrite E;
      [left; reflexivity|right; exists z; split; [reflexivity|exact Hz]]. }
  destruct Hin as [E|Hin].
  - assert (Ey : y = 1) by congruence. subst y.
    apply fold_fadd_ge; [exact (proj1 b32_repr_one)|lra|exact Hev|].
    apply Hstep; [exact (proj1 b32_repr_one)|lra|].
    destruct Hacc as [->|(s & -> & Hs)]; [left; reflexivity|right; exists s; split; [reflexivity|lra]].
  - apply IH; [exact Hin|]. apply Hstep; [exact b32_repr_zero|lra|].
    destruct Hacc as [->|(s & -> & Hs)]; [left; reflexivity|right; exists s; split; [reflexivity|lra]].
Qed.

Lemma b32_unit_list (l : list b32) :
  Forall (fun e => exists y, e = B32 (Fin y) /\ 0 <= y <= 1) l ->
  exists ps, l = map (fun p => B32 (Fin p)) ps /\ Forall (fun p => 0 <= p <= 1) ps.
Proof.
  induction 1 as [|e l (y & -> & Hy) _ (ps & -> & Hps)]; [exists []; split; [reflexivity|constructor]|].
  exists (y :: ps). split; [reflexivity|constructor; assumption].
Qed.

Section WithExp.
Hypothesis Hexp : libm_exp_ok libm_exp.

Lemma exp_b32_zero : libm_exp (rnd 0) = Fin 1.
Proof. rewrite rnd_0. apply Hexp. Qed.

Lemma exp_b32_nonpos (x : R) : x <= 0 -> exists y, libm_exp (rnd x) = Fin y /\ 0 <= y <= 1.
Proof.
  intros Hx. destruct Hexp as (_ & H2 & _ & H4).
  destruct (rnd_nonpos x Hx) as [->|(y & -> & Hy)]; [exists 0; split; [exact H4|lra]|].
  apply H2, Hy.
Qed.

Lemma exp_b32_masked (x : R) : x <= -150 -> libm_exp (rnd x) = Fin 0.
Proof.
  intros Hx. destruct Hexp as (_ & _ & H3 & H4).
  destruct (rnd_le_neg 150 x b32_repr_150 ltac:(lra) Hx) as [->|(y & -> & Hy)]; [exact H4|].
  apply H3, Hy.
Qed.

End WithExp.
End B32Ops.

Local Close Scope R_scope.

(** ** C5 on the binary32 model *)

Local Open Scope R_scope.

Lemma b32_flit_zero : (flit F_ZERO : b32) = B32 (Fin 0).
Proof. exact b32_zero. Qed.

Section CausalB32.
Context `{Libm}.

Lemma causal_masked_score_b32 (n i j : nat) (s : b32) :
  (i < n)%nat -> (j < n)%nat ->
  masked_score (Some (create_attention_mask n)) i j s =
  if (j <=? i)%nat then s else B32 (Fin (-1000000000)).
Proof.
  intros Hi Hj. unfold masked_score, mget, create_attention_mask. cbn [cols_ data_].
  rewrite (nth_flat_map_uniform _ _ n i j fzero 0%nat);
    [| intros x; rewrite length_map, length_seq; reflexivity
     | rewrite length_seq; exact Hi | exact Hj].
  rewrite (nth_map_lt _ _ _ _ 0%nat) by (rewrite length_seq; exact Hj).
  rewrite !seq_nth by assumption. cbn [Nat.add].
  destruct (j <=? i)%nat.
  - rewrite b32_one, b32_zero. cbn [feqb b32_arith b32_x xeqb].
    destruct (Req_EM_T 1 0); [lra|reflexivity].
  - rewrite b32_flit_zero, b32_zero, b32_sentinel. cbn [feqb b32_arith b32_x xeqb].
    destruct (Req_EM_T 0 0); [reflexivity|lra].
Qed.

Lemma attention_score_rows_b32 (Q K K' : Matrix b32) (i j : nat) :
  (forall k, (k < cols_ Q)%nat -> mget K j k = mget K' j k) ->
  attention_score Q K i j = attention_score Q K' i j.
Proof.
  intros HK. unfold attention_score. f_equal. apply fold_left_ext_in.
  intros k acc Hk. apply in_seq in Hk. rewrite HK by lia. reflexivity.
Qed.

Hypothesis Hexp : libm_exp_ok libm_exp.

(** [softmax_row] on finite scores: the rounded differences to the
    maximum [M], their [exp], each divided by the rounded sum [S], which
    is at least 1 (or [+inf]). *)
Lemma softmax_row_b32 (l0 : R) (rest : list R) :
  let M := fold_left rmax rest l0 in
  let ev := map (fun l => B32 (libm_exp (rnd (l - M)))) (l0 :: rest) in
  let S := fold_left fadd ev fzero in
  softmax_row (map (fun r => B32 (Fin r)) (l0 :: rest)) = map (fun e => fdiv e S) ev /\
  (b32_x S = PInf \/ exists s, b32_x S = Fin s /\ 1 <= s).
Proof.
  intros M ev S.
  pose proof (fold_rmax_ge rest l0) as [HM0 HMr]. fold M in HM0, HMr.
  assert (Hle : forall l, In l (l0 :: rest) -> l - M <= 0).
  { intros l [<-|Hl]; [lra|]. rewrite Forall_forall in HMr. specialize (HMr l Hl). lra. }
  split.
  - unfold softmax_row.
    assert (Hmax : fold_left fmax (map (fun r => B32 (Fin r)) (l0 :: rest)) (flit F_NEG_INF)
                   = B32 (Fin M)).
    { cbn [map fold_left].
      replace (fmax (flit F_NEG_INF) (B32 (Fin l0))) with (B32 (Fin l0)) by reflexivity.
      apply fold_fmax_b32. }
    rewrite Hmax. cbv zeta.
    assert (Hev : map (fun s => fexp (fsub s (B32 (Fin M)))) (map (fun r => B32 (Fin r)) (l0 :: rest))
                  = ev).
    { unfold ev. rewrite map_map. apply map_ext. intros l.
      cbn [fexp fsub b32_arith b32_x]. rewrite xsub_Fin. reflexivity. }
    rewrite Hev. reflexivity.
  - unfold S. apply fold_fadd_one.
    + unfold ev. apply Forall_map, Forall_forall. intros l Hl.
      destruct (exp_b32_nonpos Hexp (l - M) (Hle l Hl)) as (y & Hy & Hb).
      exists y. rewrite Hy. split; [reflexivity|exact Hb].
    + unfold ev. rewrite <- (exp_b32_zero Hexp). replace 0 with (M - M) by ring.
      apply (in_map (fun l => B32 (libm_exp (rnd (l - M))))).
      destruct (fold_rmax_in rest l0) as [E|Hin]; [left; symmetry; exact E|right; exact Hin].
    + rewrite b32_zero. right. exists 0. split; [reflexivity|lra].
Qed.

(** The weight of a masked position [k > i] in row [i] is exactly [0]
    when the scores of row [i] are finite and one of them is at least
    [-1e9 + 150]. *)
Lemma causal_weight_masked_b32 (Q K : Matrix b32) (i k : nat) :
  (i < k < rows_ Q)%nat ->
  (forall j, (j <= i)%nat -> is_fin (b32_x (attention_score Q K i j)) = true) ->
  (exists j r, (j <= i)%nat /\ b32_x (attention_score Q K i j) = Fin r /\
               -1000000000 + 150 <= r) ->
  nth k (attention_weights Q K (Some (create_attention_mask (rows_ Q))) i) fzero = B32 (Fin 0).
Proof.
  intros Hk Hfin (j0 & r0 & Hj0 & Hr0 & Hbig).
  set (n := rows_ Q) in *.
  set (rl := map (fun j => if (j <=? i)%nat then fin_val (b32_x (attention_score Q K i j))
                           else (-1000000000)) (seq 0 n)).
  assert (Hrow : map (fun j => masked_score (Some (create_attention_mask n)) i j
                                 (attention_score Q K i j)) (seq 0 n)
                 = map (fun r => B32 (Fin r)) rl).
  { unfold rl. rewrite map_map. apply map_ext_in. intros j Hj. apply in_seq in Hj.
    rewrite causal_masked_score_b32 by lia.
    destruct (j <=? i)%nat eqn:E; [|reflexivity].
    apply Nat.leb_le in E. specialize (Hfin j E).
    destruct (attention_score Q K i j) as [[r| | |]]; try discriminate. reflexivity. }
  assert (Hlen : length rl = n) by (unfold rl; rewrite length_map, length_seq; reflexivity).
  assert (Hnth : forall j, (j < n)%nat ->
                   nth j rl 0 = if (j <=? i)%nat then fin_val (b32_x (attention_score Q K i j))
                                else (-1000000000)).
  { intros j Hj. unfold rl. rewrite (nth_map_lt _ _ _ _ 0%nat) by (rewrite length_seq; exact Hj).
    rewrite seq_nth by exact Hj. reflexivity. }
  assert (Hin0 : In r0 rl).
  { replace r0 with (nth j0 rl 0); [apply nth_In; lia|].
    rewrite Hnth by lia. apply Nat.leb_le in Hj0. rewrite Hj0, Hr0. reflexivity. }
  assert (Hnk : nth k rl 0 = -1000000000).
  { rewrite Hnth by lia. destruct (k <=? i)%nat eqn:E; [apply Nat.leb_le in E; lia|reflexivity]. }
  unfold attention_weights. fold n. rewrite Hrow.
  clearbody rl.
  destruct rl as [|l0 rest]; [cbn in Hlen; lia|].
  destruct (softmax_row_b32 l0 rest) as [Hs HS]. rewrite Hs.
  set (M := fold_left rmax rest l0) in *.
  assert (HM : r0 <= M).
  { pose proof (fold_rmax_ge rest l0) as [HM0 HMr]. fold M in HM0, HMr.
    destruct Hin0 as [<-|Hin0]; [exact HM0|]. rewrite Forall_forall in HMr. apply HMr, Hin0. }
  cbn [length] in Hlen.
  rewrite (nth_map_lt _ _ _ _ fzero) by (rewrite length_map; cbn [length]; lia).
  rewrite (nth_map_lt _ _ _ _ 0) by (cbn [length]; lia).
  rewrite Hnk, exp_b32_masked by (exact Hexp || lra).
  apply fdiv_zero_b32. exact HS.
Qed.

(** C5, corrected, on binary32: under the causal mask, row [i] of the
    attention output never depends on the rows [> i] of [K]. It does not
    depend on the rows [> i] of [V] either when the masked weights are
    exactly 0: when the computed (rounded) scores of row [i] are finite,
    one of them is at least [-1e9 + 150], and the values of [V] in those
    rows are finite. [std::exp] is any function with the properties
    [libm_exp_ok]. (The shapes: [K] and [V] have [rows_ Q] rows, [K] has
    [cols_ Q] columns.) *)
Theorem causal_attention_row_invariance (Q K K' V V' : Matrix b32) (i : nat) :
  rows_ K = rows_ Q -> rows_ K' = rows_ Q -> cols_ K = cols_ Q -> cols_ K' = cols_ Q ->
  rows_ V = rows_ Q -> rows_ V' = rows_ Q -> cols_ V' = cols_ V -> (i < rows_ Q)%nat ->
  (forall j k, (j <= i)%nat -> (k < cols_ Q)%nat -> mget K j k = mget K' j k) ->
  (forall k c, (k <= i)%nat -> (c < cols_ V)%nat -> mget V k c = mget V' k c) ->
  let mask := Some (create_attention_mask (rows_ Q)) in
  output_row (scaled_dot_product_attention Q K V mask) i <> None /\
  output_row (scaled_dot_product_attention Q K V mask) i =
  output_row (scaled_dot_product_attention Q K' V mask) i /\
  ((forall j, (j <= i)%nat -> is_fin (b32_x (attention_score Q K i j)) = true) ->
   (exists j r, (j <= i)%nat /\ b32_x (attention_score Q K i j) = Fin r /\
                -1000000000 + 150 <= r) ->
   (forall k c, (i < k < rows_ Q)%nat -> (c < cols_ V)%nat ->
      is_fin (b32_x (mget V k c)) = true /\ is_fin (b32_x (mget V' k c)) = true) ->
   output_row (scaled_dot_product_attention Q K V mask) i =
   output_row (scaled_dot_product_attention Q K' V' mask) i).
Proof.
  intros HKr HK'r HKc HK'c HVr HV'r HV'c Hi HK HV mask.
  assert (Hmask : match mask with
                  | Some mk => rows_ mk = rows_ Q /\ cols_ mk = rows_ Q
                  | None => True end) by (split; reflexivity).
  destruct (sdpa_spec Q K V mask HKr HKc HVr Hmask) as (o1 & H1 & Hc1 & Hm1).
  destruct (sdpa_spec Q K' V mask HK'r HK'c HVr Hmask) as (o2 & H2 & Hc2 & Hm2).
  destruct (sdpa_spec Q K' V' mask HK'r HK'c HV'r Hmask) as (o3 & H3 & Hc3 & Hm3).
  rewrite H1, H2, H3. unfold output_row. rewrite Hc1, Hc2, Hc3, HV'c.
  assert (Hw : attention_weights Q K mask i = attention_weights Q K' mask i).
  { unfold attention_weights. f_equal. apply map_ext_in. intros j Hj. apply in_seq in Hj.
    unfold mask. rewrite !causal_masked_score_b32 by lia.
    destruct (j <=? i)%nat eqn:E; [|reflexivity].
    apply Nat.leb_le in E. rewrite (attention_score_rows_b32 Q K K' i j); [reflexivity|].
    intros k Hk. apply HK; assumption. }
  split; [discriminate|]. split.
  - f_equal. apply map_ext_in. intros c Hc. apply in_seq in Hc.
    rewrite Hm1, Hm2 by lia. rewrite Hw. reflexivity.
  - intros Hfin Hbig HVfin.
    f_equal. apply map_ext_in. intros c Hc. apply in_seq in Hc.
    rewrite Hm1, Hm3 by lia. rewrite <- Hw.
    apply fold_left_ext_in. intros k acc Hk. apply in_seq in Hk.
    destruct (Nat.le_gt_cases k i) as [Hki|Hki].
    + rewrite HV by lia. reflexivity.
    + unfold mask. rewrite (causal_weight_masked_b32 Q K i k ltac:(lia) Hfin Hbig).
      destruct (HVfin k c ltac:(lia) ltac:(lia)) as [Hv Hv'].
      destruct (mget V k c) as [[v| | |]]; try discriminate.
      destruct (mget V' k c) as [[v'| | |]]; try discriminate.
      rewrite !fmul_zero_b32. reflexivity.
Qed.

End CausalB32.

Local Close Scope R_scope.

(** ** C6 on the binary32 model *)

Local Open Scope R_scope.

Section SoftmaxB32.
Context `{Libm}.
Hypothesis Hexp : libm_exp_ok libm_exp.

(** The exponential [softmax] takes of [(l - max) / temp], each step
    rounded: in [[0, 1]], and [1] at the maximum. *)
Lemma exp_div_b32 (l M tau : R) :
  l <= M -> 0 < tau ->
  exists y, libm_exp (round_x (xdiv (rnd (l - M)) (Fin tau))) = Fin y /\ 0 <= y <= 1.
Proof.
  intros Hl Htau.
  destruct (rnd_nonpos (l - M) ltac:(lra)) as [->|(y0 & -> & Hy0)].
  - cbn [xdiv round_x]. destruct (Rle_dec 0 tau) as [_|]; [|lra]. cbn [inf_of_sign].
    exists 0. split; [apply Hexp|lra].
  - rewrite xdiv_Fin by lra. cbn [round_x]. apply (exp_b32_nonpos Hexp).
    unfold Rdiv. assert (0 < / tau) by (apply Rinv_0_lt_compat; lra). nra.
Qed.

Lemma exp_div_b32_max (M tau : R) :
  0 < tau -> libm_exp (round_x (xdiv (rnd (M - M)) (Fin tau))) = Fin 1.
Proof.
  intros Htau. rewrite Rminus_diag, rnd_0, xdiv_Fin by lra. cbn [round_x].
  unfold Rdiv. rewrite Rmult_0_l. apply (exp_b32_zero Hexp).
Qed.

(** C6, corrected, on binary32: with a positive effective temperature
    [tau] (the argument when it is positive, the stored temperature
    otherwise) and finite logits, [softmax] returns one finite value in
    [[0, 1]] per logit. [std::exp] is any function with the properties
    [libm_exp_ok]. *)
Theorem softmax_positive_temperature (m : TinyLlamaModel b32) (logits : list R)
    (t : b32) (tau : R) :
  logits <> [] ->
  (if flt fzero t then t else temperature_ m) = B32 (Fin tau) ->
  0 < tau ->
  exists ps : list R,
    softmax m (map (fun l => B32 (Fin l)) logits) t = map (fun p => B32 (Fin p)) ps /\
    length ps = length logits /\
    Forall (fun p => 0 <= p <= 1) ps.
Proof.
  intros Hne Htemp Htau.
  destruct logits as [|l0 rest]; [congruence|].
  unfold softmax. change (map (fun l => B32 (Fin l)) (l0 :: rest))
    with (B32 (Fin l0) :: map (fun l => B32 (Fin l)) rest).
  cbv beta iota zeta. rewrite Htemp, fold_fmax_b32.
  set (M := fold_left rmax rest l0).
  change (B32 (Fin l0) :: map (fun l => B32 (Fin l)) rest)
    with (map (fun l => B32 (Fin l)) (l0 :: rest)).
  pose proof (fold_rmax_ge rest l0) as [HM0 HMr]. fold M in HM0, HMr.
  assert (Hle : forall l, In l (l0 :: rest) -> l <= M).
  { intros l [<-|Hl]; [lra|]. rewrite Forall_forall in HMr. apply HMr, Hl. }
  set (ev := map (fun l => fexp (fdiv (fsub (B32 (Fin l)) (B32 (Fin M))) (B32 (Fin tau))))
               (l0 :: rest)).
  assert (Hev : forall l, fexp (fdiv (fsub (B32 (Fin l)) (B32 (Fin M))) (B32 (Fin tau)))
                          = B32 (libm_exp (round_x (xdiv (rnd (l - M)) (Fin tau))))).
  { intros l. cbn [fexp fdiv fsub b32_arith b32_x]. rewrite xsub_Fin. reflexivity. }
  assert (Eev : map (fun l : b32 => fexp (fdiv (fsub l (B32 (Fin M))) (B32 (Fin tau))))
                  (map (fun l => B32 (Fin l)) (l0 :: rest)) = ev)
    by (unfold ev; rewrite map_map; reflexivity).
  rewrite Eev.
  assert (Hunit : Forall (fun e => exists y, e = B32 (Fin y) /\ 0 <= y <= 1) ev).
  { unfold ev. apply Forall_map, Forall_forall. intros l Hl. rewrite Hev.
    destruct (exp_div_b32 l M tau (Hle l Hl) Htau) as (y & Hy & Hb).
    exists y. rewrite Hy. split; [reflexivity|exact Hb]. }
  assert (Hone : In (B32 (Fin 1)) ev).
  { unfold ev. rewrite <- (exp_div_b32_max M tau Htau), <- Hev.
    apply (in_map (fun l => fexp (fdiv (fsub (B32 (Fin l)) (B32 (Fin M))) (B32 (Fin tau))))).
    destruct (fold_rmax_in rest l0) as [E|Hin]; [left; symmetry; exact E|right; exact Hin]. }
  assert (HS : b32_x (fold_left fadd ev fzero) = PInf \/
               exists s, b32_x (fold_left fadd ev fzero) = Fin s /\ 1 <= s).
  { apply fold_fadd_one; [exact Hunit|exact Hone|].
    rewrite b32_zero. right. exists 0. split; [reflexivity|lra]. }
  destruct (fold_left fadd ev fzero) as [sx] eqn:ES. cbn [b32_x] in HS.
  destruct (b32_unit_list (map (fun e => fdiv e (B32 sx)) ev)) as (ps & Hps & Hb).
  { apply Forall_map. eapply Forall_impl; [|exact Hunit].
    intros e (y & -> & Hy). destruct (fdiv_unit_b32 y sx Hy HS) as (p & Hp & Hpb).
    exists p. split; [exact Hp|exact Hpb]. }
  exists ps. split; [exact Hps|]. split; [|exact Hb].
  apply (f_equal (@length b32)) in Hps. rewrite !length_map in Hps. unfold ev in Hps.
  rewrite length_map in Hps. symmetry. exact Hps.
Qed.

End SoftmaxB32.

Local Close Scope R_scope.

(** *** Runs with a correctly rounded [std::exp] *)

Section CrLibm.
#[local] Existing Instance cr_libm.

Local Open Scope R_scope.

Lemma rnd_Z (z : Z) : (0 <= z <= 2 ^ 24)%Z -> rnd (IZR z) = Fin (IZR z) /\ rnd (- IZR z) = Fin (- IZR z).
Proof.
  intros Hz. destruct (Z.eq_dec z (2 ^ 24)) as [->|Hne].
  - replace (IZR (2 ^ 24)) with (IZR (2 ^ 23) * powerRZ 2 1)
      by (rewrite <- p2_IZR, <- p2_add by lia; rewrite p2_IZR by lia; reflexivity).
    apply rnd_exact; lia.
  - replace (IZR z) with (IZR z * powerRZ 2 0) by (simpl; ring). apply rnd_exact; lia.
Qed.

Lemma rnd_two : rnd 2 = Fin 2.
Proof. exact (proj1 (rnd_Z 2 ltac:(lia))). Qed.

Lemma rnd_half : rnd (1 / 2) = Fin (1 / 2).
Proof.
  replace (1 / 2) with (IZR 1 * powerRZ 2 (-1)) by (simpl; field).
  apply rnd_exact; lia.
Qed.

Lemma rnd_neg_1e9 : rnd (-1000000000) = Fin (-1000000000).
Proof.
  replace (-1000000000) with (- (IZR 1953125 * powerRZ 2 9)) by (simpl; ring).
  apply rnd_exact; lia.
Qed.

Lemma xR_exp_0_cr : libm_exp (rnd 0) = Fin 1.
Proof. exact (exp_b32_zero cr_libm_exp_ok). Qed.

Lemma sentinel_score_b32 : attention_score sentinel_Q32 sentinel_K32 0 0 = B32 (Fin (-1000000000)).
Proof.
  unfold attention_score. change (cols_ sentinel_Q32) with 1%nat. cbn [seq fold_left].
  change (mget sentinel_Q32 0 0) with (flit F_NEG_1E9 : b32).
  change (mget sentinel_K32 0 0) with (B32 (Fin 1)).
  rewrite b32_sentinel, b32_zero, b32_one.
  cbn [fadd fmul fdiv fsqrt f_of_Z b32_arith b32_x round_x xmul xadd xsqrt].
  change (IZR (Z.of_nat 1)) with 1. rewrite rnd_one. cbn [xsqrt].
  destruct (Rlt_dec 1 0); [lra|]. rewrite sqrt_1. cbn [round_x]. rewrite rnd_one.
  rewrite xdiv_Fin by lra. replace (1 / 1) with 1 by field. cbn [round_x]. rewrite rnd_one.
  replace (-1000000000 * 1) with (-1000000000) by ring. rewrite rnd_neg_1e9.
  cbn [xadd round_x]. replace (0 + -1000000000) with (-1000000000) by ring. rewrite rnd_neg_1e9.
  cbn [xmul round_x]. rewrite Rmult_1_r, rnd_neg_1e9. reflexivity.
Qed.

Lemma sentinel_weights_b32 :
  attention_weights sentinel_Q32 sentinel_K32 (Some (create_attention_mask 2)) 0 =
  [B32 (Fin (1 / 2)); B32 (Fin (1 / 2))].
Proof.
  unfold attention_weights. change (rows_ sentinel_Q32) with 2%nat.
  change (seq 0 2) with [0; 1]%nat. cbn [map].
  rewrite !causal_masked_score_b32 by lia. cbn [Nat.leb]. rewrite sentinel_score_b32.
  change [B32 (Fin (-1000000000)); B32 (Fin (-1000000000))]
    with (map (fun r => B32 (Fin r)) [-1000000000; -1000000000]).
  destruct (softmax_row_b32 cr_libm_exp_ok (-1000000000) [-1000000000]) as [Hs _].
  rewrite Hs. cbn [map fold_left].
  unfold rmax. destruct (Rlt_dec (-1000000000) (-1000000000)); [lra|].
  rewrite Rminus_diag, xR_exp_0_cr, b32_zero.
  cbn [fadd fdiv b32_arith b32_x round_x xadd].
  rewrite Rplus_0_l, rnd_one. cbn [xadd round_x].
  replace (1 + 1) with 2 by ring. rewrite rnd_two.
  rewrite xdiv_Fin by lra. cbn [round_x]. rewrite rnd_half. reflexivity.
Qed.

(** C5, counterexample, on binary32: when the only unmasked score of
    row 0 is itself [-1e9] (query [-1e9f], key [1]), the masked position
    1 gets weight 1/2, and output row 0 changes with row 1 of [V] (0 with
    [V1], 1 with [V2], whose row 0 is the same). *)
Lemma causal_attention_sentinel_leak :
  let mask := Some (create_attention_mask 2) in
  b32_x (attention_score sentinel_Q32 sentinel_K32 0 0) = Fin (-1000000000) /\
  mget sentinel_V1_32 0 0 = mget sentinel_V2_32 0 0 /\
  output_row (scaled_dot_product_attention sentinel_Q32 sentinel_K32 sentinel_V1_32 mask) 0 =
    Some [B32 (Fin 0)] /\
  output_row (scaled_dot_product_attention sentinel_Q32 sentinel_K32 sentinel_V2_32 mask) 0 =
    Some [B32 (Fin 1)].
Proof.
  intros mask. split; [rewrite sentinel_score_b32; reflexivity|]. split; [reflexivity|].
  assert (Hmask : match mask with
                  | Some mk => rows_ mk = rows_ sentinel_Q32 /\ cols_ mk = rows_ sentinel_Q32
                  | None => True end) by (split; reflexivity).
  split.
  - destruct (sdpa_spec sentinel_Q32 sentinel_K32 sentinel_V1_32 mask eq_refl eq_refl eq_refl Hmask)
      as (o & Ho & Hc & Hm).
    rewrite Ho. unfold output_row. rewrite Hc. change (seq 0 (cols_ sentinel_V1_32)) with [0%nat].
    cbn [map]. rewrite Hm by (cbn; lia). unfold mask. rewrite sentinel_weights_b32.
    change (rows_ sentinel_Q32) with 2%nat. cbn [seq fold_left nth].
    change (mget sentinel_V1_32 0 0) with (B32 (Fin 0)).
    change (mget sentinel_V1_32 1 0) with (B32 (Fin 0)).
    rewrite b32_zero. cbn [fadd fmul b32_arith b32_x round_x xadd xmul].
    rewrite Rmult_0_r, rnd_0. cbn [xadd round_x]. rewrite Rplus_0_l, rnd_0.
    cbn [xadd round_x]. rewrite Rplus_0_l, rnd_0. reflexivity.
  - destruct (sdpa_spec sentinel_Q32 sentinel_K32 sentinel_V2_32 mask eq_refl eq_refl eq_refl Hmask)
      as (o & Ho & Hc & Hm).
    rewrite Ho. unfold output_row. rewrite Hc. change (seq 0 (cols_ sentinel_V2_32)) with [0%nat].
    cbn [map]. rewrite Hm by (cbn; lia). unfold mask. rewrite sentinel_weights_b32.
    change (rows_ sentinel_Q32) with 2%nat. cbn [seq fold_left nth].
    change (mget sentinel_V2_32 0 0) with (B32 (Fin 0)).
    change (mget sentinel_V2_32 1 0) with (B32 (Fin 2)).
    rewrite b32_zero. cbn [fadd fmul b32_arith b32_x round_x xadd xmul].
    rewrite Rmult_0_r, rnd_0. cbn [xadd round_x]. rewrite Rplus_0_l, rnd_0.
    replace (1 / 2 * 2) with 1 by field. rewrite rnd_one.
    cbn [xadd round_x]. rewrite Rplus_0_l, rnd_one. reflexivity.
Qed.

Lemma causal_attention_row_invariance_witness :
  libm_exp_ok libm_exp /\
  let Q := mkMatrix 2 1 [B32 (Fin 1); B32 (Fin 0)] in
  let K' := mkMatrix 2 1 [B32 (Fin 1); B32 (Fin 5)] in
  let mask := Some (create_attention_mask 2) in
  output_row (scaled_dot_product_attention Q sentinel_K32 sentinel_V1_32 mask) 0 <> None /\
  output_row (scaled_dot_product_attention Q sentinel_K32 sentinel_V1_32 mask) 0 =
  output_row (scaled_dot_product_attention Q K' sentinel_V1_32 mask) 0 /\
  ((forall j, (j <= 0)%nat -> is_fin (b32_x (attention_score Q sentinel_K32 0 j)) = true) ->
   (exists j r, (j <= 0)%nat /\ b32_x (attention_score Q sentinel_K32 0 j) = Fin r /\
                -1000000000 + 150 <= r) ->
   (forall k c, (0 < k < 2)%nat -> (c < 1)%nat ->
      is_fin (b32_x (mget sentinel_V1_32 k c)) = true /\
      is_fin (b32_x (mget sentinel_V2_32 k c)) = true) ->
   output_row (scaled_dot_product_attention Q sentinel_K32 sentinel_V1_32 mask) 0 =
   output_row (scaled_dot_product_attention Q K' sentinel_V2_32 mask) 0).
Proof.
  split; [exact cr_libm_exp_ok|].
  apply (causal_attention_row_invariance cr_libm_exp_ok (mkMatrix 2 1 [B32 (Fin 1); B32 (Fin 0)])
           sentinel_K32 (mkMatrix 2 1 [B32 (Fin 1); B32 (Fin 5)]) sentinel_V1_32 sentinel_V2_32 0);
    try reflexivity; try (cbn; lia).
  - intros j k Hj Hk. cbn in Hk. destruct j; [|lia]. destruct k; [reflexivity|lia].
  - intros k c Hk Hc. cbn in Hc. destruct k; [|lia]. destruct c; [reflexivity|lia].
Defined.

Lemma softmax_positive_temperature_witness :
  libm_exp_ok libm_exp /\
  exists ps : list R,
    softmax empty_model32 (map (fun l => B32 (Fin l)) [0; 1]) (B32 (Fin 2)) =
      map (fun p => B32 (Fin p)) ps /\
    length ps = length [0; 1] /\
    Forall (fun p => 0 <= p <= 1) ps.
Proof.
  split; [exact cr_libm_exp_ok|].
  apply (softmax_positive_temperature cr_libm_exp_ok empty_model32 [0; 1] (B32 (Fin 2)) 2).
  - discriminate.
  - rewrite b32_zero. cbn [flt b32_arith b32_x xlt].
    destruct (Rlt_dec 0 2); [reflexivity|lra].
  - lra.
Defined.

Lemma fold_Rplus_repeat (c a : R) (n : nat) :
  fold_left Rplus (repeat c n) a = a + INR n * c.
Proof.
  revert a. induction n as [|n IH]; intros a; cbn [repeat fold_left].
  - cbn [INR]. ring.
  - rewrite IH, S_INR. ring.
Qed.

(** Sums of ones are exact up to [2^24]. *)
Lemma fold_fadd_ones (k : nat) (a : Z) :
  (0 <= a)%Z -> (a + Z.of_nat k <= 2 ^ 24)%Z ->
  fold_left fadd (repeat (B32 (Fin 1)) k) (B32 (Fin (IZR a))) = B32 (Fin (IZR (a + Z.of_nat k))).
Proof.
  revert a. induction k as [|k IH]; intros a Ha Hk; cbn [repeat fold_left].
  - rewrite Z.add_0_r. reflexivity.
  - cbn [fadd b32_arith b32_x xadd round_x].
    rewrite <- plus_IZR, (proj1 (rnd_Z (a + 1) ltac:(lia))).
    rewrite IH by lia. do 3 f_equal. lia.
Qed.

(** From [2^24] on, adding [1] is a tie that rounds back to [2^24]. *)
Lemma fold_fadd_ones_stall (k : nat) :
  fold_left fadd (repeat (B32 (Fin 1)) k) (B32 (Fin (powerRZ 2 24))) = B32 (Fin (powerRZ 2 24)).
Proof.
  induction k as [|k IH]; cbn [repeat fold_left]; [reflexivity|].
  cbn [fadd b32_arith b32_x xadd round_x]. rewrite rnd_tie_2_24. exact IH.
Qed.

Lemma Z_of_nat_2_24 : Z.of_nat (2 ^ 24) = (2 ^ 24)%Z.
Proof. rewrite Nat2Z.inj_pow. reflexivity. Qed.

Lemma fold_fadd_ones_2_25 :
  fold_left fadd (repeat (B32 (Fin 1)) (2 ^ 25)) fzero = B32 (Fin (powerRZ 2 24)).
Proof.
  change (2 ^ 25)%nat with (2 * 2 ^ 24)%nat.
  replace (2 * 2 ^ 24)%nat with (2 ^ 24 + 2 ^ 24)%nat by lia.
  rewrite repeat_app, fold_left_app, b32_zero.
  change 0 with (IZR 0). rewrite fold_fadd_ones by (try rewrite Z_of_nat_2_24; lia).
  rewrite Z_of_nat_2_24, Z.add_0_l, <- p2_IZR by lia. apply fold_fadd_ones_stall.
Qed.

Lemma b32_flt_max : (flit F_FLT_MAX : b32) = B32 (Fin ((powerRZ 2 24 - 1) * powerRZ 2 104)).
Proof.
  unfold flit, b32_lit, b32_value, F_FLT_MAX. cbn -[IZR powerRZ]. f_equal. f_equal.
  f_equal. rewrite p2_IZR by lia. rewrite <- minus_IZR. reflexivity.
Qed.

Lemma b32_half : (flit F_HALF : b32) = B32 (Fin (1 / 2)).
Proof.
  unfold flit, b32_lit, b32_value, F_HALF. cbn -[IZR powerRZ]. f_equal. f_equal.
  simpl. field.
Qed.

Lemma fold_rmax_repeat (n : nat) : fold_left rmax (repeat 0 n) 0 = 0.
Proof.
  induction n as [|n IH]; [reflexivity|]. cbn [repeat fold_left].
  unfold rmax at 2. destruct (Rlt_dec 0 0); [lra|]. exact IH.
Qed.

(** [n] equal logits [0] at temperature [1]: every exponential is [1]. *)
Lemma softmax_equal_logits (n : nat) :
  (0 < n)%nat ->
  softmax empty_model32 (repeat (B32 (Fin 0)) n) (flit F_ONE) =
  map (fun e => fdiv e (fold_left fadd (repeat (B32 (Fin 1)) n) fzero)) (repeat (B32 (Fin 1)) n).
Proof.
  intros Hn. destruct n as [|n]; [lia|]. unfold softmax. cbn [repeat]. rewrite b32_one.
  cbv beta iota zeta. rewrite b32_zero. cbn [flt b32_arith b32_x xlt].
  destruct (Rlt_dec 0 1); [|lra].
  replace (repeat (B32 (Fin 0)) n) with (map (fun r => B32 (Fin r)) (repeat 0 n))
    by apply map_repeat.
  rewrite fold_fmax_b32, fold_rmax_repeat, map_repeat.
  assert (E : fexp (fdiv (fsub (B32 (Fin 0)) (B32 (Fin 0))) (B32 (Fin 1))) = B32 (Fin 1)).
  { cbn [fexp fdiv fsub b32_arith b32_x]. rewrite xsub_Fin, Rminus_diag. cbn [round_x].
    rewrite rnd_0, xdiv_Fin by lra. cbn [round_x]. unfold Rdiv. rewrite Rmult_0_l.
    rewrite xR_exp_0_cr. reflexivity. }
  cbn [map]. rewrite map_repeat, E. reflexivity.
Qed.

Lemma rnd_twice_flt_max : rnd ((powerRZ 2 24 - 1) * powerRZ 2 104 / (1 / 2)) = PInf.
Proof.
  pose proof (p2_pos 103) as Hp103. pose proof (p2_add 24 104) as E128.
  pose proof (p2_add 1 103) as E104. change (1 + 103)%Z with 104%Z in E104.
  change (powerRZ 2 1) with (2 * 1) in E104. change (24 + 104)%Z with 128%Z in E128.
  pose proof (p2_ge1 24 ltac:(lia)) as H24. pose proof (p2_lt 0 24 ltac:(lia)) as H24'.
  change (powerRZ 2 0) with 1 in H24'.
  assert (Hr : (powerRZ 2 24 - 1) * powerRZ 2 104 / (1 / 2) = 2 * (powerRZ 2 128 - powerRZ 2 104))
    by (rewrite E128; field).
  rewrite Hr. unfold rnd, b32_overflow.
  assert (Hle : powerRZ 2 128 - powerRZ 2 103 <= 2 * (powerRZ 2 128 - powerRZ 2 104)).
  { assert (powerRZ 2 104 * 2 <= powerRZ 2 128).
    { rewrite E128. assert (2 <= powerRZ 2 24) by (pose proof (p2_mono 1 24 ltac:(lia)) as Hm;
        change (powerRZ 2 1) with (2 * 1) in Hm; lra). nra. }
    lra. }
  assert (Hpos : 0 < 2 * (powerRZ 2 128 - powerRZ 2 104)) by lra.
  rewrite Rabs_right by lra.
  destruct (Rle_dec (powerRZ 2 128 - powerRZ 2 103) (2 * (powerRZ 2 128 - powerRZ 2 104))); [|lra].
  destruct (Rlt_dec 0 (2 * (powerRZ 2 128 - powerRZ 2 104))); [reflexivity|lra].
Qed.

(** C6, counterexample, on binary32 with a correctly rounded [std::exp]:
    (a) with stored temperature [0] and the default argument [-1] the
    result is [NaN]; (b) [2^25] equal logits give [2^25] entries
    [2^-24] whose sum is [2], since the float sum of the exponentials
    stops at [2^24]; (c) for the logit [FLT_MAX] at temperature [0.5] the
    code returns [[1]] while the spec's formulation, dividing first,
    overflows to [+inf] and returns [[NaN]]. *)
Lemma softmax_b32_counterexamples :
  softmax (set_temperature (B32 (Fin 0)) empty_model32) [B32 (Fin 0)] (flit F_NEG_ONE) = [B32 NaN] /\
  (exists ps : list R,
      softmax empty_model32 (repeat (B32 (Fin 0)) (2 ^ 25)) (flit F_ONE) =
        map (fun p => B32 (Fin p)) ps /\
      fold_left Rplus ps 0 = 2) /\
  softmax empty_model32 [flit F_FLT_MAX] (flit F_HALF) = [B32 (Fin 1)] /\
  softmax_spec [flit F_FLT_MAX] (flit F_HALF) = [B32 NaN].
Proof.
  split; [|split; [|split]].
  - unfold softmax. rewrite b32_neg_one, b32_zero.
    cbn [flt b32_arith b32_x xlt set_temperature temperature_ fold_left].
    destruct (Rlt_dec 0 (-1)); [lra|].
    cbn [map fold_left fadd fsub fdiv fexp b32_arith b32_x xadd xneg round_x].
    rewrite xsub_Fin, Rminus_diag. cbn [round_x]. rewrite rnd_0. cbn [xdiv].
    destruct (Req_EM_T 0 0); [|congruence]. reflexivity.
  - exists (repeat (powerRZ 2 (-24)) (2 ^ 25)). split.
    + rewrite softmax_equal_logits by (apply Nat.neq_0_lt_0, Nat.pow_nonzero; lia).
      rewrite fold_fadd_ones_2_25, !map_repeat. f_equal.
      cbn [fdiv b32_arith b32_x]. rewrite xdiv_Fin by (pose proof (p2_pos 24); lra).
      cbn [round_x]. replace (1 / powerRZ 2 24) with (IZR 1 * powerRZ 2 (-24)).
      * rewrite (proj1 (rnd_exact 1 (-24) ltac:(lia) ltac:(lia))). f_equal. f_equal. ring.
      * pose proof (p2_opp 24) as Hp. pose proof (p2_pos 24).
        assert (Hi : powerRZ 2 (-24) = / powerRZ 2 24).
        { change (-24)%Z with (- (24))%Z. apply Rmult_eq_reg_r with (powerRZ 2 24); [|lra].
          rewrite Hp, Rinv_l; lra. }
        rewrite Hi. change (IZR 1) with 1. unfold Rdiv. ring.
    + rewrite fold_Rplus_repeat, pow_INR. cbn [INR].
      rewrite pow_powerRZ, <- p2_add. change (Z.of_nat 25 + -24)%Z with 1%Z.
      simpl. ring.
  - unfold softmax. rewrite b32_flt_max, b32_half, b32_zero.
    cbn [flt b32_arith b32_x xlt]. destruct (Rlt_dec 0 (1 / 2)); [|lra].
    cbn [fold_left map fexp fdiv fsub fadd b32_arith b32_x].
    rewrite xsub_Fin, Rminus_diag. cbn [round_x]. rewrite rnd_0, xdiv_Fin by lra.
    replace (0 / (1 / 2)) with 0 by field. cbn [round_x]. rewrite xR_exp_0_cr.
    cbn [xadd round_x]. rewrite Rplus_0_l, rnd_one, xdiv_Fin by lra.
    replace (1 / 1) with 1 by field. cbn [round_x]. rewrite rnd_one. reflexivity.
  - unfold softmax_spec. rewrite b32_flt_max, b32_half, b32_zero.
    cbn [map fdiv b32_arith b32_x]. rewrite xdiv_Fin by lra. cbn [round_x].
    rewrite rnd_twice_flt_max.
    cbn [fold_left map fexp fdiv fsub fadd b32_arith b32_x xadd xneg round_x]. cbn [libm_exp cr_libm].
    reflexivity.
Qed.

Local Close Scope R_scope.
End CrLibm.

(** ** C2 *)

Lemma size_of_int_small (z : Z) : 0 <= z < 2 ^ 64 -> size_of_int z = z.
Proof. intros Hz. unfold size_of_int, size_t_modulus. apply Z.mod_small. exact Hz. Qed.

Lemma read_u32_write (z : Z) (rest : list byte) :
  read_u32 (write_int z ++ rest) = Ok (le_value (write_int z), rest).
Proof.
  unfold read_u32. rewrite read_bytes_app by apply length_le_bytes. reflexivity.
Qed.

Lemma read_int_write (z : Z) (rest : list byte) :
  0 <= z < 2 ^ 31 -> read_int (write_int z ++ rest) = Ok (z, rest).
Proof.
  intros Hz. unfold read_int. rewrite read_u32_write. cbn [bind].
  unfold write_int. rewrite le_value_le_bytes by (unfold INT_BYTES; simpl; lia).
  unfold int_of_u32. replace (z <? 2 ^ 31) with true by (symmetry; apply Z.ltb_lt; lia).
  reflexivity.
Qed.

Lemma read_size_write (z : Z) (rest : list byte) :
  0 <= z < 2 ^ 64 -> read_size (write_size z ++ rest) = Ok (z, rest).
Proof.
  intros Hz. unfold read_size, write_size.
  rewrite read_bytes_app by apply length_le_bytes.
  rewrite le_value_le_bytes by (unfold SIZE_T_BYTES; simpl; lia). reflexivity.
Qed.

Lemma read_floats_bytes (l : list f32) (n : Z) (rest : list byte) :
  Z.to_nat (n mod size_t_modulus) = length l -> Forall f32_in_range l ->
  read_floats n (float_bytes l ++ rest) = Ok (l, rest).
Proof.
  intros Hn Hl. unfold read_floats. rewrite Hn.
  rewrite read_bytes_app by (rewrite length_float_bytes; unfold INT_BYTES; lia).
  rewrite <- (app_nil_r (float_bytes l)), parse_float_bytes by exact Hl. reflexivity.
Qed.

Lemma f32_in_range_lit (w : Z) : 0 <= w < 2 ^ 32 -> f32_in_range (flit w).
Proof. intros Hw. exact Hw. Qed.

Lemma mismatch2_same (r c : Z) :
  0 <= r < 2 ^ 64 -> 0 <= c < 2 ^ 64 -> mismatch2 r c r c = false.
Proof.
  intros Hr Hc. unfold mismatch2. rewrite !size_of_int_small by assumption.
  rewrite !Z.eqb_refl. reflexivity.
Qed.

Lemma read_layer_matrix_dummy (what : string) (l r c : Z) (x : f32) (rest : list byte) :
  0 <= r < 2 ^ 31 -> 0 <= c < 2 ^ 31 -> f32_in_range x ->
  read_layer_matrix what l r c (write_dummy_matrix r c x ++ rest) =
  Ok (dummy_matrix r c x, rest).
Proof.
  intros Hr Hc Hx. unfold read_layer_matrix, write_dummy_matrix.
  rewrite <- !app_assoc.
  rewrite read_size_write by lia. cbn [bind].
  rewrite read_size_write by lia. cbn [bind].
  rewrite mismatch2_same by lia.
  unfold read_matrix.
  assert (Hk : Z.to_nat ((r * c) mod size_t_modulus) = (Z.to_nat r * Z.to_nat c)%nat).
  { unfold size_t_modulus. rewrite Z.mod_small by nia. apply Z2Nat.inj_mul; lia. }
  rewrite Hk. rewrite read_floats_bytes.
  - reflexivity.
  - rewrite Hk, repeat_length. reflexivity.
  - apply Forall_forall. intros y Hy. apply repeat_spec in Hy. subst y. exact Hx.
Qed.

Lemma read_layer_vector_dummy (what : string) (l n : Z) (x : f32) (rest : list byte) :
  0 <= n < 2 ^ 31 -> f32_in_range x ->
  read_layer_vector what l n (write_dummy_vector n x ++ rest) =
  Ok (repeat x (Z.to_nat n), rest).
Proof.
  intros Hn Hx. unfold read_layer_vector, write_dummy_vector.
  rewrite <- !app_assoc.
  rewrite read_size_write by lia. cbn [bind].
  rewrite size_of_int_small, Z.eqb_refl by lia. cbn [negb].
  rewrite read_floats_bytes.
  - reflexivity.
  - rewrite repeat_length. unfold size_t_modulus. rewrite Z.mod_small by lia. reflexivity.
  - apply Forall_forall. intros y Hy. apply repeat_spec in Hy. subst y. exact Hx.
Qed.

Lemma list_update_compose {T} (k : nat) (f g : T -> T) (l : list T) :
  list_update k g (list_update k f l) = list_update k (fun b => g (f b)) l.
Proof.
  revert k. induction l as [|x l IH]; intros k; [destruct k; reflexivity|].
  destruct k; cbn; [reflexivity|]. rewrite IH. reflexivity.
Qed.

Lemma config_update_layer (m : TinyLlamaModel f32) (l : Z) f :
  config_ (update_layer m l f) = config_ m.
Proof. reflexivity. Qed.

Lemma config_in_range_fields (c : ModelConfig) :
  config_in_range c ->
  0 <= model_dim c < 2 ^ 31 /\ 0 <= num_layers c < 2 ^ 31 /\ 0 <= num_heads c < 2 ^ 31 /\
  0 <= ffn_hidden_dim c < 2 ^ 31 /\ 0 <= max_sequence_length c < 2 ^ 31 /\
  0 <= vocab_size c < 2 ^ 31.
Proof.
  unfold config_in_range. intros Hc. rewrite Forall_forall in Hc.
  repeat split; apply Hc; cbn; tauto.
Qed.


(** One layer of dummy data reads back into [dummy_block]. *)
Lemma load_layer_dummy (m : TinyLlamaModel f32) (l : Z) (rest : list byte) :
  config_in_range (config_ m) -> 0 <= l < num_layers (config_ m) ->
  (let* '(m, s) := load_attention_weights m (write_dummy_layer (config_ m) ++ rest) l in
   let* '(m, s) := load_ffn_weights m s l in
   load_layer_norm_weights m s l) = Ok (update_layer m l (dummy_block (config_ m)), rest).
Proof.
  intros Hc Hl.
  destruct (config_in_range_fields _ Hc) as (Hmd & Hnl & Hnh & Hhd & Hms & Hvs).
  unfold write_dummy_layer. cbv zeta.
  rewrite !size_of_int_small by lia.
  cbn [flat_map seq]. rewrite app_nil_r. rewrite <- !app_assoc.
  assert (Hchk : check_layer_index (config_ m) l = Ok tt).
  { unfold check_layer_index.
    destruct (l <? 0) eqn:E1; [apply Z.ltb_lt in E1; lia|].
    destruct (l >=? num_layers (config_ m)) eqn:E2; [rewrite Z.geb_leb, Z.leb_le in E2; lia|].
    reflexivity. }
  unfold load_attention_weights. cbv zeta. rewrite Hchk. cbn [bind].
  repeat (first [ rewrite config_update_layer | rewrite Hchk
                | rewrite read_layer_matrix_dummy by (lia || f32_lit_range)
                | rewrite read_layer_vector_dummy by (lia || f32_lit_range)
                | progress unfold load_ffn_weights
                | progress unfold load_layer_norm_weights ]; cbv zeta; cbn [bind]).
  f_equal. f_equal. unfold update_layer, with_blocks. cbn [transformer_blocks_ tokenizer_
    embedding_weights_ position_embeddings_ output_projection_ config_ temperature_].
  rewrite !list_update_compose. reflexivity.
Qed.

Lemma with_blocks_twice {F} (m : TinyLlamaModel F) (a b : list (TransformerBlock F)) :
  with_blocks (with_blocks m a) b = with_blocks m b.
Proof. destruct m; reflexivity. Qed.

Lemma with_blocks_self {F} (m : TinyLlamaModel F) : with_blocks m (transformer_blocks_ m) = m.
Proof. destruct m; reflexivity. Qed.

Lemma load_layers_dummy (c : ModelConfig) (n i : nat) (m : TinyLlamaModel f32)
    (rest : list byte) :
  config_ m = c -> config_in_range c -> (i + n <= Z.to_nat (num_layers c))%nat ->
  for_loop n i (fun layer '(m, s) =>
      let* '(m, s) := load_attention_weights m s (Z.of_nat layer) in
      let* '(m, s) := load_ffn_weights m s (Z.of_nat layer) in
      load_layer_norm_weights m s (Z.of_nat layer))
    (m, flat_map (fun _ => write_dummy_layer c) (seq i n) ++ rest) =
  Ok (with_blocks m (fold_left (fun bs l => list_update l (dummy_block c) bs) (seq i n)
                       (transformer_blocks_ m)), rest).
Proof.
  revert i m. induction n as [|n IH]; intros i m Hm Hc Hn.
  - cbn. rewrite with_blocks_self. reflexivity.
  - cbn [seq flat_map for_loop fold_left]. rewrite <- app_assoc.
    subst c. rewrite load_layer_dummy by (assumption || lia). cbn [bind].
    rewrite IH by (reflexivity || assumption || lia).
    unfold update_layer. rewrite with_blocks_twice, Nat2Z.id. reflexivity.
Qed.

Lemma list_update_apply_first {T} (n : nat) (f : T -> T) (bs : list T) :
  list_update n f (apply_first n f bs) = apply_first (S n) f bs.
Proof.
  revert bs. induction n as [|n IH]; intros bs; destruct bs as [|x bs]; try reflexivity.
  cbn [apply_first list_update]. f_equal. apply IH.
Qed.

Lemma fold_list_update_seq {T} (n : nat) (f : T -> T) (bs : list T) :
  fold_left (fun bs l => list_update l f bs) (seq 0 n) bs = apply_first n f bs.
Proof.
  induction n as [|n IH]; [reflexivity|].
  rewrite seq_S, fold_left_app, IH. cbn [fold_left]. apply list_update_apply_first.
Qed.

Lemma length_mresize {F} `{FloatLit F} (r c : Z) (w : Matrix F) :
  0 <= r < 2 ^ 31 -> 0 <= c < 2 ^ 31 ->
  length (data_ (mresize (Z.to_nat r) (Z.to_nat c) w)) = (Z.to_nat r * Z.to_nat c)%nat.
Proof.
  intros Hr Hc. unfold mresize. cbn [data_]. rewrite length_vec_resize.
  rewrite N.mod_small.
  - rewrite <- Nat2N.inj_mul. apply Nat2N.id.
  - rewrite <- Nat2N.inj_mul. apply N2Z.inj_lt. rewrite nat_N_Z.
    rewrite Nat2Z.inj_mul, !Z2Nat.id by lia. 
    assert (r * c <= 2 ^ 31 * 2 ^ 31) by (apply Z.mul_le_mono_nonneg; lia).
    change (Z.of_N (2 ^ 64)) with (2 ^ 64). lia.
Qed.

Lemma write_matrix_ok (w : Matrix f32) (r c : Z) (rest : list byte) :
  matrix_ok w r c -> 0 <= r < 2 ^ 31 -> 0 <= c < 2 ^ 31 ->
  write_matrix w ++ rest = write_size r ++ write_size c ++ float_bytes (data_ w) ++ rest.
Proof.
  intros (Hr & Hc & _ & _) Hr' Hc'. unfold write_matrix. rewrite Hr, Hc, !Z2Nat.id by lia.
  rewrite <- !app_assoc. reflexivity.
Qed.

Lemma read_floats_matrix_ok (w w0 : Matrix f32) (r c : Z) (rest : list byte) :
  matrix_ok w r c -> 0 <= r < 2 ^ 31 -> 0 <= c < 2 ^ 31 ->
  read_floats (Z.of_nat (length (data_ (mresize (Z.to_nat r) (Z.to_nat c) w0))))
    (float_bytes (data_ w) ++ rest) = Ok (data_ w, rest).
Proof.
  intros (Hr & Hc & Hl & Hb) Hr' Hc'. rewrite length_mresize by assumption.
  apply read_floats_bytes; [|exact Hb].
  rewrite Hl, Hr, Hc. unfold size_t_modulus. rewrite Z.mod_small; [apply Nat2Z.id|].
  rewrite Nat2Z.inj_mul, !Z2Nat.id by lia.
  assert (r * c <= 2 ^ 31 * 2 ^ 31) by (apply Z.mul_le_mono_nonneg; lia). lia.
Qed.

Lemma mkMatrix_mresize_ok (w w0 : Matrix f32) (r c : Z) :
  matrix_ok w r c ->
  mkMatrix (rows_ (mresize (Z.to_nat r) (Z.to_nat c) w0))
    (cols_ (mresize (Z.to_nat r) (Z.to_nat c) w0)) (data_ w) = w.
Proof.
  intros (Hr & Hc & _ & _). destruct w as [wr wc wd]. cbn in *. subst. reflexivity.
Qed.

Lemma load_saved_model (m : TinyLlamaModel f32) (fname : string) :
  let c := config_ m in
  config_in_range c ->
  matrix_ok (embedding_weights_ m) (vocab_size c) (model_dim c) ->
  matrix_ok (position_embeddings_ m) (max_sequence_length c) (model_dim c) ->
  matrix_ok (output_projection_ m) (model_dim c) (vocab_size c) ->
  load_model_weights fname (Some (save_model_weights m)) m =
  Ok (with_blocks m (apply_first (Z.to_nat (num_layers c)) (dummy_block c)
                       (transformer_blocks_ m))).
Proof.
  destruct m as [tok emb pos bs out c temp]. cbn [config_ embedding_weights_
    position_embeddings_ output_projection_ transformer_blocks_]. cbv zeta.
  intros Hc Hemb Hpos Hout.
  destruct (config_in_range_fields _ Hc) as (Hmd & Hnl & Hnh & Hhd & Hms & Hvs).
  assert (Hmag : le_value (write_int EXPECTED_MAGIC) = EXPECTED_MAGIC) by reflexivity.
  assert (Hver : le_value (write_int SUPPORTED_VERSION) = SUPPORTED_VERSION) by reflexivity.
  unfold load_model_weights, save_model_weights, load_body. cbv zeta.
  cbn [config_ embedding_weights_ position_embeddings_ output_projection_
    transformer_blocks_ tokenizer_ temperature_].
  rewrite <- (app_nil_r (write_matrix out)).
  rewrite <- ?app_assoc.
  rewrite read_u32_write. cbn [bind]. rewrite Hmag, Z.eqb_refl. cbn [negb].
  rewrite read_u32_write. cbn [bind]. rewrite Hver, Z.eqb_refl. cbn [negb].
  repeat (rewrite read_int_write by lia; cbn [bind]).
  rewrite read_u32_write. cbn [bind].
  cbn [model_dim num_layers num_heads vocab_size]. rewrite !Z.eqb_refl. cbn [negb].
  rewrite (write_matrix_ok emb (vocab_size c) (model_dim c)) by (exact Hemb || lia). rewrite <- ?app_assoc.
  rewrite read_size_write by lia. cbn [bind].
  rewrite read_size_write by lia. cbn [bind].
  rewrite mismatch2_same by lia.
  rewrite (read_floats_matrix_ok emb _ (vocab_size c) (model_dim c)) by (exact Hemb || lia). cbn [bind].
  rewrite (mkMatrix_mresize_ok emb _ (vocab_size c) (model_dim c)) by exact Hemb.
  cbn [config_ embedding_weights_ position_embeddings_ output_projection_
    transformer_blocks_ tokenizer_ temperature_].
  rewrite (write_matrix_ok pos (max_sequence_length c) (model_dim c)) by (exact Hpos || lia). rewrite <- ?app_assoc.
  rewrite read_size_write by lia. cbn [bind].
  rewrite read_size_write by lia. cbn [bind].
  rewrite mismatch2_same by lia.
  rewrite (read_floats_matrix_ok pos _ (max_sequence_length c) (model_dim c)) by (exact Hpos || lia). cbn [bind].
  rewrite (mkMatrix_mresize_ok pos _ (max_sequence_length c) (model_dim c)) by exact Hpos.
  cbn [config_ embedding_weights_ position_embeddings_ output_projection_
    transformer_blocks_ tokenizer_ temperature_].
  rewrite (load_layers_dummy c (Z.to_nat (num_layers c)) 0) by (reflexivity || assumption || lia).
  cbn [bind]. rewrite fold_list_update_seq.
  cbn [with_blocks config_ embedding_weights_ position_embeddings_ output_projection_
    transformer_blocks_ tokenizer_ temperature_].
  rewrite (write_matrix_ok out (model_dim c) (vocab_size c)) by (exact Hout || lia). rewrite <- ?app_assoc.
  rewrite read_size_write by lia. cbn [bind].
  rewrite read_size_write by lia. cbn [bind].
  rewrite mismatch2_same by lia.
  rewrite (read_floats_matrix_ok out _ (model_dim c) (vocab_size c)) by (exact Hout || lia). cbn [bind].
  rewrite (mkMatrix_mresize_ok out _ (model_dim c) (vocab_size c)) by exact Hout.
  reflexivity.
Qed.

(** C2 (amended): [save_model_weights] writes the model's current token
    embeddings, position embeddings and output projection, but for every
    layer it writes placeholder tensors of the configured shapes ([0.1] in
    the attention and FFN matrices, [0] in the biases, [1] in the
    layer-norm weights, [0] in the layer-norm biases) whatever the layer's
    in-memory weights are: the file does not depend on the transformer
    blocks, and loading it back into the model restores the embeddings and
    the output projection and sets the tensors of each of the first
    [num_layers] blocks to those placeholders. *)
Theorem save_model_weights_layer_placeholders (m : TinyLlamaModel f32)
    (bs : list (TransformerBlock f32)) (fname : string) :
  let c := config_ m in
  config_in_range c ->
  matrix_ok (embedding_weights_ m) (vocab_size c) (model_dim c) ->
  matrix_ok (position_embeddings_ m) (max_sequence_length c) (model_dim c) ->
  matrix_ok (output_projection_ m) (model_dim c) (vocab_size c) ->
  save_model_weights (with_blocks m bs) = save_model_weights m /\
  load_model_weights fname (Some (save_model_weights m)) m =
  Ok (with_blocks m (apply_first (Z.to_nat (num_layers c)) (dummy_block c)
                       (transformer_blocks_ m))).
Proof.
  cbv zeta. intros Hc Hemb Hpos Hout. split.
  - destruct m. reflexivity.
  - apply load_saved_model; assumption.
Qed.

Lemma save_model_weights_layer_placeholders_witness :
  config_in_range (config_ small_model) /\
  matrix_ok (embedding_weights_ small_model) (vocab_size (config_ small_model))
    (model_dim (config_ small_model)) /\
  matrix_ok (position_embeddings_ small_model) (max_sequence_length (config_ small_model))
    (model_dim (config_ small_model)) /\
  matrix_ok (output_projection_ small_model) (model_dim (config_ small_model))
    (vocab_size (config_ small_model)) /\
  (save_model_weights (with_blocks small_model []) = save_model_weights small_model /\
   load_model_weights "model.bin" (Some (save_model_weights small_model)) small_model =
   Ok (with_blocks small_model
         (apply_first (Z.to_nat (num_layers (config_ small_model)))
            (dummy_block (config_ small_model)) (transformer_blocks_ small_model)))).
Proof.
  assert (Hc : config_in_range (config_ small_model))
    by (repeat constructor; cbn; lia).
  assert (Hemb : matrix_ok (embedding_weights_ small_model) (vocab_size (config_ small_model))
                   (model_dim (config_ small_model)))
    by mat_ok_tac.
  assert (Hpos : matrix_ok (position_embeddings_ small_model)
                   (max_sequence_length (config_ small_model)) (model_dim (config_ small_model)))
    by mat_ok_tac.
  assert (Hout : matrix_ok (output_projection_ small_model) (model_dim (config_ small_model))
                   (vocab_size (config_ small_model)))
    by mat_ok_tac.
  split; [exact Hc|]. split; [exact Hemb|]. split; [exact Hpos|]. split; [exact Hout|].
  exact (save_model_weights_layer_placeholders small_model [] "model.bin" Hc Hemb Hpos Hout).
Defined.

(** C2 (counterexample): in the file saved from [small_model], whose query
    matrix is all zeros, the 32 bytes of layer 0's query matrix (after the
    36-byte header and the 40 and 32 bytes of the two embeddings) are those
    of a [2 x 2] matrix of [0.1f], not the bytes of the in-memory query
    matrix. *)
Lemma save_model_weights_dummy_query :
  firstn 32 (skipn 108 (save_model_weights small_model)) =
    write_dummy_matrix 2 2 (flit F_TENTH) /\
  firstn 32 (skipn 108 (save_model_weights small_model)) <>
    write_matrix (query_weights_ (attention_ small_block)).
Proof.
  split.
  - vm_compute. reflexivity.
  - vm_compute. discriminate.
Qed.

(* ================================================================= *)
(** ** Further properties of the code *)

(** *** Strings *)

Lemma string_app_assoc (a b c : string) : ((a ++ b) ++ c)%string = (a ++ (b ++ c))%string.
Proof. induction a as [|x a IH]; cbn; [reflexivity|]. rewrite IH. reflexivity. Qed.

Lemma string_app_nil_r (a : string) : (a ++ "")%string = a.
Proof. induction a as [|x a IH]; cbn; [reflexivity|]. rewrite IH. reflexivity. Qed.

Lemma string_concat_empty_sep (l : list string) :
  String.concat "" l = fold_right String.append ""%string l.
Proof.
  induction l as [|x l IH]; [reflexivity|].
  destruct l as [|y l]; cbn in *; [rewrite string_app_nil_r; reflexivity|].
  rewrite IH. reflexivity.
Qed.

Lemma fold_append_app (l1 l2 : list string) :
  fold_right String.append ""%string (l1 ++ l2) =
  (fold_right String.append ""%string l1 ++ fold_right String.append ""%string l2)%string.
Proof.
  induction l1 as [|x l1 IH]; cbn; [reflexivity|]. rewrite IH, string_app_assoc. reflexivity.
Qed.

Lemma fold_append_flat_map {A} (f : A -> list string) (l : list A) :
  fold_right String.append ""%string (flat_map f l) =
  fold_right String.append ""%string (map (fun x => fold_right String.append ""%string (f x)) l).
Proof.
  induction l as [|x l IH]; cbn; [reflexivity|]. rewrite fold_append_app, IH. reflexivity.
Qed.

(** *** BPE merging *)

Lemma chars_of_concat (s : string) : fold_right String.append ""%string (chars_of s) = s.
Proof. induction s as [|c s IH]; cbn; [reflexivity|]. rewrite IH. reflexivity. Qed.

Lemma length_chars_of (s : string) : List.length (chars_of s) = String.length s.
Proof. induction s as [|c s IH]; cbn; [reflexivity|]. rewrite IH. reflexivity. Qed.

Lemma merge_pair_cons2 (a b x y : string) (rest : list string) :
  merge_pair a b (x :: y :: rest) =
  if String.eqb x a && String.eqb y b then (a ++ b)%string :: merge_pair a b rest
  else x :: merge_pair a b (y :: rest).
Proof. reflexivity. Qed.

Lemma merge_pair_concat_len (a b : string) (n : nat) (l : list string) :
  (List.length l <= n)%nat ->
  fold_right String.append ""%string (merge_pair a b l) = fold_right String.append ""%string l /\
  (List.length (merge_pair a b l) <= List.length l)%nat.
Proof.
  revert l. induction n as [|n IH]; intros l Hl.
  - destruct l; [split; reflexivity | cbn in Hl; lia].
  - destruct l as [|x [|y rest]]; [split; reflexivity | split; reflexivity |].
    rewrite merge_pair_cons2. destruct (String.eqb x a && String.eqb y b) eqn:E.
    + apply andb_prop in E. destruct E as [E1 E2].
      apply String.eqb_eq in E1, E2. subst x y.
      destruct (IH rest) as [IH1 IH2]; [cbn in Hl; lia|].
      cbn [fold_right List.length]. rewrite IH1, string_app_assoc. split; [reflexivity | lia].
    + destruct (IH (y :: rest)) as [IH1 IH2]; [cbn [List.length] in *; lia|].
      cbn [fold_right List.length] in *. rewrite IH1. split; [reflexivity | lia].
Qed.

Lemma merge_pair_shorter (a b : string) (n : nat) (l : list string) (i : nat) :
  (List.length l <= n)%nat -> (S i < List.length l)%nat ->
  nth i l ""%string = a -> nth (S i) l ""%string = b ->
  (List.length (merge_pair a b l) < List.length l)%nat.
Proof.
  revert l i. induction n as [|n IH]; intros l i Hl Hi Ha Hb; [cbn in *; lia|].
  destruct l as [|x [|y rest]]; [cbn in Hi; lia | cbn in Hi; lia |].
  rewrite merge_pair_cons2. destruct (String.eqb x a && String.eqb y b) eqn:E.
  - destruct (merge_pair_concat_len a b (List.length rest) rest) as [_ H2]; [lia|].
    cbn [List.length]. lia.
  - destruct i as [|i].
    + cbn in Ha, Hb. subst. rewrite !String.eqb_refl in E. discriminate E.
    + cbn [List.length] in *.
      assert (IHi : (List.length (merge_pair a b (y :: rest)) < List.length (y :: rest))%nat).
      { apply (IH _ i); cbn [List.length] in *; try lia; assumption. }
      cbn [List.length] in IHi. lia.
Qed.

Lemma bpe_loop_concat (fuel : nat) (ranks : list (string * Z)) (chars : list string) :
  fold_right String.append ""%string (bpe_loop fuel ranks chars) =
  fold_right String.append ""%string chars.
Proof.
  revert chars. induction fuel as [|f IH]; intros chars; [reflexivity|].
  cbn [bpe_loop]. destruct (best_pair ranks (adjacent_pairs chars)) as [i|]; [|reflexivity].
  destruct (nth i (adjacent_pairs chars) (""%string, ""%string)) as [a b].
  rewrite IH. apply (merge_pair_concat_len a b (List.length chars)). lia.
Qed.

Lemma best_pair_some (ranks : list (string * Z)) (ps : list (string * string)) (k : nat) :
  best_pair ranks ps = Some k ->
  (k < List.length ps)%nat /\
  exists r, map_find (pair_key (nth k ps (""%string, ""%string))) ranks = Some r.
Proof.
  unfold best_pair. intros H.
  match type of H with ?go ps 0%nat INT_MAX None = Some k => set (G := go) in H end.
  assert (Hgen : forall ps' i best idx, G ps' i best idx = Some k ->
            idx = Some k \/
            ((i <= k < i + List.length ps')%nat /\
             exists r, map_find (pair_key (nth (k - i) ps' (""%string, ""%string))) ranks = Some r)).
  { induction ps' as [|[a b] ps' IH]; intros i best idx Hg.
    - left. exact Hg.
    - cbn in Hg. fold G in Hg.
      destruct (map_find _ ranks) as [r|] eqn:Er.
      + destruct (r <? best).
        * destruct (IH _ _ _ Hg) as [Hs | [Hr Hex]].
          -- injection Hs as <-. right. split; [cbn; lia|].
             exists r. rewrite Nat.sub_diag. unfold pair_key. cbn. exact Er.
          -- right. split; [cbn; lia|]. replace (k - i)%nat with (S (k - S i)) by lia.
             exact Hex.
        * destruct (IH _ _ _ Hg) as [Hs | [Hr Hex]]; [left; exact Hs|].
          right. split; [cbn; lia|]. replace (k - i)%nat with (S (k - S i)) by lia. exact Hex.
      + destruct (IH _ _ _ Hg) as [Hs | [Hr Hex]]; [left; exact Hs|].
        right. split; [cbn; lia|]. replace (k - i)%nat with (S (k - S i)) by lia. exact Hex. }
  destruct (Hgen _ _ _ _ H) as [Hn | [Hr Hex]]; [discriminate Hn|].
  rewrite Nat.sub_0_r in Hex. split; [lia | exact Hex].
Qed.

Lemma length_adjacent_pairs (l : list string) :
  List.length (adjacent_pairs l) = (List.length l - 1)%nat.
Proof.
  induction l as [|x l IH]; [reflexivity|].
  destruct l as [|y l]; [reflexivity|]. cbn [adjacent_pairs List.length] in *. rewrite IH. lia.
Qed.

Lemma nth_adjacent_pairs (l : list string) (i : nat) :
  (i < List.length (adjacent_pairs l))%nat ->
  nth i (adjacent_pairs l) (""%string, ""%string) = (nth i l ""%string, nth (S i) l ""%string).
Proof.
  revert i. induction l as [|x l IH]; intros i Hi; [cbn in Hi; lia|].
  destruct l as [|y l]; [cbn in Hi; lia|].
  destruct i as [|i]; [reflexivity|].
  cbn [adjacent_pairs List.length nth] in *. apply IH. cbn [adjacent_pairs] in Hi. exact (proj2 (Nat.succ_lt_mono _ _) Hi).
Qed.

Lemma bpe_loop_done (fuel : nat) (ranks : list (string * Z)) (chars : list string) :
  (List.length chars <= fuel)%nat ->
  best_pair ranks (adjacent_pairs (bpe_loop fuel ranks chars)) = None.
Proof.
  revert chars. induction fuel as [|f IH]; intros chars Hl.
  - destruct chars; [reflexivity | cbn in Hl; lia].
  - cbn [bpe_loop]. destruct (best_pair ranks (adjacent_pairs chars)) as [i|] eqn:Eb; [|exact Eb].
    destruct (best_pair_some _ _ _ Eb) as [Hi _].
    rewrite (nth_adjacent_pairs _ _ Hi).
    apply IH. rewrite length_adjacent_pairs in Hi.
    pose proof (merge_pair_shorter (nth i chars ""%string) (nth (S i) chars ""%string)
                  (List.length chars) chars i (le_n _)) as Hs.
    assert (Hlt : (List.length (merge_pair (nth i chars ""%string) (nth (S i) chars ""%string) chars)
                   < List.length chars)%nat) by (apply Hs; [lia | reflexivity | reflexivity]).
    lia.
Qed.

Lemma merge_pair_nonempty (a b : string) (n : nat) (l : list string) :
  (List.length l <= n)%nat -> Forall (fun s => s <> ""%string) l ->
  Forall (fun s => s <> ""%string) (merge_pair a b l).
Proof.
  revert l. induction n as [|n IH]; intros l Hl Hf.
  - destruct l; [constructor | cbn in Hl; lia].
  - destruct l as [|x [|y rest]]; [constructor | exact Hf |].
    rewrite merge_pair_cons2. inversion Hf as [|? ? Hx Hf']; subst.
    inversion Hf' as [|? ? Hy Hr]; subst.
    destruct (String.eqb x a && String.eqb y b) eqn:E.
    + apply andb_prop in E. destruct E as [E1 E2]. apply String.eqb_eq in E1. subst x.
      constructor; [destruct a; [contradiction | discriminate] |].
      apply IH; [cbn [List.length] in *; lia | exact Hr].
    + constructor; [exact Hx|]. apply IH; [cbn [List.length] in *; lia | exact Hf'].
Qed.

Lemma bpe_loop_nonempty (fuel : nat) (ranks : list (string * Z)) (chars : list string) :
  Forall (fun s => s <> ""%string) chars ->
  Forall (fun s => s <> ""%string) (bpe_loop fuel ranks chars).
Proof.
  revert chars. induction fuel as [|f IH]; intros chars Hc; [exact Hc|].
  cbn [bpe_loop]. destruct (best_pair ranks (adjacent_pairs chars)) as [i|]; [|exact Hc].
  destruct (nth i (adjacent_pairs chars) (""%string, ""%string)) as [a b].
  apply IH, (merge_pair_nonempty a b (List.length chars)); [lia | exact Hc].
Qed.

Lemma chars_of_nonempty (s : string) : Forall (fun x => x <> ""%string) (chars_of s).
Proof. induction s as [|c s IH]; constructor; [discriminate | exact IH]. Qed.

Lemma bpe_encode_concat_fold (t : BPETokenizer) (w : string) :
  fold_right String.append ""%string (bpe_encode t w) = w.
Proof.
  unfold bpe_encode. destruct (chars_of w) as [|c [|c' l]] eqn:E.
  - rewrite <- (chars_of_concat w), E. reflexivity.
  - rewrite <- (chars_of_concat w), E. reflexivity.
  - rewrite bpe_loop_concat, <- E. apply chars_of_concat.
Qed.

Lemma bpe_encode_empty (t : BPETokenizer) : bpe_encode t ""%string = [].
Proof. reflexivity. Qed.

Lemma split_words_acc_concat (s cur : string) :
  fold_right String.append ""%string (split_words_acc s cur) = (cur ++ blank_spaces s)%string.
Proof.
  revert cur. induction s as [|c s IH]; intros cur; cbn [split_words_acc blank_spaces string_map].
  - destruct (String.eqb cur "") eqn:E.
    + apply String.eqb_eq in E. subst. reflexivity.
    + cbn. rewrite !string_app_nil_r. reflexivity.
  - destruct (is_space c) eqn:Hs.
    + rewrite fold_append_app. cbn [fold_right]. rewrite IH.
      fold (blank_spaces s).
      destruct (String.eqb cur "") eqn:E.
      * apply String.eqb_eq in E. subst. reflexivity.
      * cbn [fold_right]. rewrite string_app_nil_r. reflexivity.
    + rewrite IH, string_app_assoc. reflexivity.
Qed.

Lemma no_space_app (a b : string) :
  string_forallb (fun c => negb (is_space c)) (a ++ b) =
  string_forallb (fun c => negb (is_space c)) a && string_forallb (fun c => negb (is_space c)) b.
Proof. induction a as [|c a IH]; cbn; [reflexivity|]. rewrite IH, andb_assoc. reflexivity. Qed.

Lemma split_words_acc_shape (s cur : string) :
  string_forallb (fun c => negb (is_space c)) cur = true ->
  Forall (fun w => w = " "%string \/
                   (w <> ""%string /\ string_forallb (fun c => negb (is_space c)) w = true))
    (split_words_acc s cur).
Proof.
  revert cur. induction s as [|c s IH]; intros cur Hcur; cbn [split_words_acc].
  - destruct (String.eqb cur "") eqn:E; [constructor|].
    constructor; [|constructor]. right. split; [|exact Hcur].
    intros ->. discriminate E.
  - destruct (is_space c) eqn:Hs.
    + apply Forall_app. split.
      * destruct (String.eqb cur "") eqn:E; [constructor|].
        constructor; [|constructor]. right. split; [|exact Hcur]. intros ->. discriminate E.
      * constructor; [left; reflexivity|]. apply IH. reflexivity.
    + apply IH. rewrite no_space_app, Hcur. cbn. rewrite Hs. reflexivity.
Qed.

Lemma preprocess_char_cases (c : ascii) :
  preprocess_removed (preprocess_char c) = false /\
  (preprocess_removed c = false -> preprocess_char c = c) /\
  (preprocess_removed c = true -> preprocess_char c <> c).
Proof. destruct c as [[] [] [] [] [] [] [] []]; vm_compute; repeat split; intros; congruence. Qed.

Lemma map_find_put (k k' : string) (v : Z) (m : list (string * Z)) :
  map_find k (map_put k' v m) = if String.eqb k k' then Some v else map_find k m.
Proof.
  induction m as [|[k0 v0] m IH]; cbn [map_put map_find].
  - destruct (String.eqb k k'); reflexivity.
  - destruct (String.eqb k' k0) eqn:E0.
    + apply String.eqb_eq in E0. subst k0. cbn [map_find].
      destruct (String.eqb k k'); reflexivity.
    + cbn [map_find]. rewrite IH.
      destruct (String.eqb k k0) eqn:E1; [|reflexivity].
      apply String.eqb_eq in E1. subst k0.
      destruct (String.eqb k k') eqn:E2; [|reflexivity].
      apply String.eqb_eq in E2. subst k'. rewrite String.eqb_refl in E0. discriminate E0.
Qed.

Lemma decode_acc (t : BPETokenizer) (l : list Z) (acc : string) :
  fold_left (fun acc id => (acc ++ get_token (vocab_ t) id)%string) l acc =
  (acc ++ fold_left (fun acc id => (acc ++ get_token (vocab_ t) id)%string) l ""%string)%string.
Proof.
  revert acc. induction l as [|x l IH]; intros acc; cbn [fold_left].
  - rewrite string_app_nil_r. reflexivity.
  - rewrite IH, (IH (""++ _)%string), string_app_assoc. reflexivity.
Qed.

(** *** Tokenizer properties *)

(** [bpe_encode] only regroups the characters of the word: the pieces,
    joined back together, give the word. *)
Theorem bpe_encode_concat (t : BPETokenizer) (w : string) :
  String.concat "" (bpe_encode t w) = w.
Proof. rewrite string_concat_empty_sep. apply bpe_encode_concat_fold. Qed.

(** When [bpe_encode] returns, no two adjacent pieces form a pair that has
    a rank in [bpe_ranks_]: the merge loop has reached its fixed point. *)
Theorem bpe_encode_no_mergeable_pair (t : BPETokenizer) (w : string) :
  best_pair (bpe_ranks_ t) (adjacent_pairs (bpe_encode t w)) = None.
Proof.
  unfold bpe_encode. destruct (chars_of w) as [|c [|c' l]] eqn:E; [reflexivity | reflexivity |].
  rewrite <- E. apply bpe_loop_done. rewrite length_chars_of. lia.
Qed.

(** [bpe_encode] never produces an empty piece. *)
Theorem bpe_encode_no_empty_piece (t : BPETokenizer) (w : string) :
  Forall (fun s => s <> ""%string) (bpe_encode t w).
Proof.
  unfold bpe_encode. pose proof (chars_of_nonempty w) as Hc.
  destruct (chars_of w) as [|c [|c' l]] eqn:E; [constructor | exact Hc |].
  apply bpe_loop_nonempty. exact Hc.
Qed.

(** [split_to_words] loses no character: joined back together, the words
    are the input with every [std::isspace] character turned into a blank. *)
Theorem split_to_words_concat (s : string) :
  String.concat "" (split_to_words s) = blank_spaces s.
Proof. rewrite string_concat_empty_sep. apply split_words_acc_concat. Qed.

(** Every word of [split_to_words] is either the single blank or a
    non-empty run without any [std::isspace] character. *)
Theorem split_to_words_shape (s : string) :
  Forall (fun w => w = " "%string \/
                   (w <> ""%string /\ string_forallb (fun c => negb (is_space c)) w = true))
    (split_to_words s).
Proof. apply split_words_acc_shape. reflexivity. Qed.

(** [preprocess_text] leaves no upper-case ASCII letter, tab, line feed or
    carriage return, and it changes a text exactly when the text holds one;
    so it is idempotent. *)
Theorem preprocess_text_normal_form (s : string) :
  string_forallb (fun c => negb (preprocess_removed c)) (preprocess_text s) = true /\
  (preprocess_text s = s <-> string_forallb (fun c => negb (preprocess_removed c)) s = true) /\
  preprocess_text (preprocess_text s) = preprocess_text s.
Proof.
  induction s as [|c s [IH1 [IH2 IH3]]]; [cbn; tauto|].
  destruct (preprocess_char_cases c) as [P1 [P2 P3]].
  cbn [preprocess_text string_forallb]. rewrite P1, IH1, IH3.
  destruct (preprocess_char_cases (preprocess_char c)) as [_ [Q2 _]].
  rewrite (Q2 P1). split; [reflexivity|]. split; [split|reflexivity].
  - intros H. injection H as Hc Hs. destruct (preprocess_removed c) eqn:R.
    + exfalso. exact (P3 eq_refl Hc).
    + cbn [negb andb]. apply IH2. exact Hs.
  - intros H. apply andb_prop in H. destruct H as [Hc Hs].
    apply negb_true_iff in Hc. rewrite (P2 Hc), (proj2 IH2 Hs). reflexivity.
Qed.

(** [encode] is [encode_to_strings] followed by the vocabulary lookup of
    each piece: its empty-text and empty-word checks never change the
    result. *)
Theorem encode_via_encode_to_strings (t : BPETokenizer) (text : string) :
  encode t text = map (get_token_id (vocab_ t)) (encode_to_strings t text).
Proof.
  unfold encode, encode_to_strings.
  destruct (String.eqb text "") eqn:E.
  - apply String.eqb_eq in E. subst. reflexivity.
  - generalize (split_to_words (preprocess_text text)). intros ws.
    induction ws as [|w ws IH]; [reflexivity|].
    cbn [flat_map]. rewrite map_app, IH.
    destruct (String.eqb w "") eqn:Ew; [|reflexivity].
    apply String.eqb_eq in Ew. subst. reflexivity.
Qed.

(** The pieces [encode_to_strings] returns, joined together, are the
    preprocessed text with every [std::isspace] character as a blank. *)
Theorem encode_to_strings_concat (t : BPETokenizer) (text : string) :
  String.concat "" (encode_to_strings t text) = blank_spaces (preprocess_text text).
Proof.
  rewrite string_concat_empty_sep. unfold encode_to_strings.
  rewrite fold_append_flat_map.
  rewrite (map_ext _ (fun w => w) (bpe_encode_concat_fold t)), map_id.
  apply split_words_acc_concat.
Qed.

(** [decode] of a concatenation is the concatenation of the decodings. *)
Theorem decode_app (t : BPETokenizer) (l1 l2 : list Z) :
  decode t (l1 ++ l2) = (decode t l1 ++ decode t l2)%string.
Proof. unfold decode. rewrite fold_left_app, decode_acc. reflexivity. Qed.

Lemma int_of_size_small (n : nat) : Z.of_nat n < 2 ^ 31 -> int_of_size n = Z.of_nat n.
Proof.
  intros Hn. unfold int_of_size, int_of_u32. rewrite Z.mod_small by lia.
  destruct (Z.ltb_spec (Z.of_nat n) (2 ^ 31)); lia.
Qed.

(** [add_token] on a well-formed vocabulary of fewer than [INT_MAX]
    tokens (so that [static_cast<int>] of the sizes keeps them) keeps it
    well formed; the returned id is what [get_token_id] then gives for the
    token and the token is what [get_token] gives for the id; [has_token]
    holds for it; and no other token's binding changes. *)
Theorem add_token_spec (v : Vocabulary) (token : string) :
  vocab_wf v -> Z.of_nat (List.length (id_to_token_ v)) < INT_MAX ->
  let '(id, v') := add_token token v in
  vocab_wf v' /\ get_token_id v' token = id /\ get_token v' id = token /\
  has_token v' token = true /\
  (forall k, k <> token -> map_find k (token_to_id_ v') = map_find k (token_to_id_ v)).
Proof.
  intros Hwf Hsz. unfold INT_MAX in Hsz. unfold add_token.
  rewrite int_of_size_small by lia.
  destruct (map_find token (token_to_id_ v)) as [id|] eqn:Ef.
  - destruct (Hwf _ _ Ef) as [Hr Hn].
    unfold get_token_id, get_token, has_token. rewrite Ef.
    split; [exact Hwf|]. split; [reflexivity|]. split; [|split; [reflexivity | intros; reflexivity]].
    rewrite int_of_size_small by lia.
    destruct ((id <? 0) || (id >=? Z.of_nat (List.length (id_to_token_ v)))) eqn:B; [|exact Hn].
    exfalso. apply orb_prop in B. destruct B as [B|B]; [apply Z.ltb_lt in B | apply Z.geb_le in B]; lia.
  - cbn [token_to_id_ id_to_token_]. remember (List.length (id_to_token_ v)) as n eqn:Hlen.
    split; [|split; [|split; [|split]]].
    + intros k id Hk. cbn [token_to_id_ id_to_token_] in Hk |- *. rewrite map_find_put in Hk. rewrite length_app. cbn [List.length].
      destruct (String.eqb k token) eqn:Ek.
      * apply String.eqb_eq in Ek. subst. injection Hk as <-.
        rewrite Nat2Z.id, app_nth2 by lia. replace (_ - _)%nat with 0%nat by lia. split; [lia | reflexivity].
      * destruct (Hwf _ _ Hk) as [Hr Hn].
        rewrite app_nth1 by lia. split; [lia | exact Hn].
    + unfold get_token_id. cbn [token_to_id_]. rewrite map_find_put, String.eqb_refl. reflexivity.
    + unfold get_token. cbn [id_to_token_]. rewrite length_app, <- Hlen. cbn [List.length].
      rewrite int_of_size_small by lia.
      replace ((Z.of_nat n <? 0) || (Z.of_nat n >=? Z.of_nat (n + 1))) with false
        by (symmetry; apply orb_false_iff; split; [apply Z.ltb_ge | rewrite Z.geb_leb; apply Z.leb_gt]; lia).
      rewrite Nat2Z.id, app_nth2 by lia. replace (_ - _)%nat with 0%nat by lia. reflexivity.
    + unfold has_token. cbn [token_to_id_]. rewrite map_find_put, String.eqb_refl. reflexivity.
    + intros k Hk. cbn [token_to_id_]. rewrite map_find_put.
      destruct (String.eqb k token) eqn:Ek; [apply String.eqb_eq in Ek; contradiction | reflexivity].
Qed.

(** *** Matrix and tensor helpers *)

Lemma length_list_set {T} (k : nat) (x : T) (v : list T) : length (list_set k x v) = length v.
Proof.
  revert k. induction v as [|y v IH]; intros [|k]; cbn; try reflexivity. rewrite IH. reflexivity.
Qed.

Lemma nth_list_set {T} (k n : nat) (x d : T) (v : list T) :
  nth n (list_set k x v) d = if (n =? k)%nat then (if (k <? length v)%nat then x else nth n v d)
                             else nth n v d.
Proof.
  revert k n. induction v as [|y v IH]; intros k n.
  - destruct k, n; cbn; try reflexivity; destruct (n =? k)%nat; reflexivity.
  - destruct k as [|k], n as [|n]; cbn [list_set nth length Nat.eqb Nat.ltb Nat.leb].
    + reflexivity.
    + reflexivity.
    + destruct (Nat.ltb_spec (S k) (S (length v))), (Nat.leb_spec (S (S k)) (S (length v)));
        reflexivity || lia.
    + rewrite IH. unfold Nat.ltb. cbn [Nat.leb]. reflexivity.
Qed.

Lemma nth_fold_list_set {T} (g : nat -> T) (d : T) (s n k : nat) (v : list T) :
  (s + n <= length v)%nat ->
  length (fold_left (fun acc i => list_set i (g i) acc) (seq s n) v) = length v /\
  nth k (fold_left (fun acc i => list_set i (g i) acc) (seq s n) v) d =
  if (s <=? k)%nat && (k <? s + n)%nat then g k else nth k v d.
Proof.
  revert s v. induction n as [|n IH]; intros s v Hl; cbn [seq fold_left].
  - split; [reflexivity|]. destruct ((s <=? k)%nat && (k <? s + 0)%nat) eqn:E; [|reflexivity].
    apply andb_prop in E. destruct E as [E1 E2]. apply Nat.leb_le in E1. apply Nat.ltb_lt in E2. lia.
  - destruct (IH (S s) (list_set s (g s) v)) as [IH1 IH2]; [rewrite length_list_set; lia|].
    rewrite IH1, length_list_set, IH2, nth_list_set. split; [reflexivity|].
    replace (s <? length v)%nat with true by (symmetry; apply Nat.ltb_lt; lia).
    destruct (Nat.eqb_spec k s) as [->|Hne].
    + replace ((S s <=? s)%nat) with false by (symmetry; apply Nat.leb_gt; lia).
      replace ((s <=? s)%nat && (s <? s + S n)%nat) with true
        by (symmetry; apply andb_true_iff; split; [apply Nat.leb_le | apply Nat.ltb_lt]; lia).
      reflexivity.
    + replace ((S s <=? k)%nat && (k <? S s + n)%nat) with ((s <=? k)%nat && (k <? s + S n)%nat);
        [reflexivity|].
      destruct (Nat.leb_spec (S s) k), (Nat.leb_spec s k), (Nat.ltb_spec k (S s + n)),
        (Nat.ltb_spec k (s + S n)); cbn; try reflexivity; lia.
Qed.

Lemma row_major_split (i j i' j' c : nat) :
  (j < c)%nat -> (j' < c)%nat -> (i * c + j = i' * c + j')%nat -> i = i' /\ j = j'.
Proof.
  intros Hj Hj' He.
  assert (Hi : i = i').
  { assert (E1 : i = ((i * c + j) / c)%nat) by (apply (Nat.div_unique _ _ _ j); lia).
    assert (E2 : i' = ((i' * c + j') / c)%nat) by (apply (Nat.div_unique _ _ _ j'); lia).
    rewrite He in E1. congruence. }
  subst. split; [reflexivity | lia].
Qed.

Lemma row_major_lt (i j r c : nat) : (i < r)%nat -> (j < c)%nat -> (i * c + j < r * c)%nat.
Proof. intros Hi Hj. assert (i * c + c <= r * c)%nat by (replace (i * c + c)%nat with (S i * c)%nat by lia; apply Nat.mul_le_mono_r; lia). lia. Qed.

Lemma row_major_cover (k r c : nat) :
  (k < r * c)%nat -> (k / c < r)%nat /\ (k mod c < c)%nat /\ k = (k / c * c + k mod c)%nat.
Proof.
  intros Hk. assert (Hc : c <> 0%nat) by (intros ->; lia).
  split; [|split].
  - apply Nat.Div0.div_lt_upper_bound. lia.
  - apply Nat.mod_upper_bound. exact Hc.
  - rewrite Nat.mul_comm. apply Nat.div_mod. exact Hc.
Qed.

Lemma read_bytes_ext (n : nat) (s e : list byte) (a b : list byte) :
  read_bytes n s = Some (a, b) -> read_bytes n (s ++ e) = Some (a, b ++ e).
Proof.
  unfold read_bytes. destruct (Nat.leb_spec n (length s)) as [Hn|Hn]; [|discriminate].
  intros Heq. injection Heq as <- <-. rewrite length_app.
  replace (n <=? length s + length e)%nat with true by (symmetry; apply Nat.leb_le; lia).
  rewrite firstn_app, skipn_app.
  replace (n - length s)%nat with 0%nat by lia. cbn [firstn skipn]. rewrite app_nil_r. reflexivity.
Qed.

Lemma length_mresize_any {F} `{FloatLit F} (r c : nat) (m : Matrix F) :
  length (data_ (mresize r c m)) = N.to_nat ((N.of_nat r * N.of_nat c) mod 2 ^ 64)%N.
Proof. unfold mresize. cbn [data_]. apply length_vec_resize. Qed.

Lemma total_of_mod (shape : list Z) (a : Z) :
  fold_left size_t_mul shape a = (a * shape_product shape) mod size_t_modulus
  \/ (shape = [] /\ fold_left size_t_mul shape a = a).
Proof.
  revert a. induction shape as [|d s IH]; intros a; [right; split; reflexivity|].
  left. cbn [fold_left shape_product fold_right].
  destruct (IH (size_t_mul a d)) as [H1 | [-> H2]].
  - rewrite H1. unfold size_t_mul. rewrite Z.mul_mod_idemp_l by (unfold size_t_modulus; lia).
    fold (shape_product s). rewrite Z.mul_assoc. reflexivity.
  - rewrite H2. unfold size_t_mul. cbn. rewrite Z.mul_1_r. reflexivity.
Qed.

Lemma total_of_product (shape : list Z) :
  total_of shape = shape_product shape mod size_t_modulus \/ shape = [].
Proof.
  unfold total_of. destruct (total_of_mod shape 1) as [H | [-> _]]; [left | right; reflexivity].
  rewrite H, Z.mul_1_l. reflexivity.
Qed.

Lemma mresize_no_wrap (r c : nat) :
  Z.of_nat r * Z.of_nat c < 2 ^ 64 ->
  N.to_nat ((N.of_nat r * N.of_nat c) mod 2 ^ 64)%N = (r * c)%nat.
Proof.
  intros Hlt. rewrite N.mod_small.
  - rewrite <- Nat2N.inj_mul. apply Nat2N.id.
  - rewrite <- Nat2N.inj_mul. apply N2Z.inj_lt. rewrite nat_N_Z, Nat2Z.inj_mul.
    change (Z.of_N (2 ^ 64)) with (2 ^ 64). exact Hlt.
Qed.

Section MatrixProps.
Context {F : Type} `{FloatLit F} `{FloatArith F}.

Lemma madd_data (a b : Matrix F) :
  rows_ a = rows_ b -> cols_ a = cols_ b ->
  length (data_ a) = (rows_ a * cols_ a)%nat ->
  exists d, madd a b = Ok (mkMatrix (rows_ a) (cols_ a) d) /\
    length d = (rows_ a * cols_ a)%nat /\
    forall k, (k < rows_ a * cols_ a)%nat ->
      nth k d fzero = fadd (nth k (data_ a) fzero) (nth k (data_ b) fzero).
Proof.
  intros Hr Hc Hla. unfold madd. rewrite <- Hr, <- Hc, !Nat.eqb_refl. cbn [andb negb].
  eexists. split; [reflexivity|].
  destruct (nth_fold_list_set (fun i => fadd (nth i (data_ a) fzero) (nth i (data_ b) fzero))
              fzero 0 (length (data_ a)) 0 (data_ (Matrix_new (rows_ a) (cols_ a))))
    as [L _]; [cbn [data_ Matrix_new]; rewrite repeat_length; lia|].
  split; [rewrite L; cbn [data_ Matrix_new]; apply repeat_length|].
  intros k Hk.
  destruct (nth_fold_list_set (fun i => fadd (nth i (data_ a) fzero) (nth i (data_ b) fzero))
              fzero 0 (length (data_ a)) k (data_ (Matrix_new (rows_ a) (cols_ a))))
    as [_ N]; [cbn [data_ Matrix_new]; rewrite repeat_length; lia|].
  rewrite N. replace ((0 <=? k)%nat && (k <? 0 + length (data_ a))%nat) with true; [reflexivity|].
  symmetry. apply andb_true_iff. split; [apply Nat.leb_le | apply Nat.ltb_lt]; lia.
Qed.

(** *** Matrix properties *)

(** [transpose] is an involution on every matrix whose storage holds
    [rows_ * cols_] elements. *)
Theorem transpose_involutive (m : Matrix F) :
  length (data_ m) = (rows_ m * cols_ m)%nat -> transpose (transpose m) = m.
Proof.
  intros Hl. destruct m as [r c d]. cbn [rows_ cols_ data_] in Hl.
  set (M := mkMatrix r c d).
  assert (Hw : forall j, length (map (fun i => mget (transpose M) i j) (seq 0 c)) = c)
    by (intros j; rewrite length_map, length_seq; reflexivity).
  assert (Hd : flat_map (fun j => map (fun i => mget (transpose M) i j) (seq 0 c)) (seq 0 r) = d).
  { apply nth_ext with (d := fzero) (d' := fzero).
    - rewrite (length_flat_map_uniform _ _ c Hw), length_seq, Hl. reflexivity.
    - intros k Hk. rewrite (length_flat_map_uniform _ _ c Hw), length_seq in Hk.
      destruct (row_major_cover k r c Hk) as [H1 [H2 H3]]. rewrite H3.
      rewrite (nth_flat_map_uniform _ _ c (k / c) (k mod c) fzero 0%nat Hw)
        by (rewrite ?length_seq; lia).
      rewrite seq_nth by lia. rewrite (nth_map_lt _ _ _ _ 0%nat) by (rewrite length_seq; lia).
      rewrite seq_nth by lia. cbn [Nat.add].
      rewrite mget_transpose by (cbn [rows_ cols_ M]; lia).
      unfold mget. cbn [cols_ data_ M]. rewrite <- H3. reflexivity. }
  change (transpose (transpose M)) with
    (mkMatrix r c (flat_map (fun j => map (fun i => mget (transpose M) i j) (seq 0 c)) (seq 0 r))).
  rewrite Hd. reflexivity.
Qed.

(** [m(i, j) = x] inside the bounds, followed by [m(i', j')]: the same
    cell reads [x], every other cell reads what it held before, and the
    shape and storage size stay. *)
Theorem mat_set_then_at (m : Matrix F) (i j : nat) (x : F) :
  length (data_ m) = (rows_ m * cols_ m)%nat -> (i < rows_ m)%nat -> (j < cols_ m)%nat ->
  exists m', mat_set m i j x = Ok m' /\ rows_ m' = rows_ m /\ cols_ m' = cols_ m /\
    length (data_ m') = length (data_ m) /\ mat_at m' i j = Ok x /\
    forall i' j', (i', j') <> (i, j) -> mat_at m' i' j' = mat_at m i' j'.
Proof.
  intros Hl Hi Hj. exists (mset m i j x).
  assert (Hin : (i * cols_ m + j < length (data_ m))%nat) by (rewrite Hl; apply row_major_lt; lia).
  unfold mat_set, mat_at. cbn [mset rows_ cols_ data_].
  replace ((i <? rows_ m)%nat && (j <? cols_ m)%nat) with true
    by (symmetry; apply andb_true_iff; split; apply Nat.ltb_lt; lia).
  split; [reflexivity|]. split; [reflexivity|]. split; [reflexivity|].
  split; [apply length_list_set|]. split.
  - unfold mget, mset. cbn [cols_ data_]. rewrite nth_list_set, Nat.eqb_refl.
    replace (i * cols_ m + j <? length (data_ m))%nat with true by (symmetry; apply Nat.ltb_lt; lia).
    reflexivity.
  - intros i' j' Hne.
    destruct ((i' <? rows_ m)%nat && (j' <? cols_ m)%nat) eqn:E; [|reflexivity].
    apply andb_prop in E. destruct E as [Ei Ej]. apply Nat.ltb_lt in Ei, Ej.
    unfold mget, mset. cbn [cols_ data_]. rewrite nth_list_set.
    destruct (Nat.eqb_spec (i' * cols_ m + j') (i * cols_ m + j)) as [Heq|]; [|reflexivity].
    destruct (row_major_split i' j' i j (cols_ m)) as [-> ->]; [lia | lia | exact Heq |].
    contradiction.
Qed.

(** [operator+] on two matrices of the same shape, each holding
    [rows_ * cols_] elements, adds them cell by cell. *)
Theorem madd_elementwise (a b : Matrix F) :
  rows_ a = rows_ b -> cols_ a = cols_ b ->
  length (data_ a) = (rows_ a * cols_ a)%nat -> length (data_ b) = (rows_ b * cols_ b)%nat ->
  exists c, madd a b = Ok c /\ rows_ c = rows_ a /\ cols_ c = cols_ a /\
    length (data_ c) = (rows_ a * cols_ a)%nat /\
    forall i j, (i < rows_ a)%nat -> (j < cols_ a)%nat ->
      mget c i j = fadd (mget a i j) (mget b i j).
Proof.
  intros Hr Hc Hla Hlb. destruct (madd_data a b Hr Hc Hla) as [d [Hm [Hd Hn]]].
  exists (mkMatrix (rows_ a) (cols_ a) d). split; [exact Hm|].
  split; [reflexivity|]. split; [reflexivity|]. split; [exact Hd|].
  intros i j Hi Hj. unfold mget. cbn [cols_ data_]. rewrite <- Hc.
  apply Hn. apply row_major_lt; assumption.
Qed.

(** The in-place [a(i, j) += b(i, j)] of the transformer block computes
    the same matrix as [operator+] on matrices of the same shape. *)
Theorem add_into_eq_madd (a b : Matrix F) :
  rows_ a = rows_ b -> cols_ a = cols_ b ->
  length (data_ a) = (rows_ a * cols_ a)%nat -> length (data_ b) = (rows_ b * cols_ b)%nat ->
  add_into a b = madd a b.
Proof.
  intros Hr Hc Hla Hlb. destruct (madd_data a b Hr Hc Hla) as [d [Hm [Hd Hn]]]. rewrite Hm.
  unfold add_into.
  rewrite (res_map_ok _ (fun i => map (fun j => fadd (mget a i j) (mget b i j)) (seq 0 (cols_ a)))).
  - cbn [bind]. f_equal. f_equal. rewrite <- flat_map_concat_map.
    assert (Hw : forall i, length (map (fun j => fadd (mget a i j) (mget b i j)) (seq 0 (cols_ a)))
                            = cols_ a) by (intros; rewrite length_map, length_seq; reflexivity).
    apply nth_ext with (d := fzero) (d' := fzero).
    + rewrite (length_flat_map_uniform _ _ _ Hw), length_seq. lia.
    + intros k Hk. rewrite (length_flat_map_uniform _ _ _ Hw), length_seq in Hk.
      destruct (row_major_cover k (rows_ a) (cols_ a) Hk) as [H1 [H2 H3]].
      rewrite Hn by exact Hk. rewrite H3 at 1.
      rewrite (nth_flat_map_uniform _ _ _ (k / cols_ a) (k mod cols_ a) fzero 0%nat Hw)
        by (rewrite ?length_seq; lia).
      rewrite seq_nth by lia. rewrite (nth_map_lt _ _ _ _ 0%nat) by (rewrite length_seq; lia).
      rewrite seq_nth by lia. cbn [Nat.add]. unfold mget. rewrite <- Hc, <- H3. reflexivity.
  - intros i Hi. apply in_seq in Hi.
    apply (res_map_ok _ (fun j => fadd (mget a i j) (mget b i j))).
    intros j Hj. apply in_seq in Hj. unfold mat_at.
    replace ((i <? rows_ b)%nat && (j <? cols_ b)%nat) with true
      by (symmetry; apply andb_true_iff; split; apply Nat.ltb_lt; lia).
    reflexivity.
Qed.

(** [resize] keeps the storage prefix, so when the column count stays and
    the new element count fits [size_t], every cell of a row both
    matrices have keeps its value. *)
Theorem mresize_same_cols_keeps_cells (m : Matrix F) (r : nat) :
  length (data_ m) = (rows_ m * cols_ m)%nat ->
  Z.of_nat r * Z.of_nat (cols_ m) < 2 ^ 64 ->
  length (data_ (mresize r (cols_ m) m)) = (r * cols_ m)%nat /\
  forall i j, (i < r)%nat -> (i < rows_ m)%nat -> (j < cols_ m)%nat ->
    mget (mresize r (cols_ m) m) i j = mget m i j.
Proof.
  intros Hl Hw. rewrite length_mresize_any, mresize_no_wrap by exact Hw.
  split; [reflexivity|]. intros i j Hi Hi' Hj.
  unfold mget, mresize, vec_resize. cbn [cols_ data_]. rewrite mresize_no_wrap by exact Hw.
  assert (Hk : (i * cols_ m + j < r * cols_ m)%nat) by (apply row_major_lt; lia).
  assert (Hk' : (i * cols_ m + j < length (data_ m))%nat) by (rewrite Hl; apply row_major_lt; lia).
  rewrite app_nth1 by (rewrite length_firstn; lia).
  rewrite nth_firstn. replace (i * cols_ m + j <? r * cols_ m)%nat with true
    by (symmetry; apply Nat.ltb_lt; exact Hk). reflexivity.
Qed.
End MatrixProps.

Lemma shape_product_firstn_S (l : list Z) (i : nat) :
  (i < length l)%nat ->
  shape_product (firstn (S i) l) = shape_product (firstn i l) * nth i l 0.
Proof.
  unfold shape_product. revert i. induction l as [|x l IH]; intros i Hi; [cbn in Hi; lia|].
  destruct i as [|i]; [cbn [firstn fold_right nth]; ring|].
  change (firstn (S (S i)) (x :: l)) with (x :: firstn (S i) l).
  change (firstn (S i) (x :: l)) with (x :: firstn i l).
  change (nth (S i) (x :: l) 0) with (nth i l 0). cbn [fold_right].
  rewrite IH by (cbn in Hi; lia). ring.
Qed.

Lemma shape_product_pos (l : list Z) (k : nat) :
  (forall i, (i < k)%nat -> 0 < nth i l 0) -> 1 <= shape_product (firstn k l).
Proof.
  unfold shape_product. revert k. induction l as [|x l IH]; intros k Hk.
  - destruct k; cbn; lia.
  - destruct k as [|k]; cbn [firstn fold_right]; [lia|].
    assert (Hx : 0 < x) by exact (Hk 0%nat ltac:(lia)).
    assert (1 <= fold_right Z.mul 1 (firstn k l)) by (apply IH; intros i Hi; exact (Hk (S i) ltac:(lia))).
    nia.
Qed.

Lemma compute_index_loop_ok (shape indices : list Z) (k : nat) (index stride : Z) :
  (k <= length shape)%nat ->
  (forall i, (i < k)%nat -> 0 <= nth i indices 0 < nth i shape 0) ->
  0 <= index < stride ->
  stride * shape_product (firstn k shape) < 2 ^ 64 ->
  exists r, compute_index_loop shape indices k index stride = Ok r /\
            0 <= r < stride * shape_product (firstn k shape).
Proof.
  revert index stride. induction k as [|i IH]; intros index stride Hk Hin Hidx Hst.
  - exists index. cbn in *. split; [reflexivity | lia].
  - cbn [compute_index_loop].
    destruct (Hin i ltac:(lia)) as [Hix Hd].
    set (ix := nth i indices 0) in *. set (d := nth i shape 0) in *.
    replace (d <=? ix) with false by (symmetry; apply Z.leb_gt; lia).
    rewrite shape_product_firstn_S in Hst |- * by lia. fold d in Hst |- *.
    assert (HP : 1 <= shape_product (firstn i shape))
      by (apply shape_product_pos; intros j Hj; destruct (Hin j ltac:(lia)); lia).
    set (P := shape_product (firstn i shape)) in *.
    assert (Hsd : stride * d < 2 ^ 64) by nia.
    assert (Hixs : ix * stride + stride <= stride * d) by nia.
    unfold size_t_mul, size_t_modulus.
    rewrite (Z.mod_small (ix * stride)) by nia.
    rewrite (Z.mod_small (index + ix * stride)) by nia.
    rewrite (Z.mod_small (stride * d)) by nia.
    destruct (IH (index + ix * stride) (stride * d)) as [r [Hr Hb]];
      [lia | intros j Hj; apply Hin; lia | nia | nia |].
    exists r. split; [exact Hr | nia].
Qed.

Lemma compute_index_loop_oob (shape indices : list Z) (k : nat) (index stride : Z) :
  (exists i, (i < k)%nat /\ nth i shape 0 <= nth i indices 0) ->
  compute_index_loop shape indices k index stride = Err (OutOfRange "Tensor index out of bounds").
Proof.
  revert index stride. induction k as [|i IH]; intros index stride [b [Hb Hbad]]; [lia|].
  cbn [compute_index_loop].
  destruct (Z.leb_spec (nth i shape 0) (nth i indices 0)) as [Hle|Hgt]; [reflexivity|].
  apply IH. exists b. split; [|exact Hbad].
  destruct (Nat.eq_dec b i) as [->|]; [lia | lia].
Qed.

Lemma int_of_size_le (n : nat) : (Z.to_nat (int_of_size n) <= n)%nat.
Proof.
  unfold int_of_size, int_of_u32.
  pose proof (Z.mod_le (Z.of_nat n) (2 ^ 32) ltac:(lia) ltac:(lia)).
  pose proof (Z.mod_pos_bound (Z.of_nat n) (2 ^ 32) ltac:(lia)).
  destruct (_ <? 2 ^ 31); lia.
Qed.

Lemma shape_product_firstn_le (l : list Z) (k : nat) :
  (forall i, (i < length l)%nat -> 0 < nth i l 0) ->
  shape_product (firstn k l) <= shape_product l.
Proof.
  unfold shape_product. revert k. induction l as [|x l IH]; intros k Hl.
  - destruct k; cbn; lia.
  - assert (Hx : 0 < x) by exact (Hl 0%nat ltac:(cbn; lia)).
    assert (Hr : forall i, (i < length l)%nat -> 0 < nth i l 0)
      by (intros i Hi; exact (Hl (S i) ltac:(cbn; lia))).
    assert (H1 : 1 <= fold_right Z.mul 1 l).
    { pose proof (shape_product_pos l (length l)) as Hp. unfold shape_product in Hp.
      rewrite firstn_all in Hp. apply Hp, Hr. }
    destruct k as [|k]; cbn [firstn fold_right]; [nia|].
    specialize (IH k Hr). nia.
Qed.

Lemma total_of_pair (r c : Z) : total_of [r; c] = size_t_mul r c.
Proof.
  unfold total_of, size_t_mul, size_t_modulus. cbn [fold_left].
  rewrite Z.mul_1_l, Z.mul_mod_idemp_l by lia. reflexivity.
Qed.

Section TensorProps.
Context {F : Type} `{FloatLit F}.

(** *** Tensor properties *)

(** [compute_index] on indices that are each below their dimension, for a
    shape whose element count fits [size_t], succeeds with a position
    below [total_size()]: [at] then stays inside the storage of a tensor
    built by the constructor or [resize]. *)
Theorem compute_index_in_bounds (t : Tensor F) (indices : list Z) :
  length indices = length (shape_ t) ->
  (forall i, (i < length (shape_ t))%nat -> 0 <= nth i indices 0 < nth i (shape_ t) 0) ->
  shape_product (shape_ t) < 2 ^ 64 ->
  exists k, compute_index t indices = Ok k /\ 0 <= k < total_size t.
Proof.
  intros Hlen Hin Hp. unfold compute_index. rewrite Hlen, Nat.eqb_refl. cbn [negb].
  pose proof (int_of_size_le (length (shape_ t))) as Hn.
  set (n := Z.to_nat (int_of_size (length (shape_ t)))) in *.
  assert (Hle : shape_product (firstn n (shape_ t)) <= shape_product (shape_ t)).
  { apply shape_product_firstn_le. intros i Hi. destruct (Hin i Hi); lia. }
  destruct (compute_index_loop_ok (shape_ t) indices n 0 1) as [k [Hk Hb]];
    [lia | intros i Hi; apply Hin; lia | lia | lia |].
  exists k. split; [exact Hk|]. rewrite Z.mul_1_l in Hb.
  assert (Hb' : 0 <= k < shape_product (shape_ t)) by lia. clear Hb. rename Hb' into Hb.
  unfold total_size. destruct (total_of_product (shape_ t)) as [E | E].
  - rewrite E, Z.mod_small by (unfold size_t_modulus; lia). exact Hb.
  - rewrite E in Hb |- *. exact Hb.
Qed.

(** [compute_index] fails with [std::invalid_argument] when the number of
    indices differs from the number of dimensions, and otherwise, for a
    tensor of at most [INT_MAX] dimensions (so that the [int] loop counter
    starts at the last one), with [std::out_of_range] as soon as one index
    is not below its dimension. *)
Theorem compute_index_errors (t : Tensor F) (indices : list Z) :
  (length indices <> length (shape_ t) ->
   compute_index t indices =
   Err (InvalidArgument "Number of indices does not match tensor dimensions")) /\
  (length indices = length (shape_ t) -> Z.of_nat (length (shape_ t)) <= INT_MAX ->
   (exists i, (i < length (shape_ t))%nat /\ nth i (shape_ t) 0 <= nth i indices 0) ->
   compute_index t indices = Err (OutOfRange "Tensor index out of bounds")).
Proof.
  unfold compute_index. split.
  - intros Hne. destruct (Nat.eqb_spec (length indices) (length (shape_ t))); [contradiction|].
    reflexivity.
  - intros Heq Hsz Hbad. rewrite Heq, Nat.eqb_refl. cbn [negb].
    unfold INT_MAX in Hsz. rewrite int_of_size_small, Nat2Z.id by lia.
    apply compute_index_loop_oob. exact Hbad.
Qed.

(** A 2-D tensor holding [r * c] elements converts to an [r] x [c]
    matrix, and [at({i, j})] on the tensor reads what [(i, j)] reads on the
    matrix: the tensor is stored row-major like [Matrix]. *)
Theorem to_matrix_agrees_with_at (t : Tensor F) (r c : Z) :
  shape_ t = [r; c] -> 0 <= r -> 0 <= c -> r * c < 2 ^ 64 ->
  Z.of_nat (length (tdata_ t)) = r * c ->
  exists m, to_matrix t = Ok m /\ rows_ m = Z.to_nat r /\ cols_ m = Z.to_nat c /\
    data_ m = tdata_ t /\
    forall i j, 0 <= i < r -> 0 <= j < c ->
      tensor_at t [i; j] = mat_at m (Z.to_nat i) (Z.to_nat j).
Proof.
  intros Hs Hr Hc Hrc Hl. unfold to_matrix, Matrix_of_data. rewrite Hs.
  unfold size_t_mul, size_t_modulus. rewrite (Z.mod_small (r * c)) by nia.
  rewrite Hl, Z.eqb_refl. cbn [negb].
  eexists. split; [reflexivity|]. cbn [rows_ cols_ data_].
  split; [reflexivity|]. split; [reflexivity|]. split; [reflexivity|].
  intros i j Hi Hj. unfold tensor_at, compute_index. rewrite Hs. cbn [length Nat.eqb negb].
  change (Z.to_nat (int_of_size 2)) with 2%nat.
  cbn [compute_index_loop nth].
  replace (c <=? j) with false by (symmetry; apply Z.leb_gt; lia).
  replace (r <=? i) with false by (symmetry; apply Z.leb_gt; lia).
  assert (c <= r * c) by nia. assert (i * c + j < r * c) by nia.
  unfold size_t_mul, size_t_modulus.
  rewrite Z.mul_1_r, Z.mul_1_l, (Z.mod_small j), Z.add_0_l, (Z.mod_small j) by lia.
  rewrite (Z.mod_small c) by nia. rewrite (Z.mod_small (i * c)) by nia.
  rewrite (Z.mod_small (j + i * c)) by nia. cbn [bind].
  unfold mat_at, mget. cbn [rows_ cols_ data_].
  replace ((Z.to_nat i <? Z.to_nat r)%nat && (Z.to_nat j <? Z.to_nat c)%nat) with true
    by (symmetry; apply andb_true_iff; split; apply Nat.ltb_lt; lia).
  f_equal. f_equal. rewrite Z2Nat.inj_add, Z2Nat.inj_mul by nia. lia.
Qed.

(** [to_matrix] never fails on a 2-D tensor sized by [resize], whatever
    its dimensions: [data_.size()] and [rows * cols] wrap around in
    [size_t] alike, so the [Matrix] constructor's check always passes. *)
Theorem to_matrix_after_resize (t : Tensor F) (r c : Z) :
  0 <= r < 2 ^ 64 -> 0 <= c < 2 ^ 64 ->
  to_matrix (tensor_resize [r; c] t) =
  Ok (mkMatrix (Z.to_nat r) (Z.to_nat c) (tdata_ (tensor_resize [r; c] t))).
Proof.
  intros Hr Hc. unfold to_matrix, Matrix_of_data. cbn [shape_ tdata_ tensor_resize].
  rewrite length_vec_resize, total_of_pair, Z2Nat.id
    by (unfold size_t_mul, size_t_modulus; apply Z.mod_pos_bound; lia).
  rewrite Z.eqb_refl. reflexivity.
Qed.
End TensorProps.

(** *** Matrix file properties *)

Section MatrixFileProps.
Context {F : Type} `{FloatLit F} `{FloatBytes F}.

(** [load_from_file] reads the matrix it would read from a file from any
    longer file that starts with it: bytes after the payload are ignored. *)
Theorem load_from_file_ignores_trailing_bytes (filename : string) (s e : list byte)
    (m r : Matrix F) :
  load_from_file filename (Some s) m = Ok r -> load_from_file filename (Some (s ++ e)) m = Ok r.
Proof.
  unfold load_from_file. cbv zeta.
  destruct (read_bytes (2 * SIZE_T_BYTES) s) as [[dims s1]|] eqn:E1; [|discriminate].
  rewrite (read_bytes_ext _ _ e _ _ E1).
  match goal with |- match read_bytes ?n s1 with _ => _ end = _ -> _ =>
    destruct (read_bytes n s1) as [[p s2]|] eqn:E2; [|discriminate] end.
  rewrite (read_bytes_ext _ _ e _ _ E2). exact (fun h => h).
Qed.

(** [load_from_file] succeeds exactly on files of at least 16 bytes whose
    length also covers the [4 * rows * cols] payload bytes the header
    announces, with [rows * cols] taken in [size_t]. *)
Theorem load_from_file_succeeds_iff (filename : string) (s : list byte) (m : Matrix F) :
  let rows := Z.to_nat (le_value (firstn SIZE_T_BYTES s)) in
  let cols := Z.to_nat (le_value (firstn SIZE_T_BYTES (skipn SIZE_T_BYTES s))) in
  let n := N.to_nat ((N.of_nat rows * N.of_nat cols) mod 2 ^ 64)%N in
  is_Ok (load_from_file filename (Some s) m) = true <->
  (2 * SIZE_T_BYTES + n * INT_BYTES <= length s)%nat.
Proof.
  cbv zeta. unfold load_from_file. cbv zeta. unfold read_bytes at 1.
  unfold SIZE_T_BYTES, INT_BYTES.
  destruct (Nat.leb_spec (2 * 8) (length s)) as [Hs|Hs].
  - rewrite length_mresize_any. unfold read_bytes.
    rewrite firstn_firstn, skipn_firstn_comm.
    change (Nat.min 8 (2 * 8)) with 8%nat. change (2 * 8 - 8)%nat with 8%nat.
    rewrite length_skipn.
    match goal with |- context [Nat.leb ?a (length s - 2 * 8)] => destruct (Nat.leb_spec a (length s - 2 * 8)) end;
      cbn [is_Ok]; split; intros; try reflexivity; try lia; discriminate.
  - cbn [is_Ok]. generalize (N.to_nat ((N.of_nat (Z.to_nat (le_value (firstn 8 s))) *
      N.of_nat (Z.to_nat (le_value (firstn 8 (skipn 8 s))))) mod 2 ^ 64)%N). intros X.
    split; [discriminate | intros ?; exfalso; lia].
Qed.
End MatrixFileProps.

(** *** Model helpers *)

Lemma res_map_length {A B} (f : A -> res B) (l : list A) (ys : list B) :
  res_map f l = Ok ys -> length ys = length l.
Proof.
  revert ys. induction l as [|x l IH]; intros ys H; cbn [res_map] in H.
  - injection H as <-. reflexivity.
  - destruct (f x) as [y|e]; cbn [bind] in H; [|discriminate H].
    destruct (res_map f l) as [ys'|e] eqn:E; cbn [bind] in H; [|discriminate H].
    injection H as <-. cbn. rewrite (IH ys' eq_refl). reflexivity.
Qed.

Lemma res_map_combine_ok {B} (f : nat -> Z -> res B) (k : nat) (l : list Z) (ys : list B) :
  res_map (fun p => f (fst p) (snd p)) (combine (seq k (length l)) l) = Ok ys ->
  Forall (fun x => exists i y, f i x = Ok y) l.
Proof.
  revert k ys. induction l as [|x l IH]; intros k ys H; [constructor|].
  cbn [length seq combine res_map fst snd] in H.
  destruct (f k x) as [y|e] eqn:Ef; cbn [bind] in H; [|discriminate H].
  destruct (res_map _ (combine (seq (S k) (length l)) l)) as [ys'|e] eqn:E; cbn [bind] in H;
    [|discriminate H].
  constructor; [exists k, y; exact Ef | exact (IH _ _ E)].
Qed.

Section ModelProps.
Context {F : Type} `{FloatLit F} `{FloatArith F}.

Lemma embed_row_ok_range (m : TinyLlamaModel F) (i : nat) (token_id : Z) (row : list F) :
  embed_row m i token_id = Ok row -> 0 <= token_id < vocab_size (config_ m).
Proof.
  unfold embed_row. destruct ((token_id <? 0) || (token_id >=? vocab_size (config_ m))) eqn:E;
    [discriminate|].
  intros _. apply orb_false_iff in E. destruct E as [E1 E2].
  apply Z.ltb_ge in E1. rewrite Z.geb_leb in E2. apply Z.leb_gt in E2. lia.
Qed.

(** *** Model properties *)

(** A [forward] call that returns logits had an initialized model, a
    non-empty input no longer than the maximum sequence length, and only
    token ids in [[0, vocab_size)]; it returns [vocab_size] logits. *)
Theorem forward_success_conditions (m : TinyLlamaModel F) (input_tokens : list Z) (logits : list F) :
  forward m input_tokens = Ok logits ->
  is_initialized m = true /\ input_tokens <> [] /\
  Z.of_nat (length input_tokens) <= size_of_int (max_sequence_length (config_ m)) /\
  Forall (fun id => 0 <= id < vocab_size (config_ m)) input_tokens /\
  length logits = dim (vocab_size (config_ m)).
Proof.
  unfold forward. destruct (is_initialized m); cbn [negb]; [|discriminate].
  destruct input_tokens as [|t0 ts] eqn:Et; [discriminate|]. rewrite <- Et.
  destruct (size_of_int (max_sequence_length (config_ m)) <? Z.of_nat (length input_tokens)) eqn:Hlen;
    [discriminate|].
  apply Z.ltb_ge in Hlen.
  destruct (res_map _ (combine (seq 0 (length input_tokens)) input_tokens)) as [rows|e] eqn:Er;
    cbn [bind]; [|discriminate].
  destruct (blocks_forward _ _ _) as [hs|e]; cbn [bind]; [|discriminate].
  destruct (matmul hs (output_projection_ m)) as [lg|e]; cbn [bind]; [|discriminate].
  intros Hres. split; [reflexivity|]. split; [subst; discriminate|]. split; [exact Hlen|].
  split.
  - apply (res_map_combine_ok (fun i id => embed_row m i id)) in Er.
    eapply Forall_impl; [|exact Er]. intros x [i [y Hy]]. exact (embed_row_ok_range _ _ _ _ Hy).
  - rewrite (res_map_length _ _ _ Hres), length_seq. reflexivity.
Qed.

(** The token list [generate_text]'s loop returns is the list it started
    from followed by at most one new token per iteration, and the loop
    never grows a list that fits the maximum sequence length past it. *)
Theorem generate_loop_extends (m : TinyLlamaModel F) (temperature : F) (i : nat)
    (tokens out : list Z) :
  generate_loop m temperature i tokens = Ok out ->
  exists suffix, out = tokens ++ suffix /\ (length suffix <= i)%nat /\
    (Z.of_nat (length tokens) <= size_of_int (max_sequence_length (config_ m)) ->
     Z.of_nat (length out) <= size_of_int (max_sequence_length (config_ m))).
Proof.
  revert tokens. induction i as [|i IH]; intros tokens Hg; cbn [generate_loop] in Hg.
  - injection Hg as <-. exists []. rewrite app_nil_r. split; [reflexivity|]. split; [cbn; lia|].
    exact (fun h => h).
  - destruct (size_of_int (max_sequence_length (config_ m)) <=? Z.of_nat (length tokens)) eqn:Hs.
    + injection Hg as <-. exists []. rewrite app_nil_r. split; [reflexivity|]. split; [cbn; lia|].
      exact (fun h => h).
    + apply Z.leb_gt in Hs.
      destruct (forward m tokens) as [lg|e]; cbn [bind] in Hg; [|discriminate Hg].
      destruct (sample_token _) as [nt|e]; cbn [bind] in Hg; [|discriminate Hg].
      destruct (nt =? 2).
      * injection Hg as <-. exists [nt]. split; [reflexivity|]. split; [cbn; lia|].
        intros _. rewrite length_app. cbn [length]. lia.
      * destruct (IH _ Hg) as [suf [Hout [Hl Hb]]]. exists (nt :: suf).
        split; [rewrite Hout, <- app_assoc; reflexivity|]. split; [cbn [length]; lia|].
        intros _. apply Hb. rewrite length_app. cbn [length]. lia.
Qed.

(** Whatever the model does, a text [generate_text] returns starts with
    the prompt. *)
Theorem generate_text_extends_prompt (m : TinyLlamaModel F) (prompt : string) (max_tokens : Z)
    (temperature : F) (s : string) :
  generate_text m prompt max_tokens temperature = Ok s -> exists g, s = (prompt ++ g)%string.
Proof.
  unfold generate_text. destruct (negb (is_initialized m)); [discriminate|].
  destruct (max_tokens <=? 0); [discriminate|]. cbv zeta.
  match goal with |- bind ?x _ = _ -> _ => destruct x end; cbn [bind]; [|discriminate].
  match goal with |- match ?g with _ => _ end = _ -> _ => destruct g end;
    intros Hs; injection Hs as <-; eexists; reflexivity.
Qed.
End ModelProps.

(** *** Facade properties *)

Lemma check_token_ids_nonneg_ok (param_name : string) (i : nat) (ids : list Z) :
  check_token_ids_nonneg param_name i ids = Ok tt <-> Forall (fun id => 0 <= id) ids.
Proof.
  revert i. induction ids as [|x ids IH]; intros i; cbn [check_token_ids_nonneg].
  - split; constructor.
  - destruct (Z.ltb_spec x 0).
    + split; [discriminate | intros Hf; inversion Hf; lia].
    + rewrite IH. split; [intros Hf; constructor; [lia | exact Hf] | intros Hf; inversion Hf; assumption].
Qed.

Lemma validate_token_ids_ok (ids : list Z) (param_name : string) :
  validate_token_ids ids param_name = Ok tt <->
  Z.of_nat (length ids) <= 100000 /\ Forall (fun id => 0 <= id) ids.
Proof.
  unfold validate_token_ids. destruct ids as [|x ids'] eqn:E.
  - split; [intros _; split; [cbn [length]; lia | constructor] | reflexivity].
  - rewrite <- E. unfold MAX_TOKEN_COUNT.
    destruct (Z.ltb_spec 100000 (Z.of_nat (length ids))).
    + split; [discriminate | lia].
    + rewrite check_token_ids_nonneg_ok. split; [intros Hf; split; [lia | exact Hf] | tauto].
Qed.

Lemma validate_unit (r : res unit) : r = Ok tt \/ exists e, r = Err e.
Proof. destruct r as [[]|e]; [left; reflexivity | right; exists e; reflexivity]. Qed.

(** [TinyLlama::detokenize] returns a text exactly when the facade is
    initialized, the list has at most 100000 ids, none of them negative,
    and the model has a tokenizer; the text is then the tokenizer's
    [decode] of the ids. *)
Theorem TinyLlama_detokenize_ok_iff {F} (t : TinyLlama F) (token_ids : list Z) (s : string) :
  TinyLlama_detokenize t token_ids = Ok s <->
  is_initialized_ t = true /\ Z.of_nat (length token_ids) <= 100000 /\
  Forall (fun id => 0 <= id) token_ids /\
  exists tok, tokenizer_ (model_ t) = Some tok /\ s = decode tok token_ids.
Proof.
  unfold TinyLlama_detokenize, detokenize. destruct (is_initialized_ t); cbn [negb].
  - destruct (validate_unit (validate_token_ids token_ids "token_ids")) as [Hv | [e Hv]].
    + rewrite Hv. cbn [bind]. apply validate_token_ids_ok in Hv. destruct Hv as [Hl Hf].
      destruct (tokenizer_ (model_ t)) as [tok|].
      * split; [intros Hs; injection Hs as <-; repeat split; try assumption; exists tok; split; reflexivity|].
        intros [_ [_ [_ [tok' [Htok ->]]]]]. injection Htok as ->. reflexivity.
      * split; [discriminate | intros [_ [_ [_ [tok' [Htok _]]]]]; discriminate Htok].
    + rewrite Hv. cbn [bind]. split; [discriminate|].
      intros [_ [Hl [Hf _]]]. assert (Hok : validate_token_ids token_ids "token_ids" = Ok tt)
        by (apply validate_token_ids_ok; split; assumption).
      rewrite Hv in Hok. discriminate Hok.
  - split; [discriminate | intros [Hi _]; discriminate Hi].
Qed.

(** [TinyLlama::tokenize_to_ids] fails exactly as [tokenize_to_strings]
    does, and when it succeeds its ids are the vocabulary ids of the
    pieces [tokenize_to_strings] returns. *)
Theorem TinyLlama_tokenize_to_ids_via_strings {F} (t : TinyLlama F) (text : string) :
  (forall e, TinyLlama_tokenize_to_ids t text = Err e <-> TinyLlama_tokenize_to_strings t text = Err e) /\
  (forall ids, TinyLlama_tokenize_to_ids t text = Ok ids ->
   exists tok pieces, tokenizer_ (model_ t) = Some tok /\
     TinyLlama_tokenize_to_strings t text = Ok pieces /\
     ids = map (get_token_id (vocab_ tok)) pieces).
Proof.
  unfold TinyLlama_tokenize_to_ids, TinyLlama_tokenize_to_strings, tokenize, tokenize_to_strings.
  destruct (is_initialized_ t); cbn [negb].
  - destruct (validate_string_input text "text" true) as [[]|e0]; cbn [bind].
    + destruct (tokenizer_ (model_ t)) as [tok|].
      * split; [intros e; split; discriminate|].
        intros ids Hids. injection Hids as <-. exists tok, (encode_to_strings tok text).
        split; [reflexivity|]. split; [reflexivity|]. apply encode_via_encode_to_strings.
      * split; [intros e; split; intros h; injection h as <-; reflexivity | discriminate].
    + split; [intros e; split; intros h; injection h as <-; reflexivity | discriminate].
  - split; [intros e; split; intros h; injection h as <-; reflexivity | discriminate].
Qed.

(** [TinyLlama::set_max_sequence_length] never succeeds: every value is
    refused with a [ConfigurationException], a valid one with the message
    that runtime changes are not supported. *)
Theorem TinyLlama_set_max_sequence_length_fails {F} (t : TinyLlama F) (max_length : Z) :
  (exists msg, TinyLlama_set_max_sequence_length t max_length = Err (ConfigurationException msg)) /\
  (1 <= max_length <= 100000 ->
   TinyLlama_set_max_sequence_length t max_length =
   Err (ConfigurationException ("Max sequence length must be set during model initialization. " ++
                                "Current implementation does not support runtime changes.")%string)).
Proof.
  unfold TinyLlama_set_max_sequence_length, validate_positive_integer. split.
  - destruct (max_length <? 1); [eexists; reflexivity|].
    destruct (1000000 <? max_length); [eexists; reflexivity|]. cbn [bind].
    destruct (100000 <? max_length); eexists; reflexivity.
  - intros Hr. replace (max_length <? 1) with false by (symmetry; apply Z.ltb_ge; lia).
    replace (1000000 <? max_length) with false by (symmetry; apply Z.ltb_ge; lia).
    replace (100000 <? max_length) with false by (symmetry; apply Z.ltb_ge; lia).
    reflexivity.
Qed.

Local Open Scope R_scope.

Lemma xR_thousand : (flit F_THOUSAND : xR) = Fin 1000.
Proof. unfold flit, xR_lit, b32_value. cbn -[IZR powerRZ]. f_equal. simpl. field. Qed.

(** [TinyLlama::set_temperature] accepts exactly the finite temperatures
    from [0.01f] to [1000] (so neither NaN nor an infinity), and then
    stores the value in the model and changes nothing else. *)
Theorem TinyLlama_set_temperature_spec (t : TinyLlama xR) (x : xR) :
  (is_Ok (TinyLlama_set_temperature t x) = true <->
   exists r, x = Fin r /\ fin_val (flit F_CENTI) <= r <= 1000) /\
  (forall t', TinyLlama_set_temperature t x = Ok t' ->
   t' = mkTinyLlama (set_temperature x (model_ t)) (is_initialized_ t)).
Proof.
  unfold TinyLlama_set_temperature, validate_positive_float. rewrite xR_thousand.
  assert (Hc : exists c, (flit F_CENTI : xR) = Fin c)
    by (eexists; unfold flit, xR_lit, b32_value; cbn -[IZR powerRZ]; reflexivity).
  destruct Hc as [c Hc]. rewrite Hc. cbn [fin_val].
  destruct x as [r| | |]; cbn [xlt is_fin negb].
  - destruct (Rlt_dec r c) as [Hlt|Hge].
    + cbn [bind is_Ok]. split; [|discriminate].
      split; [discriminate | intros [r' [Hr' Hb]]; injection Hr' as <-; lra].
    + destruct (Rlt_dec 1000 r) as [Hgt|Hle]; cbn [bind is_Ok].
      * split; [|discriminate]. split; [discriminate | intros [r' [Hr' Hb]]; injection Hr' as <-; lra].
      * split; [split; [intros _; exists r; split; [reflexivity | lra] | reflexivity]|].
        intros t' Ht'. injection Ht' as <-. reflexivity.
  - cbn [bind is_Ok]. split; [|discriminate]. split; [discriminate | intros [r' [Hr' _]]; discriminate Hr'].
  - cbn [bind is_Ok]. split; [|discriminate]. split; [discriminate | intros [r' [Hr' _]]; discriminate Hr'].
  - cbn [bind is_Ok]. split; [|discriminate]. split; [discriminate | intros [r' [Hr' _]]; discriminate Hr'].
Qed.

Local Close Scope R_scope.

(** *** Witnesses *)

Lemma map_find_in (k : string) (m : list (string * Z)) (id : Z) :
  map_find k m = Some id -> In (k, id) m.
Proof.
  induction m as [|[k' v] m IH]; cbn [map_find]; [discriminate|].
  destruct (String.eqb_spec k k') as [->|]; [intros H; injection H as <-; left; reflexivity|].
  intros H. right. exact (IH H).
Qed.

Lemma vocab_wf_check (v : Vocabulary) :
  forallb (fun p => (0 <=? snd p) && (snd p <? Z.of_nat (length (id_to_token_ v))) &&
                    String.eqb (nth (Z.to_nat (snd p)) (id_to_token_ v) ""%string) (fst p))
    (token_to_id_ v) = true -> vocab_wf v.
Proof.
  intros Hc k id Hk. apply map_find_in in Hk.
  rewrite forallb_forall in Hc. specialize (Hc _ Hk). cbn [fst snd] in Hc.
  apply andb_prop in Hc. destruct Hc as [Hc H3]. apply andb_prop in Hc. destruct Hc as [H1 H2].
  apply Z.leb_le in H1. apply Z.ltb_lt in H2. apply String.eqb_eq in H3. split; [lia | exact H3].
Qed.

Lemma add_token_spec_witness :
  vocab_wf Vocabulary_new /\
  Z.of_nat (List.length (id_to_token_ Vocabulary_new)) < INT_MAX /\
  get_token_id (snd (add_token "hello" Vocabulary_new)) "hello" = fst (add_token "hello" Vocabulary_new).
Proof.
  assert (Hwf : vocab_wf Vocabulary_new) by (apply vocab_wf_check; vm_compute; reflexivity).
  assert (Hsz : Z.of_nat (List.length (id_to_token_ Vocabulary_new)) < INT_MAX)
    by (unfold INT_MAX; vm_compute; reflexivity).
  split; [exact Hwf|]. split; [exact Hsz|].
  pose proof (add_token_spec Vocabulary_new "hello" Hwf Hsz) as Hs.
  destruct (add_token "hello" Vocabulary_new) as [id v'].
  exact (proj1 (proj2 Hs)).
Defined.

Lemma transpose_involutive_witness :
  length (data_ sample_matrix) = (rows_ sample_matrix * cols_ sample_matrix)%nat /\
  transpose (transpose sample_matrix) = sample_matrix.
Proof.
  split; [reflexivity|]. apply transpose_involutive. reflexivity.
Defined.

Lemma mat_set_then_at_witness :
  exists m', mat_set sample_matrix 1 0 (F32 7) = Ok m' /\ rows_ m' = rows_ sample_matrix /\
    cols_ m' = cols_ sample_matrix /\ length (data_ m') = length (data_ sample_matrix) /\
    mat_at m' 1 0 = Ok (F32 7) /\
    forall i' j', (i', j') <> (1%nat, 0%nat) -> mat_at m' i' j' = mat_at sample_matrix i' j'.
Proof. apply mat_set_then_at; [reflexivity | cbn; lia | cbn; lia]. Defined.

Lemma madd_elementwise_witness :
  exists c, madd xr_matrix xr_matrix = Ok c /\ rows_ c = rows_ xr_matrix /\
    cols_ c = cols_ xr_matrix /\ length (data_ c) = (rows_ xr_matrix * cols_ xr_matrix)%nat /\
    forall i j, (i < rows_ xr_matrix)%nat -> (j < cols_ xr_matrix)%nat ->
      mget c i j = fadd (mget xr_matrix i j) (mget xr_matrix i j).
Proof. apply madd_elementwise; reflexivity. Defined.

Lemma add_into_eq_madd_witness : add_into xr_matrix xr_matrix = madd xr_matrix xr_matrix.
Proof. apply add_into_eq_madd; reflexivity. Defined.

Lemma mresize_same_cols_keeps_cells_witness :
  length (data_ (mresize 3 (cols_ sample_matrix) sample_matrix)) = (3 * cols_ sample_matrix)%nat /\
  forall i j, (i < 3)%nat -> (i < rows_ sample_matrix)%nat -> (j < cols_ sample_matrix)%nat ->
    mget (mresize 3 (cols_ sample_matrix) sample_matrix) i j = mget sample_matrix i j.
Proof. apply mresize_same_cols_keeps_cells; [reflexivity | cbn; lia]. Defined.

Lemma compute_index_in_bounds_witness :
  exists k, compute_index sample_tensor [1; 2] = Ok k /\ 0 <= k < total_size sample_tensor.
Proof.
  apply compute_index_in_bounds; [reflexivity | | cbn; lia].
  intros i Hi. cbn in Hi. destruct i as [|[|i]]; cbn; lia.
Defined.

Lemma compute_index_errors_witness :
  compute_index sample_tensor [1; 3] = Err (OutOfRange "Tensor index out of bounds").
Proof.
  apply (proj2 (compute_index_errors sample_tensor [1; 3]));
    [reflexivity | unfold INT_MAX; cbn; lia |].
  exists 1%nat. cbn. split; lia.
Defined.

Lemma to_matrix_agrees_with_at_witness :
  exists m, to_matrix sample_tensor = Ok m /\ rows_ m = Z.to_nat 2 /\ cols_ m = Z.to_nat 3 /\
    data_ m = tdata_ sample_tensor /\
    forall i j, 0 <= i < 2 -> 0 <= j < 3 ->
      tensor_at sample_tensor [i; j] = mat_at m (Z.to_nat i) (Z.to_nat j).
Proof. apply to_matrix_agrees_with_at; [reflexivity | lia | lia | lia | reflexivity]. Defined.

Lemma to_matrix_after_resize_witness :
  to_matrix (tensor_resize [2 ^ 32; 2 ^ 32] sample_tensor) =
  Ok (mkMatrix (Z.to_nat (2 ^ 32)) (Z.to_nat (2 ^ 32))
        (tdata_ (tensor_resize [2 ^ 32; 2 ^ 32] sample_tensor))).
Proof. apply to_matrix_after_resize; lia. Defined.

Lemma load_from_file_ignores_trailing_bytes_witness :
  load_from_file "m.bin" (Some (save_to_file sample_matrix)) Matrix_empty = Ok sample_matrix /\
  load_from_file "m.bin" (Some (save_to_file sample_matrix ++ [x01; x02]))
    Matrix_empty = Ok sample_matrix.
Proof.
  assert (Hl : load_from_file "m.bin" (Some (save_to_file sample_matrix)) Matrix_empty = Ok sample_matrix)
    by (vm_compute; reflexivity).
  split; [exact Hl|]. apply load_from_file_ignores_trailing_bytes. exact Hl.
Defined.

Lemma forward_success_conditions_witness :
  forward bos_model [0] = Ok (map Fin [0; 0; 1; 0]%R) /\
  Forall (fun id => 0 <= id < vocab_size (config_ bos_model)) [0] /\
  length (map Fin [0; 0; 1; 0]%R) = dim (vocab_size (config_ bos_model)).
Proof.
  assert (Hf : forward bos_model [0] = Ok (map Fin [0; 0; 1; 0]%R))
    by (change bos_model with (probe_model (map Fin [0; 0; 1; 0]%R));
        apply forward_probe_model; [reflexivity | left; reflexivity]).
  pose proof (forward_success_conditions bos_model [0] _ Hf) as Hc.
  split; [exact Hf | exact (proj2 (proj2 (proj2 Hc)))].
Defined.

Lemma generate_loop_extends_witness :
  exists suffix, [0; 2] = [0] ++ suffix /\ (length suffix <= 2)%nat /\
    (Z.of_nat (length [0]) <= size_of_int (max_sequence_length (config_ bos_model)) ->
     Z.of_nat (length [0; 2]) <= size_of_int (max_sequence_length (config_ bos_model))).
Proof. apply (generate_loop_extends bos_model (flit F_ONE) 2 [0]). apply generate_loop_bos_model. Defined.

Lemma generate_text_extends_prompt_witness :
  exists g, "a<bos>"%string = ("a" ++ g)%string.
Proof.
  apply (generate_text_extends_prompt bos_model "a" 2 (flit F_ONE)).
  unfold generate_text.
  change (is_initialized bos_model) with true.
  change (tokenize bos_model "a") with (@Ok (list Z) [0]).
  cbv beta iota zeta.
  destruct (_ <=? Z.of_nat _) eqn:E; [vm_compute in E; discriminate E|].
  change (Z.to_nat 2) with 2%nat.
  rewrite generate_loop_bos_model. reflexivity.
Defined.

Lemma TinyLlama_tokenize_to_ids_via_strings_witness :
  exists tok pieces, tokenizer_ (model_ small_facade) = Some tok /\
    TinyLlama_tokenize_to_strings small_facade "ab c" = Ok pieces /\
    TinyLlama_tokenize_to_ids small_facade "ab c" = Ok (map (get_token_id (vocab_ tok)) pieces).
Proof.
  destruct (TinyLlama_tokenize_to_ids_via_strings small_facade "ab c") as [_ H].
  destruct (H (encode BPETokenizer_new "ab c")) as [tok [pieces [H1 [H2 H3]]]];
    [vm_compute; reflexivity|].
  exists tok, pieces. split; [exact H1|]. split; [exact H2|]. rewrite <- H3. vm_compute. reflexivity.
Defined.

Lemma TinyLlama_set_max_sequence_length_fails_witness :
  TinyLlama_set_max_sequence_length small_facade 512 =
  Err (ConfigurationException ("Max sequence length must be set during model initialization. " ++
                               "Current implementation does not support runtime changes.")%string).
Proof. apply (proj2 (TinyLlama_set_max_sequence_length_fails small_facade 512)). lia. Defined.
